(** * Slice propagation of [micro_sam.multi_dimensional_segmentation]

    A shallow embedding of [segment_mask_in_volume] and of its inner closure
    [segment_range], with the volume as an explicit mutable store.

    - The volume [segmentation] is a list of slices; a slice is the list of
      its pixel labels.  Indexing follows numpy: an index in [0, N) addresses
      a slice directly, an index in [-N, 0) wraps around, anything else
      raises [IndexError].
    - [segment_from_mask] (module [prompt_based_segmentation]) and
      [util.compute_iou] are not part of the sources at hand; they are the
      two [Variable]s of the section below, so every theorem holds for every
      segmenter and every overlap measure.  The predictor and the image
      embeddings are constant during a call and live inside the segmenter.
    - IoU values and thresholds are rationals; the only operation the code
      applies to them is the comparison [iou < threshold].
    - Every call of the segmenter and every assignment [segmentation[z] = ...]
      is appended to a trace, oldest event first.  The progress bar is a
      counter, absent when no bar is passed.  Console output is not
      modelled.
    - The [while True] loop of [segment_range] runs on fuel.  The closure is
      only called with steps of one slice, and such a walk leaves the volume
      after at most [2 * N] slices; [segment_mask_in_volume_terminates]
      shows that the fuel handed to it never runs out. *)

From Stdlib Require Import ZArith QArith.
From stdpp Require Import base numbers list list_numbers sets strings sorting.

Open Scope Z_scope.

(** ** Arrays *)

(** One slice of the label volume, flattened. *)
Definition mask := list Z.

(** What is handed to the segmenter as the mask prompt: either a slice of the
    label volume or the boolean array built by [np.logical_or]. *)
Inductive ndarray :=
| IntArr (a : list Z)
| BoolArr (a : list bool).

(** [a == 1], element-wise. *)
Definition eq_one (a : mask) : list bool := (λ v, v =? 1) <$> a.

(** [np.logical_or], element-wise on two arrays of the same shape. *)
Definition logical_or (a b : list bool) : list bool := zip_with orb a b.

(** numpy index normalisation for an axis of length [n]. *)
Definition normalize_index (n : nat) (z : Z) : option nat :=
  if bool_decide (0 ≤ z < Z.of_nat n) then Some (Z.to_nat z)
  else if bool_decide (- Z.of_nat n ≤ z < 0) then Some (Z.to_nat (z + Z.of_nat n))
  else None.

(** [iou < threshold] on rationals. *)
Definition Qlt_bool (x y : Q) : bool :=
  Qnum x * Z.pos (Qden y) <? Qnum y * Z.pos (Qden x).

(** ** Events, state and the computation monad *)

Inductive event :=
| Segment (prompt : ndarray) (i : Z) (use_mask use_box use_points : bool) (box_extension : Q)
| Store (z : Z) (seg_z : mask).

Record state := State {
  segmentation : list mask;
  trace : list event;
  progress_bar : option nat
}.

Inductive exn := AssertionError | ValueError | IndexError.

Inductive outcome (A : Type) :=
| Return (a : A)
| Raise (e : exn)
| OutOfFuel.
Arguments Return {A} a.
Arguments Raise {A} e.
Arguments OutOfFuel {A}.

Definition M (A : Type) : Type := state → outcome A * state.

#[export] Instance M_ret : MRet M := λ A a st, (Return a, st).

#[export] Instance M_bind : MBind M := λ A B f m st,
  match m st with
  | (Return a, st') => f a st'
  | (Raise e, st') => (Raise e, st')
  | (OutOfFuel, st') => (OutOfFuel, st')
  end.

Definition raise {A} (e : exn) : M A := λ st, (Raise e, st).

Definition out_of_fuel {A} : M A := λ st, (OutOfFuel, st).

(** [assert b] *)
Definition assert (b : bool) : M unit :=
  if b then mret () else raise AssertionError.

(** [segmentation.shape[0]] *)
Definition shape0 : M Z := λ st, (Return (Z.of_nat (length (segmentation st))), st).

(** The slice that [vol[z]] denotes, when [z] is a legal index. *)
Definition slice_at (vol : list mask) (z : Z) : option mask :=
  normalize_index (length vol) z ≫= (vol !!.).

(** [segmentation[z]] as an expression. *)
Definition getitem (z : Z) : M mask := λ st,
  match slice_at (segmentation st) z with
  | Some m => (Return m, st)
  | None => (Raise IndexError, st)
  end.

(** [segmentation[z] = seg_z], for a mask [seg_z] of the shape of a
    slice, which is what the segmenter returns for a prompt of that shape.
    numpy raises [ValueError] for a mask that cannot be broadcast to the
    slice; such a segmenter is outside this model. *)
Definition setitem (z : Z) (seg_z : mask) : M unit := λ st,
  match normalize_index (length (segmentation st)) z with
  | Some i =>
      (Return (), State (<[i:=seg_z]> (segmentation st)) (trace st ++ [Store z seg_z])
                        (progress_bar st))
  | None => (Raise IndexError, st)
  end.

(** [return segmentation]: the caller gets the array it passed in. *)
Definition the_volume : M (list mask) := λ st, (Return (segmentation st), st).

(** [_update_progress()] *)
Definition _update_progress : M unit := λ st,
  (Return (), State (segmentation st) (trace st) (S <$> progress_bar st)).

(** Slice indices assigned by a trace, in the order of the assignments. *)
Definition stores (tr : list event) : list Z :=
  omap (λ e, match e with Store z _ => Some z | _ => None end) tr.

(** Slice indices the segmenter was called for, in the order of the calls. *)
Definition calls (tr : list event) : list Z :=
  omap (λ e, match e with Segment _ i _ _ _ _ => Some i | _ => None end) tr.

(** The events a computation appended when it took [st] to [st']. *)
Definition new_events (st st' : state) : list event :=
  drop (length (trace st)) (trace st').

(** The slice indices [z], [z + increment], ... of [n] steps. *)
Fixpoint walk_indices (n : nat) (increment z : Z) : list Z :=
  match n with
  | O => []
  | S n => z :: walk_indices n increment (z + increment)
  end.

(** The volume after replaying the assignments of a trace. *)
Fixpoint replay (tr : list event) (vol : list mask) : list mask :=
  match tr with
  | [] => vol
  | Store z seg_z :: tr =>
      match normalize_index (length vol) z with
      | Some i => replay tr (<[i:=seg_z]> vol)
      | None => replay tr vol
      end
  | _ :: tr => replay tr vol
  end.

Section Propagation.

(** [segment_from_mask(predictor, prompt, image_embeddings, i, use_mask,
    use_box, use_points, box_extension)] *)
Variable segment_from_mask : ndarray → Z → bool → bool → bool → Q → mask.

(** [util.compute_iou(mask1, mask2)] *)
Variable compute_iou : mask → mask → Q.

Section Closure.

(** What the closure [segment_range] captures from the enclosing call. *)
Variables (use_box use_mask use_points : bool) (box_extension : Q).

(** The call of the segmenter that every prompt goes through. *)
Definition segment (prompt : ndarray) (i : Z) : M mask := λ st,
  (Return (segment_from_mask prompt i use_mask use_box use_points box_extension),
   State (segmentation st)
         (trace st ++ [Segment prompt i use_mask use_box use_points box_extension])
         (progress_bar st)).

(** [threshold is not None and compute_iou(seg_prev, seg_z) < threshold] *)
Definition gate_rejects (threshold : option Q) (seg_prev seg_z : mask) : bool :=
  match threshold with
  | Some t => Qlt_bool (compute_iou seg_prev seg_z) t
  | None => false
  end.

(** The [while True] loop of [segment_range]; [z] is the loop variable. *)
Fixpoint segment_range_loop (fuel : nat) (z_stop increment : Z)
    (stopping_criterion : Z → Z → bool) (threshold : option Q) (z : Z) : M unit :=
  match fuel with
  | O => out_of_fuel
  | S fuel =>
      seg_prev ← getitem (z - increment);
      seg_z ← segment (IntArr seg_prev) z;
      if gate_rejects threshold seg_prev seg_z then mret ()
      else
        setitem z seg_z;;
        let z := z + increment in
        if stopping_criterion z z_stop then mret ()
        else
          _update_progress;;
          segment_range_loop fuel z_stop increment stopping_criterion threshold z
  end.

(** Iterations within which a walk with a step of one slice has stopped or
    has left the volume (where indexing raises [IndexError]): there are at
    most [2 * N] legal indices on its way. *)
Definition enough_fuel (st : state) : nat := S (S (2 * length (segmentation st))).

Definition segment_range (z_start z_stop increment : Z)
    (stopping_criterion : Z → Z → bool) (threshold : option Q) : M unit := λ st,
  segment_range_loop (enough_fuel st) z_stop increment stopping_criterion threshold
    (z_start + increment) st.

(** The branch [slice_diff == 2] and the midpoint of an even gap: slice
    [z] from the union of its two neighbours [z_lo] and [z_hi]. *)
Definition segment_from_union (z_lo z_hi z : Z) : M unit :=
  seg_lo ← getitem z_lo;
  seg_hi ← getitem z_hi;
  let seg_prompt := logical_or (eq_one seg_lo) (eq_one seg_hi) in
  seg_z ← segment (BoolArr seg_prompt) z;
  setitem z seg_z;;
  _update_progress.

(** "segment from bottom" in the branch for more than two slices. *)
Definition bisect_from_bottom (z_start z_stop : Z) : M unit :=
  let slice_diff := z_stop - z_start in
  let z_mid := (z_start + z_stop) `div` 2 in
  segment_range z_start z_mid 1
    (if slice_diff `mod` 2 =? 0 then Z.geb else Z.gtb) None.

(** "segment from top" in the same branch. *)
Definition bisect_from_top (z_start z_stop : Z) : M unit :=
  let z_mid := (z_start + z_stop) `div` 2 in
  segment_range z_stop z_mid (-1) Z.leb None.

(** The body of the loop over consecutive segmented slices. *)
Definition fill_gap (z0 z1 : Z) (stop_lower stop_upper : bool)
    (z_start z_stop : Z) : M unit :=
  let slice_diff := z_stop - z_start in
  let z_mid := (z_start + z_stop) `div` 2 in
  if slice_diff =? 1 then mret ()
  else if (z_start =? z0) && stop_lower then
    segment_range z_stop z_start (-1) Z.leb None
  else if (z_stop =? z1) && stop_upper then
    segment_range z_start z_stop 1 Z.geb None
  else if slice_diff =? 2 then
    segment_from_union z_start z_stop (z_start + 1)
  else
    bisect_from_bottom z_start z_stop;;
    bisect_from_top z_start z_stop;;
    if slice_diff `mod` 2 =? 0
    then segment_from_union (z_mid - 1) (z_mid + 1) z_mid
    else mret ().

(** [for z_start, z_stop in zip(...)]: the first exception ends the loop. *)
Fixpoint for_each_gap (body : Z → Z → M unit) (gaps : list (Z * Z)) : M unit :=
  match gaps with
  | [] => mret ()
  | (z_start, z_stop) :: gaps => body z_start z_stop;; for_each_gap body gaps
  end.

(** "segment below the min slice" *)
Definition segment_below (z0 : Z) (stop_lower : bool) (iou_threshold : Q) : M unit :=
  if (0 <? z0) && negb stop_lower
  then segment_range z0 0 (-1) Z.ltb (Some iou_threshold)
  else mret ().

(** "segment above the max slice" *)
Definition segment_above (z1 : Z) (stop_upper : bool) (iou_threshold : Q) : M unit :=
  n ← shape0;
  if (z1 <? n - 1) && negb stop_upper
  then segment_range z1 (n - 1) 1 Z.gtb (Some iou_threshold)
  else mret ().

(** "segment in between min and max slice" *)
Definition segment_between (segmented_slices : list Z) (z0 z1 : Z)
    (stop_lower stop_upper : bool) : M unit :=
  if negb (z0 =? z1)
  then for_each_gap (fill_gap z0 z1 stop_lower stop_upper)
         (zip (removelast segmented_slices) (tail segmented_slices))
  else mret ().

(** Everything after the projection flags are fixed. *)
Definition propagate (segmented_slices : list Z) (stop_lower stop_upper : bool)
    (iou_threshold : Q) : M (list mask) :=
  match segmented_slices with
  | [] => raise ValueError
  | s :: rest =>
      let z0 := foldr Z.min s rest in
      let z1 := foldr Z.max s rest in
      segment_below z0 stop_lower iou_threshold;;
      segment_above z1 stop_upper iou_threshold;;
      segment_between segmented_slices z0 z1 stop_lower stop_upper;;
      the_volume
  end.

(** *** Reference states and traces *)

(** The state after the call of the segmenter for slice [z]. *)
Definition called (prompt : ndarray) (z : Z) (st : state) : state :=
  State (segmentation st)
    (trace st ++ [Segment prompt z use_mask use_box use_points box_extension])
    (progress_bar st).

(** The state after [segmentation[z] = seg_z] at position [i]. *)
Definition stored (i : nat) (z : Z) (seg_z : mask) (st : state) : state :=
  State (<[i:=seg_z]> (segmentation st)) (trace st ++ [Store z seg_z]) (progress_bar st).

(** The state after [_update_progress()]. *)
Definition ticked (st : state) : state :=
  State (segmentation st) (trace st) (S <$> progress_bar st).

(** The events a walk of at most [n] slices appends: slice [z]
    is segmented from the mask of the slice before it, and the walk ends
    with the first candidate the gate rejects. *)
Fixpoint walk_trace (threshold : option Q) (n : nat) (increment z : Z)
    (seg_prev : mask) : list event :=
  match n with
  | O => []
  | S n =>
      let seg_z :=
        segment_from_mask (IntArr seg_prev) z use_mask use_box use_points box_extension in
      Segment (IntArr seg_prev) z use_mask use_box use_points box_extension ::
      if gate_rejects threshold seg_prev seg_z then []
      else Store z seg_z :: walk_trace threshold n increment (z + increment) seg_z
  end.

(** The two events of one call of [segment_from_union]. *)
Definition union_trace (seg_lo seg_hi : mask) (z : Z) : list event :=
  let seg_prompt := BoolArr (logical_or (eq_one seg_lo) (eq_one seg_hi)) in
  [Segment seg_prompt z use_mask use_box use_points box_extension;
   Store z (segment_from_mask seg_prompt z use_mask use_box use_points box_extension)].

(** An event that is a call of the segmenter carries the captured flags. *)
Definition uses_flags (e : event) : Prop :=
  match e with
  | Segment _ _ um ub up be =>
      um = use_mask ∧ ub = use_box ∧ up = use_points ∧ be = box_extension
  | Store _ _ => True
  end.

End Closure.

(** [use_box, use_mask, use_points] for a projection mode. *)
Definition projection_flags (projection : string) : bool * bool * bool :=
  if String.eqb projection "mask" then (true, true, false)
  else if String.eqb projection "points" then (true, true, true)
  else (true, false, false).

Definition segment_mask_in_volume (segmented_slices : list Z)
    (stop_lower stop_upper : bool) (iou_threshold : Q) (projection : string)
    (box_extension : Q) : M (list mask) :=
  assert (bool_decide (projection ∈ ["mask"; "bounding_box"; "points"]));;
  let '(use_box, use_mask, use_points) := projection_flags projection in
  propagate use_box use_mask use_points box_extension
    segmented_slices stop_lower stop_upper iou_threshold.

End Propagation.

(** ** Properties of computations *)

(** [advances P m]: running [m] only appends events, all of them satisfying
    [P], and the volume it leaves is the old one with the appended
    assignments replayed, whatever the outcome; and [m] fails no assertion. *)
Definition advances (P : event → Prop) {A} (m : M A) : Prop :=
  ∀ st, ∃ new,
    trace (m st).2 = trace st ++ new ∧
    segmentation (m st).2 = replay new (segmentation st) ∧
    Forall P new ∧
    (m st).1 ≠ Raise AssertionError.

(** [terminates m]: [m] never runs out of fuel. *)
Definition terminates {A} (m : M A) : Prop := ∀ st, (m st).1 ≠ OutOfFuel.

(** ** A stub segmenter for concrete runs

    The stub returns the mask it is prompted with, and detects nothing in
    the slices above slice 7; the overlap measure is intersection over
    union of the pixels labelled 1, and 0 for two empty masks. *)

Definition stub_segmenter : ndarray → Z → bool → bool → bool → Q → mask :=
  λ prompt i _ _ _ _,
    match prompt with
    | IntArr a => if 7 <? i then (λ _, 0) <$> a else a
    | BoolArr a => (λ b : bool, if b then 1 else 0) <$> a
    end.

Definition count_true (a : list bool) : Z := Z.of_nat (length (filter Is_true a)).

Definition stub_iou (a b : mask) : Q :=
  Qmake (count_true (zip_with andb (eq_one a) (eq_one b)))
        (Z.to_pos (count_true (logical_or (eq_one a) (eq_one b)))).

(** A volume of [n] empty slices of three pixels in which the slices
    [seeds] hold an object, with no progress bar and an empty trace. *)
Definition seeded_volume (n : nat) (seeds : list Z) : state :=
  State ((λ z, if bool_decide (z ∈ seeds) then [0; 1; 1] else [0; 0; 0])
           <$> seqZ 0 (Z.of_nat n))
        [] None.

(** A second stub segmenter, which finds the object in every pixel. *)
Definition filling_segmenter : ndarray → Z → bool → bool → bool → Q → mask :=
  λ prompt _ _ _ _ _,
    match prompt with
    | IntArr a => (λ _, 1) <$> a
    | BoolArr a => (λ _, 1) <$> a
    end.

(** A volume of [n] empty slices of three pixels in which slice [lo] holds
    an object in its middle pixel and slice [hi] one in its last pixel. *)
Definition two_objects_volume (n : nat) (lo hi : Z) : state :=
  State ((λ z, if bool_decide (z = lo) then [0; 1; 0]
               else if bool_decide (z = hi) then [0; 0; 1] else [0; 0; 0])
           <$> seqZ 0 (Z.of_nat n))
        [] None.

(** ** The union of two masks, in the words of the specification

    [prompt] is the logical OR of the two masks: it is set in a pixel
    exactly when one of the two masks is 1 there.  To be compared with
    [logical_or (eq_one seg_lo) (eq_one seg_hi)], which is what the code
    computes. *)
Definition union_of (seg_lo seg_hi : mask) (prompt : list bool) : Prop :=
  length prompt = (length seg_lo `min` length seg_hi)%nat ∧
  ∀ i x y, seg_lo !! i = Some x → seg_hi !! i = Some y →
    prompt !! i = Some (bool_decide (x = 1 ∨ y = 1)).

(** ** Reference functions for whole walks *)

Section Chains.

Variable segment_from_mask : ndarray → Z → bool → bool → bool → Q → mask.
Variable compute_iou : mask → mask → Q.
Variables (use_box use_mask use_points : bool) (box_extension : Q).

(** The mask that [k] steps of propagation in direction [increment] derive
    for slice [z + increment * k] from the mask [seg] of slice [z]: each
    slice is segmented from the mask of the slice before it. *)
Fixpoint propagated (increment z : Z) (seg : mask) (k : nat) : mask :=
  match k with
  | O => seg
  | S k =>
      segment_from_mask (IntArr (propagated increment z seg k))
        (z + increment * Z.of_nat (S k)) use_mask use_box use_points box_extension
  end.

(** The number of slices a walk of at most [n] slices assigns: the steps
    before the first candidate that the gate rejects.  The walk starts at
    slice [z] with [seg_prev] the mask of the slice before it. *)
Fixpoint accepted (threshold : option Q) (n : nat) (increment z : Z) (seg_prev : mask) : nat :=
  match n with
  | O => O
  | S n =>
      let seg_z :=
        segment_from_mask (IntArr seg_prev) z use_mask use_box use_points box_extension in
      if gate_rejects compute_iou threshold seg_prev seg_z then O
      else S (accepted threshold n increment (z + increment) seg_z)
  end.

End Chains.

(** The progress made so far, 0 without a progress bar. *)
Definition ticks (st : state) : nat := default 0%nat (progress_bar st).

(** [paced m]: [m] advances the progress bar at most once for each slice
    it assigns. *)
Definition paced {A} (m : M A) : Prop :=
  ∀ st, ∃ new,
    trace (m st).2 = trace st ++ new ∧
    (ticks (m st).2 ≤ ticks st + length (stores new))%nat.


(** ** The caller [segment_3d_from_slice]

    The volume [raw] enters through its shape, [n_slices] slices of
    [n_pixels] pixels each; its content is only read by the automatic
    instance segmentation and by the segmenter.  The result is the value
    the call returns; the calls of the segmenter it makes are those of the
    runs of [segment_mask_in_volume]. *)

(** [np.unique(a)]: the values of [a], ascending, each of them once. *)
Definition unique (a : list Z) : list Z := merge_sort Z.le (remove_dups a).

(** [dst[cond] = v] for a boolean array [cond]; numpy raises [IndexError]
    when [cond] has not the shape of [dst]. *)
Definition masked_fill (dst : mask) (cond : list bool) (v : Z) : option mask :=
  if decide (length cond = length dst)
  then Some (zip_with (λ d (c : bool), if c then v else d) dst cond)
  else None.

(** [segmentation[this_seg > 0] = seg_id] on two volumes of one shape. *)
Definition paint (segmentation this_seg : list mask) (seg_id : Z) : list mask :=
  zip_with (zip_with (λ s t, if 0 <? t then seg_id else s)) segmentation this_seg.

(** [for seg_id in seg_ids]: the first exception ends the loop. *)
Fixpoint for_each_object (body : list mask → Z → outcome (list mask)) (seg_ids : list Z)
    (segmentation : list mask) : outcome (list mask) :=
  match seg_ids with
  | [] => Return segmentation
  | seg_id :: seg_ids =>
      match body segmentation seg_id with
      | Return segmentation => for_each_object body seg_ids segmentation
      | Raise e => Raise e
      | OutOfFuel => OutOfFuel
      end
  end.

(** [vol[j][p]] for positions inside the volume. *)
Definition pixel_at (vol : list mask) (j p : nat) : option Z := vol !! j ≫= (.!! p).

(** A volume of [n_slices] slices of [n_pixels] pixels each. *)
Definition shaped (n_slices n_pixels : nat) (vol : list mask) : Prop :=
  length vol = n_slices ∧ Forall (λ s, length s = n_pixels) vol.

(** The number of pixels of a prompt. *)
Definition array_size (a : ndarray) : nat :=
  match a with
  | IntArr a => length a
  | BoolArr a => length a
  end.

(** The segmenter returns a mask of the shape of a slice when it is
    prompted with one. *)
Definition well_shaped (n_pixels : nat)
    (segment_from_mask : ndarray → Z → bool → bool → bool → Q → mask) : Prop :=
  ∀ prompt z use_mask use_box use_points box_extension,
    array_size prompt = n_pixels →
    length (segment_from_mask prompt z use_mask use_box use_points box_extension) = n_pixels.

Section Caller.

Variable segment_from_mask : ndarray → Z → bool → bool → bool → Q → mask.
Variable compute_iou : mask → mask → Q.

(** The automatic instance segmentation of slice [z] as a label image:
    [AutomaticMaskGenerator] or [cache_amg_state], [generate] and
    [mask_data_to_segmentation], none of them part of the sources at
    hand. *)
Variable instance_segmentation : Z → mask.

(** [np.zeros(raw.shape)] *)
Definition zeros (n_slices n_pixels : nat) : list mask :=
  replicate n_slices (replicate n_pixels 0).

(** The volume [this_seg] of one object before it is propagated: zero but
    for the pixels of slice [z], at position [i], that carry [seg_id]. *)
Definition object_seed (n_slices n_pixels : nat) (i : nat) (seg_z : mask) (seg_id : Z)
    : option (list mask) :=
  slice ← masked_fill (replicate n_pixels 0) ((λ v, v =? seg_id) <$> seg_z) 1;
  Some (<[i:=slice]> (zeros n_slices n_pixels)).

(** One object on its own: the seed and its propagation through the
    volume, from the only segmented slice [z] and without stops. *)
Definition propagate_object (n_slices n_pixels : nat) (z : Z) (i : nat) (seg_z : mask)
    (projection : string) (box_extension iou_threshold : Q) (seg_id : Z)
    : outcome (list mask) :=
  match object_seed n_slices n_pixels i seg_z seg_id with
  | None => Raise IndexError
  | Some this_seg =>
      (segment_mask_in_volume segment_from_mask compute_iou [z] false false
         iou_threshold projection box_extension (State this_seg [] None)).1
  end.

(** The body of the loop over the objects. *)
Definition segment_object (n_slices n_pixels : nat) (z : Z) (i : nat) (seg_z : mask)
    (projection : string) (box_extension iou_threshold : Q)
    (segmentation : list mask) (seg_id : Z) : outcome (list mask) :=
  match propagate_object n_slices n_pixels z i seg_z projection box_extension
          iou_threshold seg_id with
  | Return this_seg => Return (paint segmentation this_seg seg_id)
  | Raise e => Raise e
  | OutOfFuel => OutOfFuel
  end.

(** Object [seg_id] covers pixel [p] of slice [j]: its own volume is
    positive there after the propagation. *)
Definition covers (n_slices n_pixels : nat) (z : Z) (i : nat) (seg_z : mask)
    (projection : string) (box_extension iou_threshold : Q) (seg_id : Z) (j p : nat) : Prop :=
  ∃ this_seg t,
    propagate_object n_slices n_pixels z i seg_z projection box_extension
      iou_threshold seg_id = Return this_seg ∧
    pixel_at this_seg j p = Some t ∧ 0 < t.

Definition segment_3d_from_slice (n_slices n_pixels : nat) (z : option Z)
    (projection : string) (box_extension iou_threshold : Q) : outcome (list mask) :=
  let z := default (Z.of_nat n_slices `div` 2) z in
  match normalize_index n_slices z with
  | None => Raise IndexError
  | Some i =>
      let seg_z := instance_segmentation z in
      let seg_ids := tail (unique seg_z) in
      for_each_object
        (segment_object n_slices n_pixels z i seg_z projection box_extension iou_threshold)
        seg_ids (zeros n_slices n_pixels)
  end.

End Caller.

(** The stub of the automatic instance segmentation: background and two
    objects, in every slice. *)
Definition stub_instances : Z → mask := λ _, [0; 1; 2].


(** ** Cached prompts ([evaluation/inference.py])

    [_load_prompts] and its closure [load_prompt_type].  A cache of prompts
    is [None], the path of a pickle file that is not loaded yet, or the
    dictionary from image names to prompts; a pickle file that can be opened
    holds such a dictionary.  The dictionaries are only read here, and are
    given by their lookup.  The files the call opens are logged. *)

Definition dict (V : Type) : Type := string → option V.

Inductive cache (V : Type) :=
| NoCache
| CacheFile (path : string)
| CacheDict (d : dict V).

Arguments NoCache {V}.
Arguments CacheFile {V} path.
Arguments CacheDict {V} d.

Inductive load_exn := KeyError | FileNotFoundError.

Inductive loaded (A : Type) :=
| Loaded (a : A)
| Failed (e : load_exn).

Arguments Loaded {A} a.
Arguments Failed {A} e.

(** A prompt array, or the empty list [[]] in its place. *)
Inductive prompt (A : Type) :=
| NoPrompt
| Prompt (a : A).

Arguments NoPrompt {A}.
Arguments Prompt {A} a.

Section LoadPrompts.

Context {P L B : Type}.

(** The content of the pickle files with point prompts and with box
    prompts; [None] for a path that cannot be opened. *)
Variable point_files : string → option (dict (P * L)).
Variable box_files : string → option (dict B).

Variable image_name : string.

Definition load_prompt_type {V} (files : string → option (dict V))
    (cached_prompts : cache V) (save_prompts : bool) (opened : list string)
    : loaded (cache V * option V) * list string :=
  match cached_prompts, save_prompts with
  | NoCache, _ | _, true => (Loaded (cached_prompts, None), opened)
  | CacheFile path, false =>
      match files path with
      | None => (Failed FileNotFoundError, opened ++ [path])
      | Some d =>
          match d image_name with
          | Some prompts => (Loaded (CacheDict d, Some prompts), opened ++ [path])
          | None => (Failed KeyError, opened ++ [path])
          end
      end
  | CacheDict d, false =>
      match d image_name with
      | Some prompts => (Loaded (cached_prompts, Some prompts), opened)
      | None => (Failed KeyError, opened)
      end
  end.

Definition _load_prompts (cached_point_prompts : cache (P * L)) (save_point_prompts : bool)
    (cached_box_prompts : cache B) (save_box_prompts : bool) (opened : list string)
    : loaded (option (prompt P * prompt L * prompt B) * cache (P * L) * cache B)
      * list string :=
  match load_prompt_type point_files cached_point_prompts save_point_prompts opened with
  | (Failed e, opened) => (Failed e, opened)
  | (Loaded (cached_point_prompts, point_prompts), opened) =>
      match load_prompt_type box_files cached_box_prompts save_box_prompts opened with
      | (Failed e, opened) => (Failed e, opened)
      | (Loaded (cached_box_prompts, box_prompts), opened) =>
          match point_prompts, box_prompts with
          | None, None => (Loaded (None, cached_point_prompts, cached_box_prompts), opened)
          | _, _ =>
              let '(input_point, input_label) :=
                match point_prompts with
                | None => (NoPrompt, NoPrompt)
                | Some (input_point, input_label) => (Prompt input_point, Prompt input_label)
                end in
              let input_box :=
                match box_prompts with
                | None => NoPrompt
                | Some input_box => Prompt input_box
                end in
              (Loaded (Some (input_point, input_label, input_box),
                       cached_point_prompts, cached_box_prompts), opened)
          end
      end
  end.

End LoadPrompts.

(** Pickle files for concrete runs: prompts for the image "a.tif". *)
Definition stub_point_dict : dict (Z * Z) :=
  λ name, if String.eqb name "a.tif" then Some (1, 2) else None.

Definition stub_box_dict : dict Z :=
  λ name, if String.eqb name "a.tif" then Some 3 else None.

Definition stub_point_files : string → option (dict (Z * Z)) :=
  λ path, if String.eqb path "points-p1-n0.pkl" then Some stub_point_dict else None.

Definition stub_box_files : string → option (dict Z) :=
  λ path, if String.eqb path "boxes.pkl" then Some stub_box_dict else None.
(** * Proofs *)

(** ** Indexing and replay *)

Lemma normalize_index_inrange (n : nat) (z : Z) :
  0 ≤ z < Z.of_nat n → normalize_index n z = Some (Z.to_nat z).
Proof. intros H. unfold normalize_index. by rewrite bool_decide_eq_true_2. Qed.

Lemma normalize_index_None (n : nat) (z : Z) :
  Z.of_nat n ≤ z → normalize_index n z = None.
Proof.
  intros H. unfold normalize_index. rewrite !bool_decide_eq_false_2; [done | lia | lia].
Qed.

Lemma slice_at_inrange (vol : list mask) (z : Z) :
  0 ≤ z < Z.of_nat (length vol) → slice_at vol z = vol !! Z.to_nat z.
Proof. intros H. unfold slice_at. by rewrite normalize_index_inrange. Qed.

Lemma slice_at_is_Some (vol : list mask) (z : Z) :
  0 ≤ z < Z.of_nat (length vol) → is_Some (slice_at vol z).
Proof.
  intros H. rewrite slice_at_inrange by done. apply lookup_lt_is_Some. lia.
Qed.

Lemma slice_at_None (vol : list mask) (z : Z) :
  Z.of_nat (length vol) ≤ z → slice_at vol z = None.
Proof. intros H. unfold slice_at. by rewrite normalize_index_None. Qed.

Lemma length_replay (tr : list event) (vol : list mask) :
  length (replay tr vol) = length vol.
Proof.
  revert vol. induction tr as [|[] tr IH]; intros vol; simpl; [done | done |].
  destruct (normalize_index _ _); rewrite IH; [apply length_insert | done].
Qed.

Lemma replay_app (tr1 tr2 : list event) (vol : list mask) :
  replay (tr1 ++ tr2) vol = replay tr2 (replay tr1 vol).
Proof.
  revert vol. induction tr1 as [|[] tr1 IH]; intros vol; simpl; [done | done |].
  by destruct (normalize_index _ _).
Qed.

(** A slice that no assignment of the trace addresses keeps its content. *)
Lemma replay_frame (tr : list event) (vol : list mask) (z : Z) :
  0 ≤ z < Z.of_nat (length vol) →
  Forall (λ s, 0 ≤ s) (stores tr) →
  z ∉ stores tr →
  slice_at (replay tr vol) z = slice_at vol z.
Proof.
  revert vol. induction tr as [|[p i um ub up be|s m] tr IH]; intros vol Hz Hs Hn; simpl in *.
  - done.
  - by apply IH.
  - apply Forall_cons in Hs as [Hs0 Hs]. apply not_elem_of_cons in Hn as [Hne Hn].
    destruct (normalize_index (length vol) s) as [i|] eqn:Hi; [|by apply IH].
    rewrite IH; [| by rewrite length_insert | done | done].
    rewrite !slice_at_inrange by (by rewrite ?length_insert).
    apply list_lookup_insert_ne.
    unfold normalize_index in Hi. repeat case_bool_decide; simplify_eq; lia.
Qed.

Lemma stores_app (tr1 tr2 : list event) : stores (tr1 ++ tr2) = stores tr1 ++ stores tr2.
Proof. apply omap_app. Qed.

Lemma calls_app (tr1 tr2 : list event) : calls (tr1 ++ tr2) = calls tr1 ++ calls tr2.
Proof. apply omap_app. Qed.

(** ** What every computation does to the state *)

Lemma advances_pure (P : event → Prop) {A} (m : M A) :
  (∀ st, trace (m st).2 = trace st ∧ segmentation (m st).2 = segmentation st ∧
         (m st).1 ≠ Raise AssertionError) →
  advances P m.
Proof.
  intros H st. exists []. destruct (H st) as (-> & -> & ?). by rewrite app_nil_r.
Qed.

Lemma advances_bind (P : event → Prop) {A B} (m : M A) (f : A → M B) :
  advances P m → (∀ a, advances P (f a)) → advances P (m ≫= f).
Proof.
  intros Hm Hf st. destruct (Hm st) as (new1 & Ht1 & Hs1 & HP1 & Hne1).
  unfold mbind, M_bind. destruct (m st) as [[a|e|] st1]; simpl in *.
  - destruct (Hf a st1) as (new2 & Ht2 & Hs2 & HP2 & Hne2).
    exists (new1 ++ new2). rewrite Ht2, Hs2, Ht1, Hs1, replay_app, <-(assoc_L (++)).
    split_and!; [done | done | by apply Forall_app | done].
  - exists new1. split_and!; [done | done | done | congruence].
  - by exists new1.
Qed.

Lemma bind_assoc {A B C} (m : M A) (f : A → M B) (g : B → M C) (st : state) :
  ((m ≫= f) ≫= g) st = (m ≫= λ a, f a ≫= g) st.
Proof. unfold mbind, M_bind. by destruct (m st) as [[a|e|] st1]. Qed.

Lemma bind_run {A B} (m : M A) (f : A → M B) (st st' : state) (a : A) :
  m st = (Return a, st') → (m ≫= f) st = f a st'.
Proof. intros H. unfold mbind, M_bind. by rewrite H. Qed.

Lemma advances_ret (P : event → Prop) {A} (a : A) : advances P (mret a : M A).
Proof. by apply advances_pure. Qed.

Lemma advances_raise (P : event → Prop) {A} (e : exn) :
  e ≠ AssertionError → advances P (raise e : M A).
Proof. intros He. apply advances_pure. intros st. split_and!; [done | done |]. simpl. congruence. Qed.

Lemma advances_getitem (P : event → Prop) (z : Z) : advances P (getitem z).
Proof. apply advances_pure. intros st. unfold getitem. by destruct (slice_at _ _). Qed.

Lemma advances_setitem (P : event → Prop) (z : Z) (m : mask) :
  P (Store z m) → advances P (setitem z m).
Proof.
  intros HP st. unfold setitem.
  destruct (normalize_index _ _) as [i|] eqn:Hi; simpl.
  - exists [Store z m]. simpl. rewrite Hi.
    split_and!; [done | done | by apply Forall_singleton | done].
  - exists []. by rewrite app_nil_r.
Qed.

Lemma advances_update_progress (P : event → Prop) : advances P _update_progress.
Proof. by apply advances_pure. Qed.

Lemma advances_shape0 (P : event → Prop) : advances P shape0.
Proof. by apply advances_pure. Qed.

Lemma advances_the_volume (P : event → Prop) : advances P the_volume.
Proof. by apply advances_pure. Qed.

Create HintDb advances discriminated.

#[local] Hint Resolve advances_ret advances_getitem advances_update_progress
  advances_shape0 advances_the_volume : advances.

(** Takes a goal [advances P m] apart along the binds and conditionals of
    [m] and closes the leaves with the hints. *)
Ltac advance :=
  repeat match goal with
    | |- advances _ (_ ≫= _) => apply advances_bind; [| intros ?]
    | |- advances _ (if ?b then _ else _) => destruct b
    | |- advances _ (setitem _ _) => apply advances_setitem; exact I
    | |- advances _ _ => solve [auto with advances]
    end.

Lemma advances_length (P : event → Prop) {A} (m : M A) (st : state) :
  advances P m → length (segmentation (m st).2) = length (segmentation st).
Proof. intros H. destruct (H st) as (new & _ & -> & _). apply length_replay. Qed.

Lemma new_events_app (st st' : state) (new : list event) :
  trace st' = trace st ++ new → new_events st st' = new.
Proof. intros H. unfold new_events. rewrite H. apply drop_app_length. Qed.

Lemma advances_new_events (P : event → Prop) {A} (m : M A) (st : state) :
  advances P m →
  trace (m st).2 = trace st ++ new_events st (m st).2 ∧
  segmentation (m st).2 = replay (new_events st (m st).2) (segmentation st) ∧
  Forall P (new_events st (m st).2).
Proof.
  intros H. destruct (H st) as (new & Htr & Hseg & HP & _).
  by rewrite (new_events_app _ _ _ Htr).
Qed.

(** The smallest and the largest of a non-empty list of slices. *)
Lemma foldr_min_le (s : Z) (rest : list Z) :
  Forall (λ z, foldr Z.min s rest ≤ z) (s :: rest).
Proof.
  apply Forall_forall. intros z Hz. revert Hz.
  induction rest as [|r rest IH]; simpl.
  - intros ->%list_elem_of_singleton. lia.
  - rewrite !elem_of_cons. rewrite elem_of_cons in IH. intros [-> | [-> | Hz]].
    + pose proof (IH (or_introl eq_refl)). lia.
    + lia.
    + pose proof (IH (or_intror Hz)). lia.
Qed.

Lemma foldr_max_ge (s : Z) (rest : list Z) :
  Forall (λ z, z ≤ foldr Z.max s rest) (s :: rest).
Proof.
  apply Forall_forall. intros z Hz. revert Hz.
  induction rest as [|r rest IH]; simpl.
  - intros ->%list_elem_of_singleton. lia.
  - rewrite !elem_of_cons. rewrite elem_of_cons in IH. intros [-> | [-> | Hz]].
    + pose proof (IH (or_introl eq_refl)). lia.
    + lia.
    + pose proof (IH (or_intror Hz)). lia.
Qed.

Lemma foldr_min_elem (s : Z) (rest : list Z) : foldr Z.min s rest ∈ s :: rest.
Proof.
  induction rest as [|r rest IH]; simpl; [by left |].
  destruct (Z.min_spec r (foldr Z.min s rest)) as [[_ ->] | [_ ->]].
  - right. by left.
  - apply elem_of_cons in IH as [-> | IH]; [by left | by do 2 right].
Qed.

Lemma foldr_max_elem (s : Z) (rest : list Z) : foldr Z.max s rest ∈ s :: rest.
Proof.
  induction rest as [|r rest IH]; simpl; [by left |].
  destruct (Z.max_spec r (foldr Z.max s rest)) as [[_ ->] | [_ ->]].
  - apply elem_of_cons in IH as [-> | IH]; [by left | by do 2 right].
  - right. by left.
Qed.

Lemma Qlt_bool_true (x y : Q) : Qlt_bool x y = true ↔ (x < y)%Q.
Proof. unfold Qlt_bool, Qlt. apply Z.ltb_lt. Qed.

Lemma Qlt_bool_false (x y : Q) : Qlt_bool x y = false ↔ (y <= x)%Q.
Proof. unfold Qlt_bool, Qle. apply Z.ltb_ge. Qed.


(** The midpoint [(a + b) // 2] of a gap of more than two slices. *)
Lemma midpoint_bounds (a b : Z) :
  a + 2 < b →
  let m := (a + b) `div` 2 in
  a + 1 ≤ m ∧ m + 1 < b ∧
  ((b - a) `mod` 2 = 0 → 2 * m = a + b) ∧
  ((b - a) `mod` 2 ≠ 0 → 2 * m + 1 = a + b).
Proof.
  intros Hab m. subst m.
  pose proof (Z.div_mod (a + b) 2). pose proof (Z.mod_pos_bound (a + b) 2).
  pose proof (Z.div_mod (b - a) 2). pose proof (Z.mod_pos_bound (b - a) 2).
  lia.
Qed.

Lemma seqZ_singleton (m : Z) : seqZ m 1 = [m].
Proof. rewrite seqZ_cons by lia. by rewrite seqZ_nil by lia. Qed.

Lemma seqZ_Permutation_eq (a b c d : Z) : a = c → b = d → seqZ a b ≡ₚ seqZ c d.
Proof. by intros -> ->. Qed.

(** ** Computations that do not run out of fuel *)

Lemma terminates_bind {A B} (m : M A) (f : A → M B) :
  terminates m → (∀ a, terminates (f a)) → terminates (m ≫= f).
Proof.
  intros Hm Hf st. specialize (Hm st). unfold mbind, M_bind.
  destruct (m st) as [[a|e|] st1]; [apply Hf | done | done].
Qed.

Lemma terminates_assert (b : bool) : terminates (assert b).
Proof. intros st. by destruct b. Qed.

Lemma terminates_getitem (z : Z) : terminates (getitem z).
Proof. intros st. unfold getitem. by destruct (slice_at _ _). Qed.

Lemma terminates_setitem (z : Z) (m : mask) : terminates (setitem z m).
Proof. intros st. unfold setitem. by destruct (normalize_index _ _). Qed.

Lemma elem_of_walk_indices (n : nat) (increment z x : Z) :
  x ∈ walk_indices n increment z ↔ ∃ k, 0 ≤ k < Z.of_nat n ∧ x = z + increment * k.
Proof.
  revert z. induction n as [|n IH]; intros z; simpl.
  - rewrite elem_of_nil. split; [done | intros (k & ? & _); lia].
  - rewrite elem_of_cons, IH. split.
    + intros [-> | (k & Hk & ->)]; [exists 0 | exists (k + 1)]; split; lia.
    + intros (k & Hk & ->). destruct (decide (k = 0)) as [-> | Hne]; [left; lia |].
      right. exists (k - 1). split; lia.
Qed.

Lemma NoDup_walk_indices (n : nat) (increment z : Z) :
  increment ≠ 0 → NoDup (walk_indices n increment z).
Proof.
  intros Hinc. revert z. induction n as [|n IH]; intros z; simpl; constructor; [|done].
  rewrite elem_of_walk_indices. intros (k & Hk & Heq). nia.
Qed.

Lemma walk_indices_up (n : nat) (z : Z) : walk_indices n 1 z = seqZ z (Z.of_nat n).
Proof.
  revert z. induction n as [|n IH]; intros z; simpl; [done |].
  rewrite (seqZ_cons z) by lia. rewrite IH. do 2 f_equal; lia.
Qed.

Lemma walk_indices_down (n : nat) (z : Z) :
  walk_indices n (-1) z = reverse (seqZ (z - Z.of_nat n + 1) (Z.of_nat n)).
Proof.
  revert z. induction n as [|n IH]; intros z; [done |].
  rewrite seqZ_S, reverse_snoc. simpl. rewrite IH. do 3 f_equal; lia.
Qed.

Section PropagationFacts.

Variable segment_from_mask : ndarray → Z → bool → bool → bool → Q → mask.
Variable compute_iou : mask → mask → Q.

Section ClosureFacts.

Variables (use_box use_mask use_points : bool) (box_extension : Q).

Local Abbreviation segment := (segment segment_from_mask use_box use_mask use_points box_extension).
Local Abbreviation gate_rejects := (gate_rejects compute_iou).
Local Abbreviation segment_range_loop :=
  (segment_range_loop segment_from_mask compute_iou use_box use_mask use_points box_extension).
Local Abbreviation segment_range :=
  (segment_range segment_from_mask compute_iou use_box use_mask use_points box_extension).
Local Abbreviation segment_from_union :=
  (segment_from_union segment_from_mask use_box use_mask use_points box_extension).
Local Abbreviation bisect_from_bottom :=
  (bisect_from_bottom segment_from_mask compute_iou use_box use_mask use_points box_extension).
Local Abbreviation bisect_from_top :=
  (bisect_from_top segment_from_mask compute_iou use_box use_mask use_points box_extension).
Local Abbreviation fill_gap :=
  (fill_gap segment_from_mask compute_iou use_box use_mask use_points box_extension).
Local Abbreviation segment_below :=
  (segment_below segment_from_mask compute_iou use_box use_mask use_points box_extension).
Local Abbreviation segment_above :=
  (segment_above segment_from_mask compute_iou use_box use_mask use_points box_extension).
Local Abbreviation segment_between :=
  (segment_between segment_from_mask compute_iou use_box use_mask use_points box_extension).
Local Abbreviation propagate :=
  (propagate segment_from_mask compute_iou use_box use_mask use_points box_extension).
Local Abbreviation walk_trace :=
  (walk_trace segment_from_mask compute_iou use_box use_mask use_points box_extension).
Local Abbreviation union_trace :=
  (union_trace segment_from_mask use_box use_mask use_points box_extension).
Local Abbreviation uses_flags := (uses_flags use_box use_mask use_points box_extension).
Local Abbreviation called := (called use_box use_mask use_points box_extension).

(** *** The invariant, from the primitives up to [propagate] *)

Lemma advances_segment (prompt : ndarray) (i : Z) : advances uses_flags (segment prompt i).
Proof.
  intros st. eexists [_]. simpl. split_and!; [done | done | | done].
  by apply Forall_singleton.
Qed.

#[local] Hint Resolve advances_segment : advances.

Lemma advances_segment_range_loop fuel z_stop increment stopping_criterion threshold z :
  advances uses_flags
    (segment_range_loop fuel z_stop increment stopping_criterion threshold z).
Proof.
  revert z. induction fuel as [|fuel IH]; intros z; simpl; [by apply advances_pure |].
  advance.
Qed.

Lemma advances_segment_range z_start z_stop increment stopping_criterion threshold :
  advances uses_flags
    (segment_range z_start z_stop increment stopping_criterion threshold).
Proof. intros st. apply advances_segment_range_loop. Qed.

#[local] Hint Resolve advances_segment_range : advances.

Lemma advances_segment_from_union z_lo z_hi z :
  advances uses_flags (segment_from_union z_lo z_hi z).
Proof. unfold segment_from_union. advance. Qed.

#[local] Hint Resolve advances_segment_from_union : advances.

Lemma advances_fill_gap z0 z1 stop_lower stop_upper z_start z_stop :
  advances uses_flags (fill_gap z0 z1 stop_lower stop_upper z_start z_stop).
Proof. unfold fill_gap, bisect_from_bottom, bisect_from_top. advance. Qed.

#[local] Hint Resolve advances_fill_gap : advances.

Lemma advances_for_each_gap (body : Z → Z → M unit) (gaps : list (Z * Z)) :
  (∀ z_start z_stop, advances uses_flags (body z_start z_stop)) →
  advances uses_flags (for_each_gap body gaps).
Proof.
  intros Hbody. induction gaps as [|[z_start z_stop] gaps IH]; simpl; advance.
Qed.

Lemma advances_segment_below z0 stop_lower iou_threshold :
  advances uses_flags (segment_below z0 stop_lower iou_threshold).
Proof. unfold segment_below. advance. Qed.

Lemma advances_segment_above z1 stop_upper iou_threshold :
  advances uses_flags (segment_above z1 stop_upper iou_threshold).
Proof. unfold segment_above. advance. Qed.

Lemma advances_segment_between segmented_slices z0 z1 stop_lower stop_upper :
  advances uses_flags (segment_between segmented_slices z0 z1 stop_lower stop_upper).
Proof.
  unfold segment_between. destruct (negb _); [| advance].
  apply advances_for_each_gap. intros. apply advances_fill_gap.
Qed.

#[local] Hint Resolve advances_segment_below advances_segment_above
  advances_segment_between : advances.

Lemma advances_propagate segmented_slices stop_lower stop_upper iou_threshold :
  advances uses_flags (propagate segmented_slices stop_lower stop_upper iou_threshold).
Proof.
  unfold propagate. destruct segmented_slices as [|s rest]; [by apply advances_raise |].
  advance.
Qed.
(** *** One iteration of the loop *)

Lemma getitem_run (z : Z) (st : state) (m : mask) :
  slice_at (segmentation st) z = Some m → getitem z st = (Return m, st).
Proof. intros H. unfold getitem. by rewrite H. Qed.

Lemma getitem_fail (z : Z) (st : state) :
  slice_at (segmentation st) z = None → getitem z st = (Raise IndexError, st).
Proof. intros H. unfold getitem. by rewrite H. Qed.

Lemma segment_range_loop_step fuel z_stop increment stopping_criterion threshold z st
    seg_prev :
  slice_at (segmentation st) (z - increment) = Some seg_prev →
  let seg_z :=
    segment_from_mask (IntArr seg_prev) z use_mask use_box use_points box_extension in
  let st1 := called (IntArr seg_prev) z st in
  segment_range_loop (S fuel) z_stop increment stopping_criterion threshold z st =
    if gate_rejects threshold seg_prev seg_z then (Return (), st1)
    else match normalize_index (length (segmentation st)) z with
         | None => (Raise IndexError, st1)
         | Some i =>
             let st2 := stored i z seg_z st1 in
             if stopping_criterion (z + increment) z_stop then (Return (), st2)
             else segment_range_loop fuel z_stop increment stopping_criterion threshold
                    (z + increment) (ticked st2)
         end.
Proof.
  intros Hprev. simpl. unfold mbind at 1, M_bind at 1.
  rewrite (getitem_run _ _ _ Hprev). unfold mbind at 1, M_bind at 1. simpl.
  destruct (gate_rejects _ _ _); [done |].
  unfold mbind at 1, M_bind at 1, setitem. simpl.
  destruct (normalize_index _ _) as [i|]; [| done].
  by destruct (stopping_criterion _ _).
Qed.

Lemma segment_range_loop_unreadable fuel z_stop increment stopping_criterion threshold z st :
  slice_at (segmentation st) (z - increment) = None →
  segment_range_loop (S fuel) z_stop increment stopping_criterion threshold z st =
    (Raise IndexError, st).
Proof.
  intros Hprev. simpl. unfold mbind at 1, M_bind at 1.
  by rewrite (getitem_fail _ _ Hprev).
Qed.

(** *** Walks that stay inside the volume *)

(** A walk of [n] slices in direction [increment], from slice [z] on, all
    inside the volume, whose stopping criterion fires first after the
    [n]-th slice: the loop returns and has appended the reference trace. *)
Lemma walk_run threshold z_stop increment stopping_criterion :
  increment = 1 ∨ increment = -1 →
  ∀ (n fuel : nat) (z : Z) (st : state) (seg_prev : mask),
    (0 < n ≤ fuel)%nat →
    0 ≤ z < Z.of_nat (length (segmentation st)) →
    0 ≤ z + increment * (Z.of_nat n - 1) < Z.of_nat (length (segmentation st)) →
    slice_at (segmentation st) (z - increment) = Some seg_prev →
    (∀ k, 1 ≤ k < Z.of_nat n → stopping_criterion (z + increment * k) z_stop = false) →
    stopping_criterion (z + increment * Z.of_nat n) z_stop = true →
    ∃ st',
      segment_range_loop fuel z_stop increment stopping_criterion threshold z st
        = (Return (), st') ∧
      trace st' = trace st ++ walk_trace threshold n increment z seg_prev.
Proof.
  intros Hinc n. induction n as [|n IH]; intros fuel z st seg_prev Hn Hz Hlast Hprev Hgo Hstop;
    [lia |].
  destruct fuel as [|fuel]; [lia |].
  rewrite (segment_range_loop_step _ _ _ _ _ _ _ _ Hprev). simpl.
  destruct (gate_rejects _ _ _); [by eexists |].
  rewrite normalize_index_inrange by done. simpl.
  destruct (decide (n = 0%nat)) as [-> | Hpos].
  - replace (z + increment * Z.of_nat 1) with (z + increment) in Hstop by lia.
    rewrite Hstop. eexists. split; [done |]. simpl. by rewrite <-(assoc_L (++)).
  - assert (stopping_criterion (z + increment) z_stop = false) as ->.
    { rewrite <-(Hgo 1) by lia. f_equal. lia. }
    edestruct (IH fuel (z + increment)) as (st' & Hrun & Htr); last first.
    { exists st'. split; [exact Hrun |]. rewrite Htr. simpl.
      by rewrite <-!(assoc_L (++)). }
    + rewrite <-Hstop. f_equal. lia.
    + intros k Hk. rewrite <-(Hgo (k + 1)) by lia. f_equal. lia.
    + simpl. replace (z + increment - increment) with z by lia.
      rewrite slice_at_inrange by (rewrite length_insert; lia).
      apply list_lookup_insert_eq. lia.
    + simpl. rewrite length_insert. destruct Hinc as [-> | ->]; lia.
    + simpl. rewrite length_insert. destruct Hinc as [-> | ->]; lia.
    + lia.
Qed.

(** *** The assignments and calls of a reference trace *)

Lemma stores_walk_trace_prefix threshold n increment z seg_prev :
  stores (walk_trace threshold n increment z seg_prev) `prefix_of`
  walk_indices n increment z.
Proof.
  revert z seg_prev. induction n as [|n IH]; intros z seg_prev; simpl; [done |].
  destruct (gate_rejects _ _ _); simpl; [apply prefix_nil |].
  apply prefix_cons, IH.
Qed.

Lemma stores_walk_trace n increment z seg_prev :
  stores (walk_trace None n increment z seg_prev) = walk_indices n increment z.
Proof.
  revert z seg_prev. induction n as [|n IH]; intros z seg_prev; simpl; [done |].
  by rewrite IH.
Qed.

Lemma calls_walk_trace n increment z seg_prev :
  calls (walk_trace None n increment z seg_prev) = walk_indices n increment z.
Proof.
  revert z seg_prev. induction n as [|n IH]; intros z seg_prev; simpl; [done |].
  by rewrite IH.
Qed.

(** *** [segment_range] on walks that stay inside the volume *)

(** [segment_range] from [z_start] over the [n] slices that follow it in
    direction [increment], all inside the volume, when the stopping
    criterion fires first for the slice after them. *)
Lemma segment_range_walk threshold z_start z_stop increment stopping_criterion
    (n : nat) (st : state) (seg_prev : mask) :
  increment = 1 ∨ increment = -1 →
  (0 < n)%nat →
  slice_at (segmentation st) z_start = Some seg_prev →
  0 ≤ z_start + increment < Z.of_nat (length (segmentation st)) →
  0 ≤ z_start + increment * Z.of_nat n < Z.of_nat (length (segmentation st)) →
  (∀ k, 2 ≤ k ≤ Z.of_nat n → stopping_criterion (z_start + increment * k) z_stop = false) →
  stopping_criterion (z_start + increment * (Z.of_nat n + 1)) z_stop = true →
  ∃ st',
    segment_range z_start z_stop increment stopping_criterion threshold st
      = (Return (), st') ∧
    trace st' = trace st ++ walk_trace threshold n increment (z_start + increment) seg_prev ∧
    length (segmentation st') = length (segmentation st).
Proof.
  intros Hinc Hn Hprev Hfirst Hlast Hgo Hstop. unfold segment_range.
  edestruct (walk_run threshold z_stop increment stopping_criterion Hinc n
               (enough_fuel st) (z_start + increment) st seg_prev)
    as (st' & Hrun & Htr).
  - unfold enough_fuel. destruct Hinc as [-> | ->]; lia.
  - done.
  - destruct Hinc as [-> | ->]; lia.
  - rewrite <-Hprev. f_equal. lia.
  - intros k Hk. rewrite <-(Hgo (k + 1)) by lia. f_equal. lia.
  - rewrite <-Hstop. f_equal. lia.
  - exists st'. split_and!; [done | done |].
    pose proof (advances_length _ _ st
      (advances_segment_range z_start z_stop increment stopping_criterion threshold)) as Hlen.
    unfold segment_range in Hlen. by rewrite Hrun in Hlen.
Qed.

(** The ungated walk down from [z_hi] that [np.less_equal] ends above [z_lo]. *)
Lemma walk_down_to z_hi z_lo st :
  0 ≤ z_lo → z_lo + 1 < z_hi < Z.of_nat (length (segmentation st)) →
  ∃ st' seg_prev,
    slice_at (segmentation st) z_hi = Some seg_prev ∧
    segment_range z_hi z_lo (-1) Z.leb None st = (Return (), st') ∧
    trace st' = trace st ++ walk_trace None (Z.to_nat (z_hi - z_lo - 1)) (-1) (z_hi - 1) seg_prev ∧
    length (segmentation st') = length (segmentation st).
Proof.
  intros Hlo Hhi.
  destruct (slice_at_is_Some (segmentation st) z_hi) as [seg_prev Hprev]; [lia |].
  edestruct (segment_range_walk None z_hi z_lo (-1) Z.leb (Z.to_nat (z_hi - z_lo - 1)))
    as (st' & Hrun & Htr & Hlen); [by right | lia | exact Hprev | lia | lia | | | ].
  - intros k Hk. apply Z.leb_gt. lia.
  - apply Z.leb_le. lia.
  - by exists st', seg_prev.
Qed.

(** The ungated walk up from [z_lo] that [np.greater_equal] ends below [z_hi]. *)
Lemma walk_up_to z_lo z_hi st :
  0 ≤ z_lo → z_lo + 1 < z_hi ≤ Z.of_nat (length (segmentation st)) →
  ∃ st' seg_prev,
    slice_at (segmentation st) z_lo = Some seg_prev ∧
    segment_range z_lo z_hi 1 Z.geb None st = (Return (), st') ∧
    trace st' = trace st ++ walk_trace None (Z.to_nat (z_hi - z_lo - 1)) 1 (z_lo + 1) seg_prev ∧
    length (segmentation st') = length (segmentation st).
Proof.
  intros Hlo Hhi.
  destruct (slice_at_is_Some (segmentation st) z_lo) as [seg_prev Hprev]; [lia |].
  edestruct (segment_range_walk None z_lo z_hi 1 Z.geb (Z.to_nat (z_hi - z_lo - 1)))
    as (st' & Hrun & Htr & Hlen); [by left | lia | exact Hprev | lia | lia | | | ].
  - intros k Hk. rewrite Z.geb_leb. apply Z.leb_gt. lia.
  - rewrite Z.geb_leb. apply Z.leb_le. lia.
  - by exists st', seg_prev.
Qed.

(** The ungated walk up from [z_lo] that [np.greater] ends on [z_hi]. *)
Lemma walk_up_through z_lo z_hi st :
  0 ≤ z_lo < z_hi → z_hi < Z.of_nat (length (segmentation st)) →
  ∃ st' seg_prev,
    slice_at (segmentation st) z_lo = Some seg_prev ∧
    segment_range z_lo z_hi 1 Z.gtb None st = (Return (), st') ∧
    trace st' = trace st ++ walk_trace None (Z.to_nat (z_hi - z_lo)) 1 (z_lo + 1) seg_prev ∧
    length (segmentation st') = length (segmentation st).
Proof.
  intros Hlo Hhi.
  destruct (slice_at_is_Some (segmentation st) z_lo) as [seg_prev Hprev]; [lia |].
  edestruct (segment_range_walk None z_lo z_hi 1 Z.gtb (Z.to_nat (z_hi - z_lo)))
    as (st' & Hrun & Htr & Hlen); [by left | lia | exact Hprev | lia | lia | | | ].
  - intros k Hk. rewrite Z.gtb_ltb. apply Z.ltb_ge. lia.
  - rewrite Z.gtb_ltb. apply Z.ltb_lt. lia.
  - by exists st', seg_prev.
Qed.

(** One slice from the union of two readable neighbours. *)
Lemma segment_from_union_run z_lo z_hi z st :
  0 ≤ z_lo < Z.of_nat (length (segmentation st)) →
  0 ≤ z_hi < Z.of_nat (length (segmentation st)) →
  0 ≤ z < Z.of_nat (length (segmentation st)) →
  ∃ st' seg_lo seg_hi,
    slice_at (segmentation st) z_lo = Some seg_lo ∧
    slice_at (segmentation st) z_hi = Some seg_hi ∧
    segment_from_union z_lo z_hi z st = (Return (), st') ∧
    trace st' = trace st ++ union_trace seg_lo seg_hi z ∧
    length (segmentation st') = length (segmentation st).
Proof.
  intros Hlo Hhi Hz.
  destruct (slice_at_is_Some (segmentation st) z_lo) as [seg_lo Hseg_lo]; [done |].
  destruct (slice_at_is_Some (segmentation st) z_hi) as [seg_hi Hseg_hi]; [done |].
  eexists _, seg_lo, seg_hi. split_and!; [done | done | | |].
  - unfold segment_from_union, mbind, M_bind.
    rewrite (getitem_run _ _ _ Hseg_lo), (getitem_run _ _ _ Hseg_hi). simpl.
    unfold setitem. simpl. rewrite normalize_index_inrange by done. simpl. done.
  - simpl. by rewrite <-(assoc_L (++)).
  - simpl. by rewrite length_insert.
Qed.

Lemma stores_union_trace seg_lo seg_hi z : stores (union_trace seg_lo seg_hi z) = [z].
Proof. done. Qed.

(** *** The two inward walks of the bisection *)

Lemma bisect_from_bottom_run z_start z_stop st :
  0 ≤ z_start → z_start + 2 < z_stop < Z.of_nat (length (segmentation st)) →
  let z_mid := (z_start + z_stop) `div` 2 in
  let z_last := if (z_stop - z_start) `mod` 2 =? 0 then z_mid - 1 else z_mid in
  ∃ st' seg_prev,
    slice_at (segmentation st) z_start = Some seg_prev ∧
    bisect_from_bottom z_start z_stop st = (Return (), st') ∧
    trace st' = trace st ++
      walk_trace None (Z.to_nat (z_last - z_start)) 1 (z_start + 1) seg_prev ∧
    length (segmentation st') = length (segmentation st).
Proof.
  intros Hlo Hhi z_mid z_last. unfold bisect_from_bottom. fold z_mid. subst z_last.
  destruct (midpoint_bounds z_start z_stop) as (Hmid1 & Hmid2 & Heven & Hodd); [lia |].
  fold z_mid in Hmid1, Hmid2, Heven, Hodd.
  destruct (_ `mod` 2 =? 0) eqn:Hpar.
  - apply Z.eqb_eq in Hpar. specialize (Heven Hpar).
    destruct (walk_up_to z_start z_mid st) as (st' & seg_prev & ? & ? & Htr & ?); [lia | lia |].
    exists st', seg_prev. split_and!; [done | done | | done].
    rewrite Htr. do 3 f_equal. lia.
  - destruct (walk_up_through z_start z_mid st) as (st' & seg_prev & ? & ? & Htr & ?);
      [lia | lia |].
    by exists st', seg_prev.
Qed.

Lemma bisect_from_top_run z_start z_stop st :
  0 ≤ z_start → z_start + 2 < z_stop < Z.of_nat (length (segmentation st)) →
  let z_mid := (z_start + z_stop) `div` 2 in
  ∃ st' seg_prev,
    slice_at (segmentation st) z_stop = Some seg_prev ∧
    bisect_from_top z_start z_stop st = (Return (), st') ∧
    trace st' = trace st ++
      walk_trace None (Z.to_nat (z_stop - z_mid - 1)) (-1) (z_stop - 1) seg_prev ∧
    length (segmentation st') = length (segmentation st).
Proof.
  intros Hlo Hhi z_mid. unfold bisect_from_top. fold z_mid.
  destruct (midpoint_bounds z_start z_stop) as (Hmid1 & Hmid2 & _); [lia |].
  fold z_mid in Hmid1, Hmid2.
  destruct (walk_down_to z_stop z_mid st) as (st' & seg_prev & ? & ? & Htr & ?); [lia | lia |].
  by exists st', seg_prev.
Qed.

(** *** One gap *)

Lemma stores_walk_up n z seg_prev :
  stores (walk_trace None n 1 z seg_prev) = seqZ z (Z.of_nat n).
Proof. by rewrite stores_walk_trace, walk_indices_up. Qed.

Lemma stores_walk_down n z seg_prev :
  stores (walk_trace None n (-1) z seg_prev)
    = reverse (seqZ (z - Z.of_nat n + 1) (Z.of_nat n)).
Proof. by rewrite stores_walk_trace, walk_indices_down. Qed.

(** Filling the gap between two slices of the volume returns, and assigns
    the slices strictly between them, each of them once. *)
Lemma fill_gap_run z0 z1 stop_lower stop_upper z_start z_stop st :
  0 ≤ z_start < z_stop → z_stop < Z.of_nat (length (segmentation st)) →
  ∃ st' new,
    fill_gap z0 z1 stop_lower stop_upper z_start z_stop st = (Return (), st') ∧
    trace st' = trace st ++ new ∧
    length (segmentation st') = length (segmentation st) ∧
    stores new ≡ₚ seqZ (z_start + 1) (z_stop - z_start - 1).
Proof.
  intros Hlo Hhi. unfold fill_gap.
  destruct (_ =? 1) eqn:Hadj.
  { apply Z.eqb_eq in Hadj. exists st, []. rewrite app_nil_r.
    by replace (z_stop - z_start - 1) with 0 by lia. }
  apply Z.eqb_neq in Hadj.
  destruct (_ && _).
  { destruct (walk_down_to z_stop z_start st) as (st' & seg_prev & _ & Hrun & Htr & Hlen);
      [lia | lia |].
    eexists st', _. split_and!; [done | done | done |].
    rewrite stores_walk_down, reverse_Permutation. apply seqZ_Permutation_eq; lia. }
  destruct (_ && _).
  { destruct (walk_up_to z_start z_stop st) as (st' & seg_prev & _ & Hrun & Htr & Hlen);
      [lia | lia |].
    eexists st', _. split_and!; [done | done | done |].
    rewrite stores_walk_up. apply seqZ_Permutation_eq; lia. }
  destruct (_ =? 2) eqn:Hone.
  { apply Z.eqb_eq in Hone.
    destruct (segment_from_union_run z_start z_stop (z_start + 1) st)
      as (st' & seg_lo & seg_hi & _ & _ & Hrun & Htr & Hlen); [lia | lia | lia |].
    eexists st', _. split_and!; [done | done | done |].
    rewrite stores_union_trace.
    replace (z_stop - z_start - 1) with 1 by lia. by rewrite seqZ_singleton. }
  apply Z.eqb_neq in Hone.
  set (z_mid := (z_start + z_stop) `div` 2).
  destruct (midpoint_bounds z_start z_stop) as (Hmid1 & Hmid2 & Heven & Hodd); [lia |].
  fold z_mid in Hmid1, Hmid2, Heven, Hodd.
  destruct (bisect_from_bottom_run z_start z_stop st)
    as (st1 & seg_lo & _ & Hrun1 & Htr1 & Hlen1); [lia | lia |].
  destruct (bisect_from_top_run z_start z_stop st1)
    as (st2 & seg_hi & _ & Hrun2 & Htr2 & Hlen2); [lia | lia |].
  fold z_mid in Htr1, Htr2.
  unfold mbind, M_bind. rewrite Hrun1, Hrun2.
  destruct (_ `mod` 2 =? 0) eqn:Hpar.
  - apply Z.eqb_eq in Hpar. specialize (Heven Hpar).
    destruct (segment_from_union_run (z_mid - 1) (z_mid + 1) z_mid st2)
      as (st3 & seg_a & seg_b & _ & _ & Hrun3 & Htr3 & Hlen3); [lia | lia | lia |].
    eexists st3, _. split_and!; [done | | congruence |].
    + by rewrite Htr3, Htr2, Htr1, <-!(assoc_L (++)).
    + rewrite !stores_app, stores_walk_up, stores_walk_down, stores_union_trace.
      rewrite reverse_Permutation.
      rewrite (Permutation_app_comm (seqZ _ _) [z_mid]).
      replace (z_stop - z_start - 1)
        with ((z_mid - z_start - 1) + (1 + (z_stop - z_mid - 1))) by lia.
      rewrite seqZ_app by lia. rewrite (seqZ_app _ 1) by lia.
      rewrite seqZ_singleton.
      apply Permutation_app; [apply seqZ_Permutation_eq; lia |].
      apply Permutation_app; [| apply seqZ_Permutation_eq; lia].
      apply reflexive_eq. f_equal. lia.
  - apply Z.eqb_neq in Hpar. specialize (Hodd Hpar).
    eexists st2, _. split_and!; [done | | congruence |].
    + by rewrite Htr2, Htr1, <-!(assoc_L (++)).
    + rewrite !stores_app, stores_walk_up, stores_walk_down, reverse_Permutation.
      replace (z_stop - z_start - 1)
        with ((z_mid - z_start) + (z_stop - z_mid - 1)) by lia.
      rewrite seqZ_app by lia.
      apply Permutation_app; apply seqZ_Permutation_eq; lia.
Qed.

(** *** The gated walks below and above the segmented slices *)


Lemma stores_walk_trace_elem threshold n increment z seg_prev x :
  x ∈ stores (walk_trace threshold n increment z seg_prev) →
  ∃ k, 0 ≤ k < Z.of_nat n ∧ x = z + increment * k.
Proof.
  intros Hx. apply elem_of_walk_indices.
  destruct (stores_walk_trace_prefix threshold n increment z seg_prev) as [l ->].
  apply elem_of_app. by left.
Qed.

Lemma NoDup_stores_walk_trace threshold n increment z seg_prev :
  increment ≠ 0 → NoDup (stores (walk_trace threshold n increment z seg_prev)).
Proof.
  intros Hinc. pose proof (NoDup_walk_indices n increment z Hinc) as Hnd.
  destruct (stores_walk_trace_prefix threshold n increment z seg_prev) as [l Hl].
  rewrite Hl in Hnd. by apply NoDup_app in Hnd as [? _].
Qed.

(** The walk below a slice [z0] of the volume. *)
Lemma segment_below_run z0 stop_lower iou_threshold st seg0 :
  slice_at (segmentation st) z0 = Some seg0 →
  0 ≤ z0 < Z.of_nat (length (segmentation st)) →
  ∃ st',
    segment_below z0 stop_lower iou_threshold st = (Return (), st') ∧
    length (segmentation st') = length (segmentation st) ∧
    trace st' = trace st ++
      (if (0 <? z0) && negb stop_lower
       then walk_trace (Some iou_threshold) (Z.to_nat z0) (-1) (z0 - 1) seg0
       else []).
Proof.
  intros Hseg0 Hz0. unfold segment_below.
  destruct (_ && _) eqn:Hcond.
  - apply andb_true_iff in Hcond as [Hpos%Z.ltb_lt _].
    edestruct (segment_range_walk (Some iou_threshold) z0 0 (-1) Z.ltb (Z.to_nat z0))
      as (st' & Hrun & Htr & Hlen); [by right | lia | exact Hseg0 | lia | lia | | | ].
    + intros k Hk. apply Z.ltb_ge. lia.
    + apply Z.ltb_lt. lia.
    + exists st'. split_and!; [done | done |]. rewrite Htr. do 2 f_equal.
  - exists st. by rewrite app_nil_r.
Qed.

(** The walk above a slice [z1] of the volume. *)
Lemma segment_above_run z1 stop_upper iou_threshold st seg1 :
  slice_at (segmentation st) z1 = Some seg1 →
  0 ≤ z1 < Z.of_nat (length (segmentation st)) →
  ∃ st',
    segment_above z1 stop_upper iou_threshold st = (Return (), st') ∧
    length (segmentation st') = length (segmentation st) ∧
    trace st' = trace st ++
      (if (z1 <? Z.of_nat (length (segmentation st)) - 1) && negb stop_upper
       then walk_trace (Some iou_threshold)
              (Z.to_nat (Z.of_nat (length (segmentation st)) - 1 - z1)) 1 (z1 + 1) seg1
       else []).
Proof.
  intros Hseg1 Hz1. unfold segment_above, mbind, M_bind, shape0.
  destruct (_ && _) eqn:Hcond.
  - apply andb_true_iff in Hcond as [Hpos%Z.ltb_lt _].
    edestruct (segment_range_walk (Some iou_threshold) z1
                 (Z.of_nat (length (segmentation st)) - 1) 1 Z.gtb
                 (Z.to_nat (Z.of_nat (length (segmentation st)) - 1 - z1)))
      as (st' & Hrun & Htr & Hlen); [by left | lia | exact Hseg1 | lia | lia | | | ].
    + intros k Hk. rewrite Z.gtb_ltb. apply Z.ltb_ge. lia.
    + rewrite Z.gtb_ltb. apply Z.ltb_lt. lia.
    + by exists st'.
  - exists st. by rewrite app_nil_r.
Qed.

(** Whatever [z0] is, the walk below it assigns only slices of the
    volume that lie below [z0], none of them twice. *)
Lemma segment_below_stores z0 stop_lower iou_threshold st :
  ∃ new,
    trace (segment_below z0 stop_lower iou_threshold st).2 = trace st ++ new ∧
    Forall (λ z, 0 ≤ z < z0 ∧ z < Z.of_nat (length (segmentation st))) (stores new) ∧
    NoDup (stores new) ∧
    (stop_lower = true → new = []).
Proof.
  destruct (decide (0 ≤ z0 < Z.of_nat (length (segmentation st)))) as [Hz0 | Hz0].
  - destruct (slice_at_is_Some _ _ Hz0) as [seg0 Hseg0].
    destruct (segment_below_run z0 stop_lower iou_threshold st seg0 Hseg0 Hz0)
      as (st' & -> & _ & Htr).
    eexists. split; [exact Htr |].
    destruct (_ && _) eqn:Hcond; [| by split_and!; try constructor].
    apply andb_true_iff in Hcond as [_ Hsl%negb_true_iff]. split_and!.
    + apply Forall_forall. intros x (k & Hk & ->)%stores_walk_trace_elem. lia.
    + by apply NoDup_stores_walk_trace.
    + congruence.
  - exists []. rewrite app_nil_r. split_and!; [| constructor | constructor | done].
    unfold segment_below. destruct (_ && _) eqn:Hcond; [| done].
    apply andb_true_iff in Hcond as [Hpos%Z.ltb_lt _].
    unfold segment_range, enough_fuel.
    rewrite segment_range_loop_unreadable; [done |].
    apply slice_at_None. lia.
Qed.

(** The walk above a non-negative [z1] assigns only slices of the volume
    that lie above [z1], none of them twice. *)
Lemma segment_above_stores z1 stop_upper iou_threshold st :
  0 ≤ z1 →
  ∃ new,
    trace (segment_above z1 stop_upper iou_threshold st).2 = trace st ++ new ∧
    Forall (λ z, z1 < z < Z.of_nat (length (segmentation st))) (stores new) ∧
    NoDup (stores new).
Proof.
  intros Hnn.
  destruct (decide (z1 < Z.of_nat (length (segmentation st)))) as [Hz1 | Hz1].
  - destruct (slice_at_is_Some (segmentation st) z1) as [seg1 Hseg1]; [lia |].
    destruct (segment_above_run z1 stop_upper iou_threshold st seg1 Hseg1)
      as (st' & -> & _ & Htr); [lia |].
    eexists. split; [exact Htr |].
    destruct (_ && _) eqn:Hcond; [| by split; constructor].
    apply andb_true_iff in Hcond as [Hlt%Z.ltb_lt _]. split.
    + apply Forall_forall. intros x (k & Hk & ->)%stores_walk_trace_elem. lia.
    + by apply NoDup_stores_walk_trace.
  - exists []. rewrite app_nil_r. split_and!; [| constructor | constructor].
    unfold segment_above, mbind, M_bind, shape0.
    destruct (_ && _) eqn:Hcond; [| done].
    apply andb_true_iff in Hcond as [Hlt%Z.ltb_lt _]. lia.
Qed.


(** *** Fuel *)

(** A walk with a step of one slice ends before its fuel does: it leaves
    the volume, where indexing raises, after at most [2 * N] slices. *)
Lemma segment_range_loop_terminates z_stop increment stopping_criterion threshold :
  increment = 1 ∨ increment = -1 →
  ∀ (fuel : nat) (z : Z) (st : state),
    (0 < fuel)%nat →
    Z.of_nat (length (segmentation st)) - increment * z + 1 < Z.of_nat fuel ∨
      ¬ (- Z.of_nat (length (segmentation st)) ≤ z < Z.of_nat (length (segmentation st))) →
    (segment_range_loop fuel z_stop increment stopping_criterion threshold z st).1
      ≠ OutOfFuel.
Proof.
  intros Hinc fuel. induction fuel as [|fuel IH]; intros z st Hpos Hfuel; [lia |].
  destruct (slice_at (segmentation st) (z - increment)) as [seg_prev|] eqn:Hprev.
  - rewrite (segment_range_loop_step _ _ _ _ _ _ _ _ Hprev). simpl.
    destruct (gate_rejects _ _ _); [done |].
    destruct (normalize_index _ _) as [i|] eqn:Hi; [| done]. simpl.
    destruct (stopping_criterion _ _); [done |].
    assert (- Z.of_nat (length (segmentation st)) ≤ z < Z.of_nat (length (segmentation st)))
      as Hz.
    { unfold normalize_index in Hi. repeat case_bool_decide; simplify_eq; lia. }
    apply IH; simpl; rewrite ?length_insert.
    + destruct Hinc as [-> | ->]; lia.
    + left. destruct Hinc as [-> | ->]; lia.
  - by rewrite segment_range_loop_unreadable.
Qed.

Lemma terminates_segment_range z_start z_stop increment stopping_criterion threshold :
  increment = 1 ∨ increment = -1 →
  terminates (segment_range z_start z_stop increment stopping_criterion threshold).
Proof.
  intros Hinc st. unfold segment_range. apply segment_range_loop_terminates; [done | |].
  - unfold enough_fuel. lia.
  - destruct (decide (- Z.of_nat (length (segmentation st)) ≤ z_start + increment
                      < Z.of_nat (length (segmentation st)))); [left | by right].
    unfold enough_fuel. destruct Hinc as [-> | ->]; lia.
Qed.

Lemma terminates_segment_from_union z_lo z_hi z : terminates (segment_from_union z_lo z_hi z).
Proof.
  apply terminates_bind; [apply terminates_getitem | intros seg_lo].
  apply terminates_bind; [apply terminates_getitem | intros seg_hi].
  apply terminates_bind; [done | intros seg_z].
  apply terminates_bind; [apply terminates_setitem | done].
Qed.

Lemma terminates_fill_gap z0 z1 stop_lower stop_upper z_start z_stop :
  terminates (fill_gap z0 z1 stop_lower stop_upper z_start z_stop).
Proof.
  unfold fill_gap.
  destruct (_ =? 1); [done |].
  destruct (_ && _); [apply terminates_segment_range; by right |].
  destruct (_ && _); [apply terminates_segment_range; by left |].
  destruct (_ =? 2); [apply terminates_segment_from_union |].
  apply terminates_bind; [apply terminates_segment_range; by left | intros _].
  apply terminates_bind; [apply terminates_segment_range; by right | intros _].
  destruct (_ =? 0); [apply terminates_segment_from_union | done].
Qed.

Lemma terminates_propagate segmented_slices stop_lower stop_upper iou_threshold :
  terminates (propagate segmented_slices stop_lower stop_upper iou_threshold).
Proof.
  unfold propagate. destruct segmented_slices as [|s rest]; [done |].
  apply terminates_bind; [| intros _].
  { unfold segment_below. destruct (_ && _); [apply terminates_segment_range; by right | done]. }
  apply terminates_bind; [| intros _].
  { apply terminates_bind; [done | intros n].
    destruct (_ && _); [apply terminates_segment_range; by left | done]. }
  apply terminates_bind; [| done].
  unfold segment_between. destruct (negb _); [| done].
  induction (zip _ _) as [|[z_start z_stop] gaps IH]; simpl; [done |].
  apply terminates_bind; [apply terminates_fill_gap | done].
Qed.

(** *** Gap filling *)


(** C2, as the code has it. In the bisection of a gap of more than two
    slices, the walk from the bottom assigns the slices from
    [z_start + 1] on, in ascending order, up to [z_mid - 1] when the gap
    is even (it stops one slice short of the midpoint) and up to [z_mid]
    itself when the gap is odd. *)
Theorem bisect_from_bottom_reach z_start z_stop st :
  0 ≤ z_start → z_start + 2 < z_stop → z_stop < Z.of_nat (length (segmentation st)) →
  let z_mid := (z_start + z_stop) `div` 2 in
  ∃ st' new,
    bisect_from_bottom z_start z_stop st = (Return (), st') ∧
    trace st' = trace st ++ new ∧
    stores new =
      seqZ (z_start + 1)
        (if (z_stop - z_start) `mod` 2 =? 0 then z_mid - 1 - z_start else z_mid - z_start).
Proof.
  intros Hnn Hgap Hhi z_mid.
  destruct (bisect_from_bottom_run z_start z_stop st)
    as (st' & seg_prev & _ & Hrun & Htr & _); [lia | lia |].
  fold z_mid in Htr.
  destruct (midpoint_bounds z_start z_stop) as (Hmid1 & Hmid2 & _); [lia |].
  fold z_mid in Hmid1, Hmid2.
  eexists st', _. split_and!; [done | done |].
  rewrite stores_walk_up. f_equal. destruct (_ =? 0); lia.
Qed.

(** C3, as the code has it. In a gap of more than one slice whose lower
    end is the lower stop ([z_start == z0] and [stop_lower]), the slices
    are segmented from the upper end only: walking down from [z_stop],
    each slice from the mask of the slice above it.  Otherwise, when the
    upper end is the upper stop ([z_stop == z1] and [stop_upper]), they
    are segmented from the lower end only: walking up from [z_start],
    each slice from the mask of the slice below it. *)
Theorem fill_gap_at_stop z0 z1 stop_lower stop_upper z_start z_stop st seg_start seg_stop :
  0 ≤ z_start → z_start + 1 < z_stop → z_stop < Z.of_nat (length (segmentation st)) →
  slice_at (segmentation st) z_start = Some seg_start →
  slice_at (segmentation st) z_stop = Some seg_stop →
  ∃ st',
    fill_gap z0 z1 stop_lower stop_upper z_start z_stop st = (Return (), st') ∧
    (((z_start =? z0) && stop_lower) = true →
       new_events st st' =
         walk_trace None (Z.to_nat (z_stop - z_start - 1)) (-1) (z_stop - 1) seg_stop ∧
       stores (new_events st st') = reverse (seqZ (z_start + 1) (z_stop - z_start - 1))) ∧
    (((z_start =? z0) && stop_lower) = false → ((z_stop =? z1) && stop_upper) = true →
       new_events st st' =
         walk_trace None (Z.to_nat (z_stop - z_start - 1)) 1 (z_start + 1) seg_start ∧
       stores (new_events st st') = seqZ (z_start + 1) (z_stop - z_start - 1)).
Proof.
  intros Hnn Hgap Hhi Hseg_start Hseg_stop.
  destruct (fill_gap_run z0 z1 stop_lower stop_upper z_start z_stop st)
    as (st' & new & Hrun & Htr & _); [lia | lia |].
  exists st'. split; [done |]. clear Htr.
  unfold fill_gap in Hrun.
  destruct (_ =? 1) eqn:Hadj; [apply Z.eqb_eq in Hadj; lia |].
  destruct (walk_down_to z_stop z_start st) as (st1 & seg1 & Hs1 & Hrun1 & Htr1 & _);
    [lia | lia |].
  destruct (walk_up_to z_start z_stop st) as (st2 & seg2 & Hs2 & Hrun2 & Htr2 & _);
    [lia | lia |].
  destruct (_ && _) eqn:Hlower.
  - split; [intros _ | done].
    rewrite Hrun1 in Hrun. injection Hrun as <-.
    rewrite (new_events_app _ _ _ Htr1). rewrite Hseg_stop in Hs1. injection Hs1 as <-.
    split; [done |]. rewrite stores_walk_down. do 2 f_equal; lia.
  - split; [done | intros _ Hupper]. rewrite Hupper in Hrun.
    rewrite Hrun2 in Hrun. injection Hrun as <-.
    rewrite (new_events_app _ _ _ Htr2). rewrite Hseg_start in Hs2. injection Hs2 as <-.
    split; [done |]. rewrite stores_walk_up. f_equal; lia.
Qed.

(** *** The IoU gate *)

(** C4. One step of a gated walk at slice [z], the previous slice holding
    [seg_prev]: the segmenter is called for [z] with that mask and the IoU
    of the two masks is compared with the threshold.
    - Below the threshold the walk returns at once: the call is the only
      new event and the volume is the one before the step.
    - At or above the threshold the candidate is assigned to slice [z]
      and the walk goes on from [z + increment], unless the stopping
      criterion ends it there. *)
Theorem gated_step fuel z_stop increment stopping_criterion iou_threshold z st seg_prev :
  slice_at (segmentation st) (z - increment) = Some seg_prev →
  let seg_z :=
    segment_from_mask (IntArr seg_prev) z use_mask use_box use_points box_extension in
  let call := Segment (IntArr seg_prev) z use_mask use_box use_points box_extension in
  let walk z st :=
    segment_range_loop fuel z_stop increment stopping_criterion (Some iou_threshold) z st in
  let step :=
    segment_range_loop (S fuel) z_stop increment stopping_criterion (Some iou_threshold)
      z st in
  ((compute_iou seg_prev seg_z < iou_threshold)%Q →
     step.1 = Return () ∧
     segmentation step.2 = segmentation st ∧
     trace step.2 = trace st ++ [call]) ∧
  ((iou_threshold <= compute_iou seg_prev seg_z)%Q →
     ∀ i, normalize_index (length (segmentation st)) z = Some i →
       let st' :=
         State (<[i:=seg_z]> (segmentation st)) (trace st ++ [call; Store z seg_z])
           (progress_bar st) in
       step = if stopping_criterion (z + increment) z_stop then (Return (), st')
              else walk (z + increment) (ticked st')).
Proof.
  intros Hprev seg_z call walk step. subst step.
  rewrite (segment_range_loop_step _ _ _ _ _ _ _ _ Hprev). fold seg_z. simpl.
  split.
  - intros Hlt%Qlt_bool_true. by rewrite Hlt.
  - intros Hle%Qlt_bool_false i Hi. rewrite Hle, Hi. simpl.
    unfold stored, called, ticked. simpl. by rewrite <-(assoc_L (++)).
Qed.

Lemma calls_walk_up n z seg_prev :
  calls (walk_trace None n 1 z seg_prev) = seqZ z (Z.of_nat n).
Proof. by rewrite calls_walk_trace, walk_indices_up. Qed.

Lemma calls_walk_down n z seg_prev :
  calls (walk_trace None n (-1) z seg_prev)
    = reverse (seqZ (z - Z.of_nat n + 1) (Z.of_nat n)).
Proof. by rewrite calls_walk_trace, walk_indices_down. Qed.

(** What the code computes as prompt is the union of the two masks. *)
Lemma union_of_logical_or (seg_lo seg_hi : mask) :
  union_of seg_lo seg_hi (logical_or (eq_one seg_lo) (eq_one seg_hi)).
Proof.
  unfold union_of, logical_or, eq_one, mask. split.
  - by rewrite length_zip_with, !length_fmap.
  - intros i x y Hx Hy. rewrite lookup_zip_with, !list_lookup_fmap, Hx, Hy. simpl. f_equal.
    symmetry. destruct (Z.eqb_spec x 1), (Z.eqb_spec y 1); simpl;
      (apply bool_decide_eq_true_2; lia) || (apply bool_decide_eq_false_2; lia).
Qed.

(** C8. A gap none of whose ends is a stop.
    - One slice in between ([slice_diff == 2]): the only events are one
      call of the segmenter for slice [z_start + 1] and the assignment of
      its result; the prompt of the call is the union of the two boundary
      masks, set in a pixel exactly when one of them is 1 there; no walk
      takes place.
    - An even gap of more than two slices: the two walks neither call
      the segmenter for the midpoint nor assign it; after them the
      midpoint is segmented once and assigned, and the prompt of that call
      is the union of the masks that slices [z_mid - 1] and [z_mid + 1]
      hold by then. *)
Theorem fill_gap_union z0 z1 stop_lower stop_upper z_start z_stop st :
  0 ≤ z_start → z_start + 1 < z_stop → z_stop < Z.of_nat (length (segmentation st)) →
  ((z_start =? z0) && stop_lower) = false →
  ((z_stop =? z1) && stop_upper) = false →
  let z_mid := (z_start + z_stop) `div` 2 in
  (z_stop - z_start = 2 →
     ∃ st' seg_lo seg_hi prompt,
       slice_at (segmentation st) z_start = Some seg_lo ∧
       slice_at (segmentation st) z_stop = Some seg_hi ∧
       fill_gap z0 z1 stop_lower stop_upper z_start z_stop st = (Return (), st') ∧
       union_of seg_lo seg_hi prompt ∧
       new_events st st' =
         [Segment (BoolArr prompt) (z_start + 1) use_mask use_box use_points box_extension;
          Store (z_start + 1)
            (segment_from_mask (BoolArr prompt) (z_start + 1) use_mask use_box use_points
               box_extension)]) ∧
  (2 < z_stop - z_start → (z_stop - z_start) `mod` 2 = 0 →
     ∃ st2 st' seg_lo seg_hi prompt,
       (bisect_from_bottom z_start z_stop;; bisect_from_top z_start z_stop) st
         = (Return (), st2) ∧
       (z_mid ∉ calls (new_events st st2)) ∧
       (z_mid ∉ stores (new_events st st2)) ∧
       slice_at (segmentation st2) (z_mid - 1) = Some seg_lo ∧
       slice_at (segmentation st2) (z_mid + 1) = Some seg_hi ∧
       fill_gap z0 z1 stop_lower stop_upper z_start z_stop st = (Return (), st') ∧
       union_of seg_lo seg_hi prompt ∧
       new_events st2 st' =
         [Segment (BoolArr prompt) z_mid use_mask use_box use_points box_extension;
          Store z_mid
            (segment_from_mask (BoolArr prompt) z_mid use_mask use_box use_points
               box_extension)]).
Proof.
  intros Hnn Hgap Hhi Hlower Hupper z_mid. unfold fill_gap. rewrite Hlower, Hupper.
  fold z_mid. split.
  - intros Htwo. rewrite Htwo. simpl.
    destruct (segment_from_union_run z_start z_stop (z_start + 1) st)
      as (st' & seg_lo & seg_hi & ? & ? & Hrun & Htr & _); [lia | lia | lia |].
    exists st', seg_lo, seg_hi, (logical_or (eq_one seg_lo) (eq_one seg_hi)).
    split_and!; [done | done | done | apply union_of_logical_or |].
    by rewrite (new_events_app _ _ _ Htr).
  - intros Hmore Heven.
    destruct (_ =? 1) eqn:Hadj; [apply Z.eqb_eq in Hadj; lia |].
    destruct (_ =? 2) eqn:Htwo; [apply Z.eqb_eq in Htwo; lia |].
    rewrite Heven. simpl.
    destruct (midpoint_bounds z_start z_stop) as (Hmid1 & Hmid2 & Hmid & _); [lia |].
    fold z_mid in Hmid1, Hmid2, Hmid. specialize (Hmid Heven).
    destruct (bisect_from_bottom_run z_start z_stop st)
      as (st1 & seg1 & _ & Hrun1 & Htr1 & Hlen1); [lia | lia |].
    destruct (bisect_from_top_run z_start z_stop st1)
      as (st2 & seg2 & _ & Hrun2 & Htr2 & Hlen2); [lia | lia |].
    fold z_mid in Htr1, Htr2. rewrite Heven in Htr1. simpl in Htr1.
    destruct (segment_from_union_run (z_mid - 1) (z_mid + 1) z_mid st2)
      as (st3 & seg_lo & seg_hi & ? & ? & Hrun3 & Htr3 & _); [lia | lia | lia |].
    assert (trace st2 = trace st ++
              (walk_trace None (Z.to_nat (z_mid - 1 - z_start)) 1 (z_start + 1) seg1 ++
               walk_trace None (Z.to_nat (z_stop - z_mid - 1)) (-1) (z_stop - 1) seg2))
      as Htr12 by (by rewrite Htr2, Htr1, <-(assoc_L (++))).
    exists st2, st3, seg_lo, seg_hi, (logical_or (eq_one seg_lo) (eq_one seg_hi)).
    rewrite (new_events_app _ _ _ Htr12), (new_events_app _ _ _ Htr3).
    unfold mbind, M_bind. rewrite Hrun1, Hrun2.
    split_and!; [done | | | done | done | done | apply union_of_logical_or | done].
    + rewrite calls_app, calls_walk_up, calls_walk_down, elem_of_app, elem_of_reverse,
        !elem_of_seqZ. lia.
    + rewrite stores_app, stores_walk_up, stores_walk_down, elem_of_app, elem_of_reverse,
        !elem_of_seqZ. lia.
Qed.

(** *** The walks outside the segmented range *)


(** Both walks, one after the other: what they assign lies inside the
    volume and outside [[z0, z1]], and nothing is assigned twice. *)
Lemma range_walks_stores z0 z1 stop_lower stop_upper iou_threshold st :
  z0 ≤ z1 → 0 ≤ z1 →
  let walks :=
    (segment_below z0 stop_lower iou_threshold;;
     segment_above z1 stop_upper iou_threshold) st in
  ∃ new,
    trace walks.2 = trace st ++ new ∧
    length (segmentation walks.2) = length (segmentation st) ∧
    NoDup (stores new) ∧
    Forall (λ z, 0 ≤ z < Z.of_nat (length (segmentation st)) ∧
                 (z < z0 ∨ z1 < z) ∧ (stop_lower = true → z1 < z)) (stores new) ∧
    (0 ≤ z0 → z1 < Z.of_nat (length (segmentation st)) → walks.1 = Return ()).
Proof.
  intros Hle Hnn walks.
  assert (Hlen : length (segmentation walks.2) = length (segmentation st)).
  { apply (advances_length uses_flags).
    apply advances_bind; [apply advances_segment_below | intros _].
    apply advances_segment_above. }
  destruct (segment_below_stores z0 stop_lower iou_threshold st)
    as (new1 & Htr1 & Hin1 & Hnd1 & Hoff).
  pose proof (advances_length uses_flags _ st
    (advances_segment_below z0 stop_lower iou_threshold)) as Hlen1.
  assert (Hret1 : 0 ≤ z0 → z1 < Z.of_nat (length (segmentation st)) →
            (segment_below z0 stop_lower iou_threshold st).1 = Return ()).
  { intros ??. destruct (slice_at_is_Some (segmentation st) z0) as [seg0 Hseg0]; [lia |].
    destruct (segment_below_run z0 stop_lower iou_threshold st seg0 Hseg0)
      as (? & -> & _); [lia | done]. }
  subst walks. unfold mbind, M_bind in *.
  destruct (segment_below z0 stop_lower iou_threshold st) as [[[]|e|] st1]; simpl in *.
  - destruct (segment_above_stores z1 stop_upper iou_threshold st1 Hnn)
      as (new2 & Htr2 & Hin2 & Hnd2).
    assert (Hret2 : z1 < Z.of_nat (length (segmentation st)) →
              (segment_above z1 stop_upper iou_threshold st1).1 = Return ()).
    { intros ?. destruct (slice_at_is_Some (segmentation st1) z1) as [seg1 Hseg1]; [lia |].
      destruct (segment_above_run z1 stop_upper iou_threshold st1 seg1 Hseg1)
        as (? & -> & _); [lia | done]. }
    rewrite Hlen1 in Hin2.
    exists (new1 ++ new2). rewrite stores_app. split_and!.
    + by rewrite Htr2, Htr1, <-(assoc_L (++)).
    + done.
    + apply NoDup_app. split_and!; [done | | done].
      intros z Hz1 Hz2. rewrite Forall_forall in Hin1, Hin2.
      specialize (Hin1 z Hz1). specialize (Hin2 z Hz2). lia.
    + apply Forall_app. split; apply Forall_forall; intros z Hz.
      * rewrite Forall_forall in Hin1. specialize (Hin1 z Hz).
        split; [lia |]. split; [lia |].
        intros Hsl. rewrite (Hoff Hsl) in Hz. by apply elem_of_nil in Hz.
      * rewrite Forall_forall in Hin2. specialize (Hin2 z Hz). lia.
    + auto.
  - exists new1. split_and!; [done | done | done | | intros ??; by discriminate Hret1].
    apply Forall_forall. intros z Hz. rewrite Forall_forall in Hin1.
    specialize (Hin1 z Hz). split; [lia |]. split; [lia |].
    intros Hsl. rewrite (Hoff Hsl) in Hz. by apply elem_of_nil in Hz.
  - exists new1. split_and!; [done | done | done | | intros ??; by discriminate Hret1].
    apply Forall_forall. intros z Hz. rewrite Forall_forall in Hin1.
    specialize (Hin1 z Hz). split; [lia |]. split; [lia |].
    intros Hsl. rewrite (Hoff Hsl) in Hz. by apply elem_of_nil in Hz.
Qed.

(** C6. For non-negative segmented slices, with [z0] the smallest and
    [z1] the largest of them: every slice index the two range walks
    assign lies in [[0, last slice]], and with [stop_lower] set none of
    them lies below [z0].  When the segmented slices are slices of the
    volume the walks return without any illegal access. *)
Theorem range_walks_stay_inside s rest stop_lower stop_upper iou_threshold st :
  Forall (λ z, 0 ≤ z) (s :: rest) →
  let z0 := foldr Z.min s rest in
  let z1 := foldr Z.max s rest in
  let last_slice := Z.of_nat (length (segmentation st)) - 1 in
  let walks :=
    (segment_below z0 stop_lower iou_threshold;;
     segment_above z1 stop_upper iou_threshold) st in
  Forall (λ z, 0 ≤ z ≤ last_slice) (stores (new_events st walks.2)) ∧
  (stop_lower = true → Forall (λ z, z0 ≤ z) (stores (new_events st walks.2))) ∧
  (Forall (λ z, z ≤ last_slice) (s :: rest) → walks.1 = Return ()).
Proof.
  intros Hnn z0 z1 last_slice walks.
  pose proof (foldr_min_elem s rest) as Hz0. pose proof (foldr_max_elem s rest) as Hz1.
  pose proof (foldr_min_le s rest) as Hmin. fold z0 in Hz0, Hmin. fold z1 in Hz1.
  rewrite Forall_forall in Hnn, Hmin.
  destruct (range_walks_stores z0 z1 stop_lower stop_upper iou_threshold st)
    as (new & Htr & _ & _ & Hin & Hret); [by apply Hmin | by apply Hnn |].
  fold walks in Htr, Hret. rewrite (new_events_app _ _ _ Htr).
  split_and!.
  - eapply Forall_impl; [exact Hin |]. intros z Hz. simpl in Hz. lia.
  - intros Hsl. eapply Forall_impl; [exact Hin |]. intros z (_ & _ & Hz).
    specialize (Hz Hsl). specialize (Hmin z1 Hz1). lia.
  - intros Hhi. rewrite Forall_forall in Hhi.
    apply Hret; [by apply Hnn |]. specialize (Hhi z1 Hz1). lia.
Qed.

(** *** All gaps of a strictly increasing list of slices *)

Lemma fill_gaps_run z0 z1 stop_lower stop_upper (slices : list Z) st :
  StronglySorted Z.lt slices →
  Forall (λ z, 0 ≤ z < Z.of_nat (length (segmentation st))) slices →
  ∃ st' new,
    for_each_gap (fill_gap z0 z1 stop_lower stop_upper)
      (zip (removelast slices) (tail slices)) st = (Return (), st') ∧
    trace st' = trace st ++ new ∧
    length (segmentation st') = length (segmentation st) ∧
    NoDup (stores new) ∧
    Forall (λ z, (z ∉ slices) ∧ ∃ a b, a ∈ slices ∧ b ∈ slices ∧ a < z < b) (stores new).
Proof.
  revert st. induction slices as [|a [|b rest] IH]; intros st Hsorted Hvalid.
  - exists st, []. rewrite app_nil_r. by split_and!; try constructor.
  - exists st, []. rewrite app_nil_r. by split_and!; try constructor.
  - apply StronglySorted_inv in Hsorted as [Hsorted Hab].
    apply Forall_cons in Hvalid as [Ha Hvalid].
    pose proof Hab as Hall. apply Forall_cons in Hab as [Hab _].
    pose proof Hvalid as Hb. apply Forall_cons in Hb as [Hb _].
    pose proof Hsorted as Hbrest. apply StronglySorted_inv in Hbrest as [_ Hbrest].
    destruct (fill_gap_run z0 z1 stop_lower stop_upper a b st)
      as (st1 & new1 & Hrun1 & Htr1 & Hlen1 & Hperm); [lia | lia |].
    destruct (IH st1 Hsorted) as (st2 & new2 & Hrun2 & Htr2 & Hlen2 & Hnd2 & Hin2).
    { by rewrite Hlen1. }
    assert (Hnew1 : ∀ z, z ∈ stores new1 → a < z < b).
    { intros z. rewrite Hperm, elem_of_seqZ. lia. }
    assert (Hnew2 : ∀ z, z ∈ stores new2 → b < z ∧ (z ∉ b :: rest) ∧
                           ∃ c d, c ∈ b :: rest ∧ d ∈ b :: rest ∧ c < z < d).
    { intros z Hz. rewrite Forall_forall in Hin2.
      destruct (Hin2 z Hz) as (Hout & c & d & Hc & Hd & Hcd).
      split_and!; [| done | by exists c, d].
      apply elem_of_cons in Hc as [-> | Hc]; [lia |].
      rewrite Forall_forall in Hbrest. specialize (Hbrest c Hc). lia. }
    exists st2, (new1 ++ new2). rewrite stores_app. split_and!.
    + change (zip (removelast (a :: b :: rest)) (tail (a :: b :: rest)))
        with ((a, b) :: zip (removelast (b :: rest)) (tail (b :: rest))).
      simpl for_each_gap. unfold mbind, M_bind. by rewrite Hrun1.
    + by rewrite Htr2, Htr1, <-(assoc_L (++)).
    + congruence.
    + apply NoDup_app. split_and!; [| | done].
      * rewrite Hperm. apply NoDup_seqZ.
      * intros z Hz1%Hnew1 Hz2%Hnew2. lia.
    + apply Forall_app. split; apply Forall_forall; intros z Hz.
      * apply Hnew1 in Hz. split.
        -- rewrite Forall_forall in Hbrest.
           intros [-> | [-> | Hin]%elem_of_cons]%elem_of_cons; [lia | lia |].
           specialize (Hbrest z Hin). lia.
        -- exists a, b. split_and!; [by left | right; by left | lia | lia].
      * apply Hnew2 in Hz as (Hbz & Hout & c & d & Hc & Hd & Hcd). split.
        -- intros [-> | Hin]%elem_of_cons; [lia | done].
        -- exists c, d. split_and!; [by right | by right | lia | lia].
Qed.

(** *** The whole propagation on well-formed input *)

Lemma propagate_run segmented_slices stop_lower stop_upper iou_threshold st :
  segmented_slices ≠ [] →
  Sorted Z.lt segmented_slices →
  Forall (λ z, 0 ≤ z < Z.of_nat (length (segmentation st))) segmented_slices →
  ∃ st' new,
    propagate segmented_slices stop_lower stop_upper iou_threshold st
      = (Return (segmentation st'), st') ∧
    trace st' = trace st ++ new ∧
    segmentation st' = replay new (segmentation st) ∧
    NoDup (stores new) ∧
    Forall (λ z, 0 ≤ z < Z.of_nat (length (segmentation st)) ∧ (z ∉ segmented_slices))
      (stores new).
Proof.
  intros Hne Hsorted Hvalid.
  apply Sorted_StronglySorted in Hsorted; [| intros ???; apply Z.lt_trans].
  pose proof (advances_propagate segmented_slices stop_lower stop_upper iou_threshold st)
    as (new & Htr & Hseg & _ & _).
  destruct segmented_slices as [|s rest]; [done |]. clear Hne.
  unfold propagate in *. simpl in Htr, Hseg.
  set (z0 := foldr Z.min s rest) in *. set (z1 := foldr Z.max s rest) in *.
  pose proof (foldr_min_elem s rest) as Hz0. pose proof (foldr_max_elem s rest) as Hz1.
  pose proof (foldr_min_le s rest) as Hmin. pose proof (foldr_max_ge s rest) as Hmax.
  fold z0 in Hz0, Hmin. fold z1 in Hz1, Hmax.
  rewrite Forall_forall in Hvalid, Hmin, Hmax.
  pose proof (Hvalid z0 Hz0) as Hv0. pose proof (Hvalid z1 Hz1) as Hv1.
  destruct (range_walks_stores z0 z1 stop_lower stop_upper iou_threshold st)
    as (new1 & Htr1 & Hlen1 & Hnd1 & Hin1 & Hret1); [by apply Hmin | lia |].
  specialize (Hret1 ltac:(lia) ltac:(lia)).
  rewrite <-bind_assoc in Htr, Hseg.
  destruct ((segment_below z0 stop_lower iou_threshold;;
             segment_above z1 stop_upper iou_threshold) st) as [o st1] eqn:Hwalks.
  simpl in Htr1, Hlen1, Hret1. subst o.
  rewrite <-bind_assoc, (bind_run _ _ _ _ _ Hwalks).
  rewrite (bind_run _ _ _ _ _ Hwalks) in Htr, Hseg.
  assert (∃ st2 new2,
    segment_between (s :: rest) z0 z1 stop_lower stop_upper st1 = (Return (), st2) ∧
    trace st2 = trace st1 ++ new2 ∧
    NoDup (stores new2) ∧
    Forall (λ z, (z ∉ s :: rest) ∧ ∃ a b, a ∈ s :: rest ∧ b ∈ s :: rest ∧ a < z < b)
      (stores new2)) as (st2 & new2 & Hrun2 & Htr2 & Hnd2 & Hin2).
  { unfold segment_between. destruct (negb _).
    - destruct (fill_gaps_run z0 z1 stop_lower stop_upper (s :: rest) st1 Hsorted)
        as (st2 & new2 & ? & ? & _ & ? & ?).
      { apply Forall_forall. intros z Hz. rewrite Hlen1. by apply Hvalid. }
      by exists st2, new2.
    - exists st1, []. rewrite app_nil_r. by split_and!; try constructor. }
  rewrite (bind_run _ _ _ _ _ Hrun2). rewrite (bind_run _ _ _ _ _ Hrun2) in Htr, Hseg.
  simpl in Htr, Hseg.
  rewrite Htr2, Htr1, <-(assoc_L (++)) in Htr. apply app_inv_head in Htr as <-.
  exists st2, (new1 ++ new2). rewrite stores_app.
  rewrite Forall_forall in Hin1, Hin2.
  split_and!; [done | by rewrite Htr2, Htr1, <-(assoc_L (++)) | done | |].
  - apply NoDup_app. split_and!; [done | | done].
    intros z Hzl Hzr. destruct (Hin1 z Hzl) as (_ & Hout & _).
    destruct (Hin2 z Hzr) as (_ & a & b & Ha & Hb & Hab).
    specialize (Hmin a Ha). specialize (Hmax b Hb). lia.
  - apply Forall_app. split; apply Forall_forall; intros z Hz.
    + destruct (Hin1 z Hz) as (? & Hout & _). split; [done |].
      intros Hzin. specialize (Hmin z Hzin). specialize (Hmax z Hzin). lia.
    + destruct (Hin2 z Hz) as (? & a & b & Ha & Hb & Hab). split; [| done].
      pose proof (Hvalid a Ha). pose proof (Hvalid b Hb). lia.
Qed.

End ClosureFacts.

Local Abbreviation segment_mask_in_volume :=
  (segment_mask_in_volume segment_from_mask compute_iou).
Local Abbreviation propagate := (propagate segment_from_mask compute_iou).

(** ** The entry point *)

Lemma segment_mask_in_volume_invalid segmented_slices stop_lower stop_upper iou_threshold
    projection box_extension st :
  projection ∉ ["mask"; "bounding_box"; "points"] →
  segment_mask_in_volume segmented_slices stop_lower stop_upper iou_threshold
    projection box_extension st = (Raise AssertionError, st).
Proof.
  intros Hbad. unfold segment_mask_in_volume, mbind, M_bind, assert.
  by rewrite bool_decide_eq_false_2.
Qed.

Lemma segment_mask_in_volume_valid segmented_slices stop_lower stop_upper iou_threshold
    projection box_extension st :
  projection ∈ ["mask"; "bounding_box"; "points"] →
  segment_mask_in_volume segmented_slices stop_lower stop_upper iou_threshold
    projection box_extension st =
  propagate (projection_flags projection).1.1 (projection_flags projection).1.2
    (projection_flags projection).2 box_extension
    segmented_slices stop_lower stop_upper iou_threshold st.
Proof.
  intros Hok. unfold segment_mask_in_volume, mbind, M_bind, assert.
  rewrite bool_decide_eq_true_2 by done. simpl.
  by destruct (projection_flags projection) as [[use_box use_mask] use_points].
Qed.

(** The embedding is total: the fuel of the walks never runs out, so a
    call either returns the volume or raises. *)
Lemma segment_mask_in_volume_terminates segmented_slices stop_lower stop_upper iou_threshold
    projection box_extension :
  terminates
    (segment_mask_in_volume segmented_slices stop_lower stop_upper iou_threshold
       projection box_extension).
Proof.
  apply terminates_bind; [apply terminates_assert | intros _].
  destruct (projection_flags projection) as [[use_box use_mask] use_points].
  apply terminates_propagate.
Qed.

(** C5, as the code has it. The projection mode is the only part of the
    configuration that is checked: an unknown mode makes the call fail its
    assertion with the state untouched (no slice read or assigned, no call
    of the segmenter), and with a known mode no assertion fails, whatever
    [iou_threshold] and [box_extension] are. *)
Theorem only_projection_is_checked segmented_slices stop_lower stop_upper iou_threshold
    projection box_extension st :
  let run :=
    segment_mask_in_volume segmented_slices stop_lower stop_upper iou_threshold
      projection box_extension st in
  (projection ∉ ["mask"; "bounding_box"; "points"] → run = (Raise AssertionError, st)) ∧
  (projection ∈ ["mask"; "bounding_box"; "points"] → run.1 ≠ Raise AssertionError).
Proof.
  intros run. subst run. split.
  - apply segment_mask_in_volume_invalid.
  - intros Hok. rewrite segment_mask_in_volume_valid by done.
    edestruct advances_propagate as (_ & _ & _ & _ & Hne). exact Hne.
Qed.

(** C7. Every call of the segmenter made by [segment_mask_in_volume]
    carries the prompt parts of the projection mode (arguments of
    [uses_flags]: box, mask, points): mode "mask" box and mask without
    points, mode "points" box, mask and points, mode "bounding_box" the
    box alone; and it carries the [box_extension] of the call. *)
Theorem projection_fixes_prompt_parts segmented_slices stop_lower stop_upper iou_threshold
    box_extension st :
  let events projection :=
    new_events st
      (segment_mask_in_volume segmented_slices stop_lower stop_upper iou_threshold
         projection box_extension st).2 in
  Forall (uses_flags true true false box_extension) (events "mask") ∧
  Forall (uses_flags true true true box_extension) (events "points") ∧
  Forall (uses_flags true false false box_extension) (events "bounding_box").
Proof.
  intros events. subst events. simpl.
  rewrite !segment_mask_in_volume_valid by (rewrite !elem_of_cons; auto).
  split_and!; eapply advances_new_events, advances_propagate.
Qed.

(** C10. For a non-empty, strictly increasing list of segmented slices of
    the volume, one call assigns no slice index twice and assigns none of
    the segmented slices: on return each of them holds the mask it held
    at the call.  With a known projection mode the call does return, with
    the volume it has updated. *)
Theorem segmented_slices_are_kept segmented_slices stop_lower stop_upper iou_threshold
    projection box_extension st :
  segmented_slices ≠ [] →
  Sorted Z.lt segmented_slices →
  Forall (λ z, 0 ≤ z < Z.of_nat (length (segmentation st))) segmented_slices →
  let run :=
    segment_mask_in_volume segmented_slices stop_lower stop_upper iou_threshold
      projection box_extension st in
  NoDup (stores (new_events st run.2)) ∧
  (∀ z, z ∈ segmented_slices →
     (z ∉ stores (new_events st run.2)) ∧
     slice_at (segmentation run.2) z = slice_at (segmentation st) z) ∧
  (projection ∈ ["mask"; "bounding_box"; "points"] → run.1 = Return (segmentation run.2)).
Proof.
  intros Hne Hsorted Hvalid run. subst run.
  destruct (decide (projection ∈ ["mask"; "bounding_box"; "points"])) as [Hok | Hbad].
  - rewrite segment_mask_in_volume_valid by done.
    edestruct propagate_run as (st' & new & -> & Htr & Hseg & Hnd & Hin);
      [exact Hne | exact Hsorted | exact Hvalid |].
    simpl. rewrite (new_events_app _ _ _ Htr). rewrite Forall_forall in Hin, Hvalid.
    split_and!; [done | | done].
    intros z Hz. split; [intros Hzin; by destruct (Hin z Hzin) |].
    rewrite Hseg. apply replay_frame; [by apply Hvalid | |].
    + apply Forall_forall. intros x Hx. destruct (Hin x Hx). lia.
    + intros Hzin. by destruct (Hin z Hzin).
  - rewrite segment_mask_in_volume_invalid by done. simpl.
    rewrite (new_events_app st st []) by (by rewrite app_nil_r).
    split_and!; [constructor | | done].
    intros z _. split; [apply not_elem_of_nil | done].
Qed.

End PropagationFacts.

(** * Concrete runs

    The theorems above applied to the stub segmenter, in mode "mask"
    (box and mask, no points), and the runs that separate the code from
    other readings of it. *)


(** The odd gap between slices 2 and 7: the walk from the bottom assigns
    slices 3 and 4, the midpoint. *)
Lemma bisect_from_bottom_reach_witness :
  ∃ st' new,
    bisect_from_bottom stub_segmenter stub_iou true true false 0 2 7
      (seeded_volume 9 [2; 7]) = (Return (), st') ∧
    trace st' = trace (seeded_volume 9 [2; 7]) ++ new ∧
    stores new = seqZ 3 2.
Proof.
  apply (bisect_from_bottom_reach stub_segmenter stub_iou true true false 0
           2 7 (seeded_volume 9 [2; 7])); [lia | lia | vm_compute; reflexivity].
Defined.

(** The walk from the bottom is not inclusive of the midpoint for even
    gaps and exclusive for odd ones: in the even gap between slices 2 and 6
    it does not assign the midpoint 4 (it assigns slice 3 only), and in the
    odd gap between slices 2 and 7 its last assignment is not to slice 3,
    one short of the midpoint, but to the midpoint 4. *)
Lemma bisect_from_bottom_parity_counterexample :
  (4 ∉ stores (trace (bisect_from_bottom stub_segmenter stub_iou true true false 0 2 6
                        (seeded_volume 9 [2; 6])).2)) ∧
  last (stores (trace (bisect_from_bottom stub_segmenter stub_iou true true false 0 2 7
                         (seeded_volume 9 [2; 7])).2)) ≠ Some 3.
Proof.
  split.
  - assert (stores (trace (bisect_from_bottom stub_segmenter stub_iou true true false 0 2 6
                             (seeded_volume 9 [2; 6])).2) = [3]) as ->
      by (vm_compute; reflexivity).
    intros Hin%list_elem_of_singleton. lia.
  - vm_compute. discriminate.
Qed.

(** A gap of two slices between slices 0 and 3, once with the lower end
    as lower stop and once with the upper end as upper stop. *)
Lemma fill_gap_at_stop_witness :
  (∃ st',
     fill_gap stub_segmenter stub_iou true true false 0 0 3 true false 0 3
       (seeded_volume 4 [0; 3]) = (Return (), st') ∧
     stores (new_events (seeded_volume 4 [0; 3]) st') = reverse (seqZ 1 2)) ∧
  (∃ st',
     fill_gap stub_segmenter stub_iou true true false 0 0 3 false true 0 3
       (seeded_volume 4 [0; 3]) = (Return (), st') ∧
     stores (new_events (seeded_volume 4 [0; 3]) st') = seqZ 1 2).
Proof.
  split.
  - destruct (fill_gap_at_stop stub_segmenter stub_iou true true false 0 0 3 true false 0 3
                (seeded_volume 4 [0; 3]) [0; 1; 1] [0; 1; 1])
      as (st' & Hrun & Hlower & _);
      [lia | lia | vm_compute; reflexivity | reflexivity | reflexivity |].
    exists st'. split; [exact Hrun | exact (proj2 (Hlower eq_refl))].
  - destruct (fill_gap_at_stop stub_segmenter stub_iou true true false 0 0 3 false true 0 3
                (seeded_volume 4 [0; 3]) [0; 1; 1] [0; 1; 1])
      as (st' & Hrun & _ & Hupper);
      [lia | lia | vm_compute; reflexivity | reflexivity | reflexivity |].
    exists st'. split; [exact Hrun | exact (proj2 (Hupper eq_refl eq_refl))].
Defined.

(** A gap is not filled starting from the end that is a stop: with the
    lower end of the gap between slices 0 and 3 as lower stop, the slices
    are not assigned walking forward from slice 0 (1, then 2) but in the
    order 2, 1; with the upper end as upper stop they are not assigned
    walking backward from slice 3 (2, then 1) but in the order 1, 2. *)
Lemma fill_gap_at_stop_direction_counterexample :
  stores (trace (fill_gap stub_segmenter stub_iou true true false 0 0 3 true false 0 3
                   (seeded_volume 4 [0; 3])).2) ≠ [1; 2] ∧
  stores (trace (fill_gap stub_segmenter stub_iou true true false 0 0 3 false true 0 3
                   (seeded_volume 4 [0; 3])).2) ≠ [2; 1].
Proof. split; vm_compute; discriminate. Qed.

(** A rejected and an accepted step in a volume of ten slices: the stub
    detects nothing in slice 8, and copies the mask of slice 5 to slice 6. *)
Lemma gated_step_witness :
  (let step :=
     segment_range_loop stub_segmenter stub_iou true true false 0 3 9 1 Z.gtb (Some (4 # 5)%Q)
       8 (seeded_volume 10 [7]) in
   step.1 = Return () ∧
   segmentation step.2 = segmentation (seeded_volume 10 [7]) ∧
   trace step.2 = [Segment (IntArr [0; 1; 1]) 8 true true false 0]) ∧
  (segment_range_loop stub_segmenter stub_iou true true false 0 3 9 1 Z.gtb (Some (4 # 5)%Q)
     6 (seeded_volume 10 [5]) =
   segment_range_loop stub_segmenter stub_iou true true false 0 2 9 1 Z.gtb (Some (4 # 5)%Q)
     7 (ticked
          (State (<[6%nat:=[0; 1; 1]]> (segmentation (seeded_volume 10 [5])))
             [Segment (IntArr [0; 1; 1]) 6 true true false 0; Store 6 [0; 1; 1]] None))).
Proof.
  split.
  - apply (proj1 (gated_step stub_segmenter stub_iou true true false 0 2 9 1 Z.gtb (4 # 5)%Q
                    8 (seeded_volume 10 [7]) [0; 1; 1] eq_refl)).
    vm_compute. reflexivity.
  - apply (proj2 (gated_step stub_segmenter stub_iou true true false 0 2 9 1 Z.gtb (4 # 5)%Q
                    6 (seeded_volume 10 [5]) [0; 1; 1] eq_refl)).
    + vm_compute. discriminate.
    + reflexivity.
Defined.

(** An unknown mode is rejected, a known one is not. *)
Lemma only_projection_is_checked_witness :
  segment_mask_in_volume stub_segmenter stub_iou [5] false false (4 # 5)%Q "boundary" 0
    (seeded_volume 10 [5]) = (Raise AssertionError, seeded_volume 10 [5]) ∧
  (segment_mask_in_volume stub_segmenter stub_iou [5] false false (4 # 5)%Q "points" 0
     (seeded_volume 10 [5])).1 ≠ Raise AssertionError.
Proof.
  split.
  - apply (proj1 (only_projection_is_checked stub_segmenter stub_iou [5] false false
                    (4 # 5)%Q "boundary" 0 (seeded_volume 10 [5]))).
    rewrite !elem_of_cons, elem_of_nil. intros [? | [? | [? | []]]]; discriminate.
  - apply (proj2 (only_projection_is_checked stub_segmenter stub_iou [5] false false
                    (4 # 5)%Q "points" 0 (seeded_volume 10 [5]))).
    rewrite !elem_of_cons. auto.
Defined.

(** Neither the threshold nor the box extension is validated: with the
    threshold -1, outside (0, 1], and the negative box extension -1, the
    call is not rejected; it returns the volume after assigning slices 0
    and 2. *)
Lemma threshold_and_box_extension_unchecked :
  (segment_mask_in_volume stub_segmenter stub_iou [1] false false (-1 # 1)%Q "mask" (-1 # 1)%Q
     (seeded_volume 3 [1])).1 = Return [[0; 1; 1]; [0; 1; 1]; [0; 1; 1]] ∧
  stores (trace (segment_mask_in_volume stub_segmenter stub_iou [1] false false (-1 # 1)%Q
                   "mask" (-1 # 1)%Q (seeded_volume 3 [1])).2) = [0; 2].
Proof. split; vm_compute; reflexivity. Qed.

(** The two range walks from the single segmented slice 5 of ten. *)
Lemma range_walks_stay_inside_witness :
  Forall (λ z, 0 ≤ z ≤ 9)
    (stores (new_events (seeded_volume 10 [5])
       ((segment_below stub_segmenter stub_iou true true false 0 5 false (4 # 5)%Q;;
         segment_above stub_segmenter stub_iou true true false 0 5 false (4 # 5)%Q)
          (seeded_volume 10 [5])).2)).
Proof.
  apply (proj1 (range_walks_stay_inside stub_segmenter stub_iou true true false 0
                  5 [] false false (4 # 5)%Q (seeded_volume 10 [5])
                  ltac:(constructor; [lia | constructor]))).
Defined.

(** The union of two masks of three pixels, pixel by pixel. *)
Lemma union_of_three (x1 x2 x3 y1 y2 y3 : Z) (prompt : list bool) :
  union_of [x1; x2; x3] [y1; y2; y3] prompt →
  prompt = [bool_decide (x1 = 1 ∨ y1 = 1); bool_decide (x2 = 1 ∨ y2 = 1);
            bool_decide (x3 = 1 ∨ y3 = 1)].
Proof.
  intros [Hlen Hunion].
  pose proof (Hunion 0%nat _ _ eq_refl eq_refl) as H1.
  pose proof (Hunion 1%nat _ _ eq_refl eq_refl) as H2.
  pose proof (Hunion 2%nat _ _ eq_refl eq_refl) as H3.
  destruct prompt as [|a [|b [|c [|d prompt]]]]; simpl in *; by simplify_eq.
Qed.

(** One slice between slices 0 and 2, and the even gap between slices 2
    and 6 with its midpoint 4; the lower boundary mask is [0; 1; 0], the
    upper one [0; 0; 1], and the stub copies them into slices 3 and 5.  In
    both cases the prompt is set in the last two pixels. *)
Lemma fill_gap_union_witness :
  (∃ st',
     fill_gap stub_segmenter stub_iou true true false 0 0 2 false false 0 2
       (two_objects_volume 3 0 2) = (Return (), st') ∧
     new_events (two_objects_volume 3 0 2) st' =
       [Segment (BoolArr [false; true; true]) 1 true true false 0; Store 1 [0; 1; 1]]) ∧
  (∃ st2 st',
     (bisect_from_bottom stub_segmenter stub_iou true true false 0 2 6;;
      bisect_from_top stub_segmenter stub_iou true true false 0 2 6)
       (two_objects_volume 9 2 6) = (Return (), st2) ∧
     (4 ∉ calls (new_events (two_objects_volume 9 2 6) st2)) ∧
     (4 ∉ stores (new_events (two_objects_volume 9 2 6) st2)) ∧
     fill_gap stub_segmenter stub_iou true true false 0 2 6 false false 2 6
       (two_objects_volume 9 2 6) = (Return (), st') ∧
     new_events st2 st' =
       [Segment (BoolArr [false; true; true]) 4 true true false 0; Store 4 [0; 1; 1]]).
Proof.
  split.
  - destruct (proj1 (fill_gap_union stub_segmenter stub_iou true true false 0 0 2 false false
                       0 2 (two_objects_volume 3 0 2) ltac:(lia) ltac:(lia)
                       ltac:(vm_compute; reflexivity) eq_refl eq_refl) eq_refl)
      as (st' & seg_lo & seg_hi & prompt & Hlo & Hhi & Hrun & Hunion & Hevents).
    vm_compute in Hlo, Hhi. injection Hlo as <-. injection Hhi as <-.
    apply union_of_three in Hunion. vm_compute in Hunion. subst prompt.
    exists st'. split; [exact Hrun | exact Hevents].
  - destruct (proj2 (fill_gap_union stub_segmenter stub_iou true true false 0 2 6 false false
                       2 6 (two_objects_volume 9 2 6) ltac:(lia) ltac:(lia)
                       ltac:(vm_compute; reflexivity) eq_refl eq_refl)
                ltac:(lia) eq_refl)
      as (st2 & st' & seg_lo & seg_hi & prompt & Hwalks & Hcalls & Hstores & Hlo & Hhi &
          Hrun & Hunion & Hevents).
    assert (st2 = ((bisect_from_bottom stub_segmenter stub_iou true true false 0 2 6;;
                    bisect_from_top stub_segmenter stub_iou true true false 0 2 6)
                     (two_objects_volume 9 2 6)).2) as Hst2 by (by rewrite Hwalks).
    rewrite Hst2 in Hlo, Hhi. vm_compute in Hlo, Hhi.
    injection Hlo as <-. injection Hhi as <-.
    apply union_of_three in Hunion. vm_compute in Hunion. subst prompt.
    exists st2, st'. split_and!; [exact Hwalks | exact Hcalls | exact Hstores | exact Hrun |].
    exact Hevents.
Defined.


(** The segmented slices 2 and 6 of a volume of nine slices are kept. *)
Lemma segmented_slices_are_kept_witness :
  NoDup (stores (new_events (seeded_volume 9 [2; 6])
           (segment_mask_in_volume stub_segmenter stub_iou [2; 6] false false (4 # 5)%Q
              "mask" 0 (seeded_volume 9 [2; 6])).2)) ∧
  (∀ z, z ∈ [2; 6] →
     (z ∉ stores (new_events (seeded_volume 9 [2; 6])
            (segment_mask_in_volume stub_segmenter stub_iou [2; 6] false false (4 # 5)%Q
               "mask" 0 (seeded_volume 9 [2; 6])).2)) ∧
     slice_at (segmentation
                 (segment_mask_in_volume stub_segmenter stub_iou [2; 6] false false (4 # 5)%Q
                    "mask" 0 (seeded_volume 9 [2; 6])).2) z
       = slice_at (segmentation (seeded_volume 9 [2; 6])) z) ∧
  (segment_mask_in_volume stub_segmenter stub_iou [2; 6] false false (4 # 5)%Q
     "mask" 0 (seeded_volume 9 [2; 6])).1
    = Return (segmentation
                (segment_mask_in_volume stub_segmenter stub_iou [2; 6] false false (4 # 5)%Q
                   "mask" 0 (seeded_volume 9 [2; 6])).2).
Proof.
  pose proof (segmented_slices_are_kept stub_segmenter stub_iou [2; 6] false false (4 # 5)%Q
                "mask" 0 (seeded_volume 9 [2; 6])
                ltac:(discriminate)
                ltac:(repeat constructor)
                ltac:(repeat constructor; lia)) as (Hnd & Hkept & Hret).
  split_and!; [exact Hnd | exact Hkept |].
  apply Hret. rewrite !elem_of_cons. auto.
Defined.

(** The walks are not confined to the volume's own indices for every
    input.  The segmented slice -3 of ten slices is slice 7.  With
    [stop_lower] set the walk above it assigns the indices -2 and -1,
    outside [[0, 9]], and goes on with the slices 0 to 7, which lie below
    the segmented slice and include it. *)
Lemma range_walks_wrap_counterexample :
  let walks :=
    (segment_below stub_segmenter stub_iou true true false 0 (-3) true (4 # 5)%Q;;
     segment_above stub_segmenter stub_iou true true false 0 (-3) false (4 # 5)%Q)
      (seeded_volume 10 [7]) in
  normalize_index 10 (-3) = Some 7%nat ∧
  walks.1 = Return () ∧
  stores (new_events (seeded_volume 10 [7]) walks.2) = [-2; -1; 0; 1; 2; 3; 4; 5; 6; 7] ∧
  ¬ Forall (λ z, 0 ≤ z ≤ 9) (stores (new_events (seeded_volume 10 [7]) walks.2)).
Proof.
  assert (stores (new_events (seeded_volume 10 [7])
            ((segment_below stub_segmenter stub_iou true true false 0 (-3) true (4 # 5)%Q;;
              segment_above stub_segmenter stub_iou true true false 0 (-3) false (4 # 5)%Q)
               (seeded_volume 10 [7])).2) = [-2; -1; 0; 1; 2; 3; 4; 5; 6; 7]) as Hstores
    by (vm_compute; reflexivity).
  split_and!; [vm_compute; reflexivity | vm_compute; reflexivity | exact Hstores |].
  rewrite Hstores. intros [? _]%Forall_cons. lia.
Qed.

(** A strictly increasing list of segmented slices does not keep its
    slices for every input.  For the list [-3] in ten slices and a
    segmenter that finds the object everywhere, the call returns; the walk
    above runs from index -2 to index 9, so that slices 8 and 9 are
    assigned twice and slice 7, the segmented slice, once; on return the
    segmented slice holds another mask than at the call. *)
Lemma segmented_slice_overwritten_counterexample :
  let st := seeded_volume 10 [7] in
  let run :=
    segment_mask_in_volume filling_segmenter stub_iou [-3] false false (1 # 2)%Q "mask" 0 st in
  Sorted Z.lt [-3] ∧
  run.1 = Return (segmentation run.2) ∧
  stores (new_events st run.2) = [-2; -1; 0; 1; 2; 3; 4; 5; 6; 7; 8; 9] ∧
  slice_at (segmentation st) (-3) = Some [0; 1; 1] ∧
  slice_at (segmentation run.2) (-3) = Some [1; 1; 1] ∧
  slice_at (segmentation run.2) 7 = Some [1; 1; 1].
Proof. split_and!; [repeat constructor | vm_compute; reflexivity ..]. Qed.

(** * Whole walks *)

Section WholeRuns.

Variable segment_from_mask : ndarray → Z → bool → bool → bool → Q → mask.
Variable compute_iou : mask → mask → Q.

Section WalkFacts.

Variables (use_box use_mask use_points : bool) (box_extension : Q).

Local Abbreviation gate_rejects := (gate_rejects compute_iou).
Local Abbreviation segment_range_loop :=
  (segment_range_loop segment_from_mask compute_iou use_box use_mask use_points box_extension).
Local Abbreviation segment_range :=
  (segment_range segment_from_mask compute_iou use_box use_mask use_points box_extension).
Local Abbreviation segment_from_union :=
  (segment_from_union segment_from_mask use_box use_mask use_points box_extension).
Local Abbreviation bisect_from_bottom :=
  (bisect_from_bottom segment_from_mask compute_iou use_box use_mask use_points box_extension).
Local Abbreviation bisect_from_top :=
  (bisect_from_top segment_from_mask compute_iou use_box use_mask use_points box_extension).
Local Abbreviation fill_gap :=
  (fill_gap segment_from_mask compute_iou use_box use_mask use_points box_extension).
Local Abbreviation segment_below :=
  (segment_below segment_from_mask compute_iou use_box use_mask use_points box_extension).
Local Abbreviation segment_above :=
  (segment_above segment_from_mask compute_iou use_box use_mask use_points box_extension).
Local Abbreviation segment_between :=
  (segment_between segment_from_mask compute_iou use_box use_mask use_points box_extension).
Local Abbreviation propagate :=
  (propagate segment_from_mask compute_iou use_box use_mask use_points box_extension).
Local Abbreviation walk_trace :=
  (walk_trace segment_from_mask compute_iou use_box use_mask use_points box_extension).
Local Abbreviation union_trace :=
  (union_trace segment_from_mask use_box use_mask use_points box_extension).
Local Abbreviation uses_flags := (uses_flags use_box use_mask use_points box_extension).
Local Abbreviation propagated :=
  (propagated segment_from_mask use_box use_mask use_points box_extension).
Local Abbreviation accepted :=
  (accepted segment_from_mask compute_iou use_box use_mask use_points box_extension).

(** ** Masks and extent of a walk *)

Lemma propagated_shift increment z seg k :
  propagated increment z seg (S k) =
  propagated increment (z + increment)
    (segment_from_mask (IntArr seg) (z + increment) use_mask use_box use_points box_extension) k.
Proof.
  induction k as [|k IH].
  - simpl. f_equal. lia.
  - change (propagated increment z seg (S (S k))) with
      (segment_from_mask (IntArr (propagated increment z seg (S k)))
         (z + increment * Z.of_nat (S (S k))) use_mask use_box use_points box_extension).
    rewrite IH. simpl. f_equal. lia.
Qed.

Lemma accepted_S threshold n increment z seg_prev :
  accepted threshold (S n) increment z seg_prev =
  if gate_rejects threshold seg_prev
       (segment_from_mask (IntArr seg_prev) z use_mask use_box use_points box_extension)
  then O
  else S (accepted threshold n increment (z + increment)
            (segment_from_mask (IntArr seg_prev) z use_mask use_box use_points box_extension)).
Proof. done. Qed.

Lemma walk_trace_S threshold n increment z seg_prev :
  walk_trace threshold (S n) increment z seg_prev =
  Segment (IntArr seg_prev) z use_mask use_box use_points box_extension ::
  if gate_rejects threshold seg_prev
       (segment_from_mask (IntArr seg_prev) z use_mask use_box use_points box_extension)
  then []
  else Store z
         (segment_from_mask (IntArr seg_prev) z use_mask use_box use_points box_extension) ::
       walk_trace threshold n increment (z + increment)
         (segment_from_mask (IntArr seg_prev) z use_mask use_box use_points box_extension).
Proof. done. Qed.

Lemma accepted_le threshold n increment z seg_prev :
  (accepted threshold n increment z seg_prev ≤ n)%nat.
Proof.
  revert z seg_prev. induction n as [|n IH]; intros z seg_prev; simpl; [done |].
  destruct (gate_rejects _ _ _); [lia |]. specialize (IH (z + increment)
    (segment_from_mask (IntArr seg_prev) z use_mask use_box use_points box_extension)). lia.
Qed.

Lemma accepted_None n increment z seg_prev : accepted None n increment z seg_prev = n.
Proof.
  revert z seg_prev. induction n as [|n IH]; intros z seg_prev; simpl; [done |].
  by rewrite IH.
Qed.

(** The slices a walk assigns are the first [accepted] ones on its way. *)
Lemma stores_walk_trace_accepted threshold n increment z seg_prev :
  stores (walk_trace threshold n increment z seg_prev) =
  walk_indices (accepted threshold n increment z seg_prev) increment z.
Proof.
  revert z seg_prev. induction n as [|n IH]; intros z seg_prev; simpl; [done |].
  destruct (gate_rejects _ _ _); simpl; [done |]. by rewrite IH.
Qed.

(** Every step before the extent passed the gate, and the step after it,
    if the walk had one left, did not.  The walk starts at [z + increment]
    from the mask [seg] of slice [z]. *)
Lemma accepted_gate threshold n increment z seg :
  let a := accepted threshold n increment (z + increment) seg in
  (∀ k, (k < a)%nat →
     gate_rejects threshold (propagated increment z seg k)
       (propagated increment z seg (S k)) = false) ∧
  ((a < n)%nat →
     gate_rejects threshold (propagated increment z seg a)
       (propagated increment z seg (S a)) = true).
Proof.
  revert z seg. induction n as [|n IH]; intros z seg; [split; simpl; intros; lia |].
  cbv zeta. rewrite accepted_S.
  assert (propagated increment z seg 1 =
          segment_from_mask (IntArr seg) (z + increment) use_mask use_box use_points
            box_extension) as Hone by (simpl; f_equal; lia).
  destruct (gate_rejects threshold seg _) eqn:Hgate.
  - split; [intros; lia | intros _].
    change (propagated increment z seg 0) with seg. by rewrite Hone.
  - destruct (IH (z + increment)
      (segment_from_mask (IntArr seg) (z + increment) use_mask use_box use_points
         box_extension)) as [Hbefore Hafter].
    split.
    + intros [|k] Hk.
      { change (propagated increment z seg 0) with seg. by rewrite Hone. }
      rewrite (propagated_shift increment z seg (S k)), (propagated_shift increment z seg k).
      apply Hbefore. lia.
    + intros Ha.
      rewrite (propagated_shift increment z seg (S _)), (propagated_shift increment z seg _).
      apply Hafter. lia.
Qed.

(** After replaying a walk inside the volume, the slices of its extent
    hold the propagated masks. *)
Lemma replay_walk_trace threshold increment :
  increment = 1 ∨ increment = -1 →
  ∀ (n : nat) (z : Z) (seg : mask) (vol : list mask) (k : nat),
    (∀ j, 0 ≤ j < Z.of_nat n → 0 ≤ z + increment + increment * j < Z.of_nat (length vol)) →
    (k < accepted threshold n increment (z + increment) seg)%nat →
    slice_at (replay (walk_trace threshold n increment (z + increment) seg) vol)
      (z + increment * Z.of_nat (S k)) = Some (propagated increment z seg (S k)).
Proof.
  intros Hinc n. induction n as [|n IH]; intros z seg vol k Hin Hk; [simpl in Hk; lia |].
  rewrite accepted_S in Hk. rewrite walk_trace_S.
  set (seg_z := segment_from_mask (IntArr seg) (z + increment) use_mask use_box use_points
                  box_extension) in *.
  destruct (gate_rejects _ _ _); [lia |].
  assert (0 ≤ z + increment < Z.of_nat (length vol)) as Hz.
  { specialize (Hin 0). rewrite Z.mul_0_r, Z.add_0_r in Hin. apply Hin. lia. }
  cbn [replay]. rewrite normalize_index_inrange by done.
  destruct k as [|k].
  - rewrite replay_frame.
    + rewrite slice_at_inrange by (rewrite length_insert; lia).
      replace (z + increment * Z.of_nat 1) with (z + increment) by lia.
      rewrite list_lookup_insert_eq by lia. do 2 f_equal.
      change (propagated increment z seg 1) with
        (segment_from_mask (IntArr seg) (z + increment * Z.of_nat 1) use_mask use_box
           use_points box_extension).
      subst seg_z. f_equal. lia.
    + rewrite length_insert. lia.
    + rewrite stores_walk_trace_accepted. apply Forall_forall.
      intros x (j & Hj & ->)%elem_of_walk_indices.
      pose proof (accepted_le threshold n increment (z + increment + increment) seg_z).
      specialize (Hin (j + 1)). destruct Hinc as [-> | ->]; lia.
    + rewrite stores_walk_trace_accepted. intros (j & Hj & Heq)%elem_of_walk_indices.
      destruct Hinc as [-> | ->]; lia.
  - rewrite (propagated_shift increment z seg (S k)).
    replace (z + increment * Z.of_nat (S (S k)))
      with (z + increment + increment * Z.of_nat (S k)) by lia.
    apply IH; [| subst seg_z; lia]. rewrite length_insert. intros j Hj.
    specialize (Hin (j + 1)). destruct Hinc as [-> | ->]; lia.
Qed.

(** ** The gated walks in full *)

(** The walk below slice [z0], which holds [seg0]: the [a] slices below
    [z0] that it assigns hold the masks propagated from [seg0], all other
    slices are as before, every step within the extent passed the gate,
    and the extent ends at slice 0 or where the gate first rejects. *)
Lemma segment_below_extent z0 stop_lower iou_threshold st seg0 :
  0 ≤ z0 < Z.of_nat (length (segmentation st)) →
  slice_at (segmentation st) z0 = Some seg0 →
  let a := if (0 <? z0) && negb stop_lower
           then accepted (Some iou_threshold) (Z.to_nat z0) (-1) (z0 - 1) seg0 else O in
  ∃ st',
    segment_below z0 stop_lower iou_threshold st = (Return (), st') ∧
    length (segmentation st') = length (segmentation st) ∧
    stores (new_events st st') = walk_indices a (-1) (z0 - 1) ∧
    (Z.of_nat a ≤ z0) ∧
    (∀ k, (k ≤ a)%nat →
       slice_at (segmentation st') (z0 - Z.of_nat k) = Some (propagated (-1) z0 seg0 k)) ∧
    (∀ z, 0 ≤ z < Z.of_nat (length (segmentation st)) →
       ¬ (z0 - Z.of_nat a ≤ z < z0) →
       slice_at (segmentation st') z = slice_at (segmentation st) z).
Proof.
  intros Hz0 Hseg0 a.
  destruct (segment_below_run segment_from_mask compute_iou use_box use_mask use_points
              box_extension z0 stop_lower iou_threshold st seg0 Hseg0 Hz0)
    as (st' & Hrun & Hlen & Htr).
  pose proof (advances_new_events uses_flags _ st
    (advances_segment_below segment_from_mask compute_iou use_box use_mask use_points
       box_extension z0 stop_lower iou_threshold)) as (_ & Hseg & _).
  rewrite Hrun in Hseg. simpl in Hseg.
  exists st'. rewrite (new_events_app _ _ _ Htr) in *. clear Htr.
  subst a. destruct (_ && _) eqn:Hcond.
  - apply andb_true_iff in Hcond as [Hpos%Z.ltb_lt _].
    pose proof (accepted_le (Some iou_threshold) (Z.to_nat z0) (-1) (z0 - 1) seg0) as Hle.
    split_and!; [done | done | apply stores_walk_trace_accepted | lia | |].
    + intros [|k] Hk.
      { rewrite Hseg, replay_frame; [by rewrite Z.sub_0_r | lia | |].
        - rewrite stores_walk_trace_accepted. apply Forall_forall.
          intros x (j & Hj & ->)%elem_of_walk_indices. lia.
        - rewrite stores_walk_trace_accepted. intros (j & Hj & Heq)%elem_of_walk_indices. lia. }
      rewrite Hseg. replace (z0 - Z.of_nat (S k)) with (z0 + -1 * Z.of_nat (S k)) by lia.
      replace (z0 - 1) with (z0 + -1) by lia.
      apply replay_walk_trace; [by right | intros j Hj; lia |].
      replace (z0 + -1) with (z0 - 1) by lia. lia.
    + intros z Hz Hout. rewrite Hseg. apply replay_frame; [done | |].
      * rewrite stores_walk_trace_accepted. apply Forall_forall.
        intros x (j & Hj & ->)%elem_of_walk_indices. lia.
      * rewrite stores_walk_trace_accepted. intros (j & Hj & Heq)%elem_of_walk_indices. lia.
  - simpl in Hseg. split_and!; [done | done | done | lia | |].
    + intros [|k] Hk; [| lia]. by rewrite Hseg, Z.sub_0_r.
    + intros z _ _. by rewrite Hseg.
Qed.

(** The walk above slice [z1], which holds [seg1], likewise. *)
Lemma segment_above_extent z1 stop_upper iou_threshold st seg1 :
  0 ≤ z1 < Z.of_nat (length (segmentation st)) →
  slice_at (segmentation st) z1 = Some seg1 →
  let last_slice := Z.of_nat (length (segmentation st)) - 1 in
  let b := if (z1 <? last_slice) && negb stop_upper
           then accepted (Some iou_threshold) (Z.to_nat (last_slice - z1)) 1 (z1 + 1) seg1
           else O in
  ∃ st',
    segment_above z1 stop_upper iou_threshold st = (Return (), st') ∧
    length (segmentation st') = length (segmentation st) ∧
    stores (new_events st st') = walk_indices b 1 (z1 + 1) ∧
    (z1 + Z.of_nat b ≤ last_slice) ∧
    (∀ k, (k ≤ b)%nat →
       slice_at (segmentation st') (z1 + Z.of_nat k) = Some (propagated 1 z1 seg1 k)) ∧
    (∀ z, 0 ≤ z < Z.of_nat (length (segmentation st)) →
       ¬ (z1 < z ≤ z1 + Z.of_nat b) →
       slice_at (segmentation st') z = slice_at (segmentation st) z).
Proof.
  intros Hz1 Hseg1 last_slice b.
  destruct (segment_above_run segment_from_mask compute_iou use_box use_mask use_points
              box_extension z1 stop_upper iou_threshold st seg1 Hseg1 Hz1)
    as (st' & Hrun & Hlen & Htr).
  pose proof (advances_new_events uses_flags _ st
    (advances_segment_above segment_from_mask compute_iou use_box use_mask use_points
       box_extension z1 stop_upper iou_threshold)) as (_ & Hseg & _).
  rewrite Hrun in Hseg. simpl in Hseg. fold last_slice in Htr.
  exists st'. rewrite (new_events_app _ _ _ Htr) in *. clear Htr.
  subst b. destruct (_ && _) eqn:Hcond.
  - apply andb_true_iff in Hcond as [Hpos%Z.ltb_lt _].
    pose proof (accepted_le (Some iou_threshold) (Z.to_nat (last_slice - z1)) 1 (z1 + 1) seg1)
      as Hle.
    split_and!; [done | done | apply stores_walk_trace_accepted | lia | |].
    + intros [|k] Hk.
      { rewrite Hseg, replay_frame; [by rewrite Z.add_0_r | lia | |].
        - rewrite stores_walk_trace_accepted. apply Forall_forall.
          intros x (j & Hj & ->)%elem_of_walk_indices. lia.
        - rewrite stores_walk_trace_accepted. intros (j & Hj & Heq)%elem_of_walk_indices. lia. }
      rewrite Hseg. replace (z1 + Z.of_nat (S k)) with (z1 + 1 * Z.of_nat (S k)) by lia.
      apply replay_walk_trace; [by left | intros j Hj; subst last_slice; lia | lia].
    + intros z Hz Hout. rewrite Hseg. apply replay_frame; [done | |].
      * rewrite stores_walk_trace_accepted. apply Forall_forall.
        intros x (j & Hj & ->)%elem_of_walk_indices. lia.
      * rewrite stores_walk_trace_accepted. intros (j & Hj & Heq)%elem_of_walk_indices. lia.
  - simpl in Hseg. split_and!; [done | done | done | subst last_slice; lia | |].
    + intros [|k] Hk; [| lia]. by rewrite Hseg, Z.add_0_r.
    + intros z _ _. by rewrite Hseg.
Qed.


(** ** How the extent depends on the threshold *)

(** A higher threshold never lets a walk get further. *)
Lemma accepted_mono (t1 t2 : Q) n increment z seg_prev :
  (t1 <= t2)%Q →
  (accepted (Some t2) n increment z seg_prev ≤ accepted (Some t1) n increment z seg_prev)%nat.
Proof.
  intros Hle. revert z seg_prev. induction n as [|n IH]; intros z seg_prev; [done |].
  rewrite !accepted_S. simpl.
  destruct (Qlt_bool _ t1) eqn:H1.
  - apply Qlt_bool_true in H1. rewrite (proj2 (Qlt_bool_true _ t2)); [done |].
    eapply Qlt_le_trans; [exact H1 | exact Hle].
  - destruct (Qlt_bool _ t2); [lia |]. apply le_n_S, IH.
Qed.

(** A threshold that no IoU falls below lets every walk run to its end. *)
Lemma accepted_full (t : Q) n increment z seg_prev :
  (∀ seg seg', (t <= compute_iou seg seg')%Q) →
  accepted (Some t) n increment z seg_prev = n.
Proof.
  intros Hle. revert z seg_prev. induction n as [|n IH]; intros z seg_prev; [done |].
  rewrite accepted_S. simpl. rewrite (proj2 (Qlt_bool_false _ _) (Hle _ _)). by rewrite IH.
Qed.

(** ** All gaps, completely *)

Lemma fill_gaps_stores z0 z1 stop_lower stop_upper (slices : list Z) st :
  StronglySorted Z.lt slices →
  Forall (λ z, 0 ≤ z < Z.of_nat (length (segmentation st))) slices →
  ∃ st' new,
    for_each_gap (fill_gap z0 z1 stop_lower stop_upper)
      (zip (removelast slices) (tail slices)) st = (Return (), st') ∧
    trace st' = trace st ++ new ∧
    length (segmentation st') = length (segmentation st) ∧
    ∀ z, z ∈ stores new ↔ (z ∉ slices) ∧ ∃ a b, a ∈ slices ∧ b ∈ slices ∧ a < z < b.
Proof.
  revert st. induction slices as [|a [|b rest] IH]; intros st Hsorted Hvalid.
  - exists st, []. rewrite app_nil_r. split_and!; [done | done | done |].
    intros z. split; [by intros ?%elem_of_nil | intros (_ & c & _ & []%elem_of_nil & _)].
  - exists st, []. rewrite app_nil_r. split_and!; [done | done | done |].
    intros z. split; [by intros ?%elem_of_nil |].
    intros (_ & c & d & ->%list_elem_of_singleton & ->%list_elem_of_singleton & ?). lia.
  - apply StronglySorted_inv in Hsorted as [Hsorted Hall].
    apply Forall_cons in Hvalid as [Ha Hvalid].
    pose proof Hall as Hab. apply Forall_cons in Hab as [Hab _].
    pose proof Hvalid as Hb. apply Forall_cons in Hb as [Hb _].
    pose proof Hsorted as Hbrest. apply StronglySorted_inv in Hbrest as [_ Hbrest].
    rewrite Forall_forall in Hall, Hbrest.
    destruct (fill_gap_run segment_from_mask compute_iou use_box use_mask use_points
                box_extension z0 z1 stop_lower stop_upper a b st)
      as (st1 & new1 & Hrun1 & Htr1 & Hlen1 & Hperm); [lia | lia |].
    destruct (IH st1 Hsorted) as (st2 & new2 & Hrun2 & Htr2 & Hlen2 & Hin2).
    { by rewrite Hlen1. }
    exists st2, (new1 ++ new2). split_and!.
    + change (zip (removelast (a :: b :: rest)) (tail (a :: b :: rest)))
        with ((a, b) :: zip (removelast (b :: rest)) (tail (b :: rest))).
      simpl for_each_gap. by rewrite (bind_run _ _ _ _ _ Hrun1).
    + by rewrite Htr2, Htr1, <-(assoc_L (++)).
    + congruence.
    + intros z. rewrite stores_app, elem_of_app, Hperm, elem_of_seqZ, Hin2. split.
      * intros [Hz | (Hout & c & d & Hc & Hd & Hcd)].
        -- split.
           ++ intros [-> | [-> | Hin]%elem_of_cons]%elem_of_cons; [lia | lia |].
              specialize (Hbrest z Hin). lia.
           ++ exists a, b. split_and!; [by left | right; by left | lia | lia].
        -- assert (b ≤ c) as Hbc.
           { apply elem_of_cons in Hc as [-> | Hc]; [lia |]. specialize (Hbrest c Hc). lia. }
           split.
           ++ intros [-> | Hin]%elem_of_cons; [lia | done].
           ++ exists c, d. split_and!; [by right | by right | lia | lia].
      * intros (Hout & c & d & Hc & Hd & Hcd).
        assert (z ≠ a ∧ z ≠ b ∧ (z ∉ rest)) as (Hza & Hzb & Hzrest).
        { split_and!; intros Hz; apply Hout; [subst; by left | subst; right; by left |].
          by do 2 right. }
        destruct (decide (z < b)) as [Hlt | Hge].
        -- left. assert (a ≤ c) as Hac.
           { apply elem_of_cons in Hc as [-> | Hc]; [lia |]. specialize (Hall c Hc). lia. }
           assert (a < z); [| lia].
           apply elem_of_cons in Hc as [-> | Hc]; [lia |]. specialize (Hall c Hc).
           apply elem_of_cons in Hc as [-> | Hc]; [lia |]. specialize (Hbrest c Hc). lia.
        -- right. split; [by intros [-> | ?]%elem_of_cons |].
           assert (d ∈ b :: rest) as Hd'.
           { apply elem_of_cons in Hd as [-> | Hd]; [lia | done]. }
           exists b, d. split_and!; [by left | done | lia | lia].
Qed.

(** ** The whole propagation, slice by slice *)

(** For strictly increasing segmented slices of the volume: what is
    assigned, in which order, and what the slices outside the segmented
    range hold afterwards. *)
Lemma propagate_extent s rest stop_lower stop_upper iou_threshold st seg0 seg1 :
  Sorted Z.lt (s :: rest) →
  Forall (λ z, 0 ≤ z < Z.of_nat (length (segmentation st))) (s :: rest) →
  let z0 := foldr Z.min s rest in
  let z1 := foldr Z.max s rest in
  let last_slice := Z.of_nat (length (segmentation st)) - 1 in
  slice_at (segmentation st) z0 = Some seg0 →
  slice_at (segmentation st) z1 = Some seg1 →
  let a := if (0 <? z0) && negb stop_lower
           then accepted (Some iou_threshold) (Z.to_nat z0) (-1) (z0 - 1) seg0 else O in
  let b := if (z1 <? last_slice) && negb stop_upper
           then accepted (Some iou_threshold) (Z.to_nat (last_slice - z1)) 1 (z1 + 1) seg1
           else O in
  ∃ st' gaps,
    propagate (s :: rest) stop_lower stop_upper iou_threshold st
      = (Return (segmentation st'), st') ∧
    stores (new_events st st') =
      walk_indices a (-1) (z0 - 1) ++ walk_indices b 1 (z1 + 1) ++ gaps ∧
    (∀ z, z ∈ gaps ↔ (z ∉ s :: rest) ∧ z0 < z < z1) ∧
    (Z.of_nat a ≤ z0 ∧ z1 + Z.of_nat b ≤ last_slice) ∧
    (∀ k, (k ≤ a)%nat →
       slice_at (segmentation st') (z0 - Z.of_nat k) = Some (propagated (-1) z0 seg0 k)) ∧
    (∀ k, (k ≤ b)%nat →
       slice_at (segmentation st') (z1 + Z.of_nat k) = Some (propagated 1 z1 seg1 k)) ∧
    (∀ z, 0 ≤ z ≤ last_slice → ¬ (z0 - Z.of_nat a ≤ z ≤ z1 + Z.of_nat b) →
       slice_at (segmentation st') z = slice_at (segmentation st) z).
Proof.
  intros Hsorted Hvalid z0 z1 last_slice Hseg0 Hseg1 a b.
  apply Sorted_StronglySorted in Hsorted; [| intros ???; apply Z.lt_trans].
  pose proof (foldr_min_elem s rest) as Hz0. pose proof (foldr_max_elem s rest) as Hz1.
  pose proof (foldr_min_le s rest) as Hmin. pose proof (foldr_max_ge s rest) as Hmax.
  fold z0 in Hz0, Hmin. fold z1 in Hz1, Hmax.
  rewrite Forall_forall in Hvalid, Hmin, Hmax.
  pose proof (Hvalid z0 Hz0) as Hv0. pose proof (Hvalid z1 Hz1) as Hv1.
  pose proof (Hmin z1 Hz1) as Hle.
  destruct (segment_below_extent z0 stop_lower iou_threshold st seg0 Hv0 Hseg0)
    as (st1 & Hrun1 & Hlen1 & Hst1 & Ha & Hdown1 & Hframe1).
  fold a in Hst1, Ha, Hdown1, Hframe1.
  assert (slice_at (segmentation st1) z1 = Some seg1) as Hseg1'.
  { destruct (decide (z1 = z0)) as [Heq | Hne].
    - specialize (Hdown1 O ltac:(lia)). simpl in Hdown1. rewrite Z.sub_0_r in Hdown1.
      rewrite Heq in Hseg1 |- *. rewrite Hdown1. congruence.
    - rewrite Hframe1; [done | done | lia]. }
  destruct (segment_above_extent z1 stop_upper iou_threshold st1 seg1)
    as (st2 & Hrun2 & Hlen2 & Hst2 & Hb & Hup2 & Hframe2); [by rewrite Hlen1 | done |].
  rewrite Hlen1 in Hst2, Hb, Hup2, Hframe2. fold last_slice b in Hst2, Hb, Hup2, Hframe2.
  assert (∃ st3 new3,
    segment_between (s :: rest) z0 z1 stop_lower stop_upper st2 = (Return (), st3) ∧
    trace st3 = trace st2 ++ new3 ∧
    (∀ z, z ∈ stores new3 ↔ (z ∉ s :: rest) ∧ z0 < z < z1))
    as (st3 & new3 & Hrun3 & Htr3 & Hin3).
  { unfold segment_between. destruct (z0 =? z1) eqn:Heq; simpl.
    - apply Z.eqb_eq in Heq. exists st2, []. rewrite app_nil_r.
      split_and!; [done | done |]. intros z. split; [by intros ?%elem_of_nil | lia].
    - apply Z.eqb_neq in Heq.
      destruct (fill_gaps_stores z0 z1 stop_lower stop_upper (s :: rest) st2 Hsorted)
        as (st3 & new3 & ? & ? & _ & Hin3).
      { apply Forall_forall. intros z Hz. rewrite Hlen2, Hlen1. by apply Hvalid. }
      exists st3, new3. split_and!; [done | done |]. intros z. rewrite Hin3.
      split; intros [Hout Hbetween]; (split; [done |]).
      + destruct Hbetween as (c & d & Hc & Hd & Hcd).
        specialize (Hmin c Hc). specialize (Hmax d Hd). lia.
      + exists z0, z1. split_and!; [done | done | lia | lia]. }
  pose proof (advances_new_events uses_flags _ st2
    (advances_segment_between segment_from_mask compute_iou use_box use_mask use_points
       box_extension (s :: rest) z0 z1 stop_lower stop_upper)) as (_ & Hseg3 & _).
  rewrite Hrun3 in Hseg3. simpl in Hseg3. rewrite (new_events_app _ _ _ Htr3) in Hseg3.
  assert (∀ z, 0 ≤ z ≤ last_slice → ¬ (z0 < z < z1) →
            slice_at (segmentation st3) z = slice_at (segmentation st2) z) as Hframe3.
  { intros z Hz Hout. rewrite Hseg3. apply replay_frame.
    - rewrite Hlen2, Hlen1. subst last_slice. lia.
    - apply Forall_forall. intros x Hx%Hin3. lia.
    - intros Hx%Hin3. lia. }
  pose proof (advances_new_events uses_flags _ st
    (advances_segment_below segment_from_mask compute_iou use_box use_mask use_points
       box_extension z0 stop_lower iou_threshold)) as (Htr1 & _ & _).
  rewrite Hrun1 in Htr1. simpl in Htr1.
  pose proof (advances_new_events uses_flags _ st1
    (advances_segment_above segment_from_mask compute_iou use_box use_mask use_points
       box_extension z1 stop_upper iou_threshold)) as (Htr2 & _ & _).
  rewrite Hrun2 in Htr2. simpl in Htr2.
  exists st3, (stores new3). split_and!.
  - unfold propagate. fold z0 z1.
    rewrite (bind_run _ _ _ _ _ Hrun1), (bind_run _ _ _ _ _ Hrun2), (bind_run _ _ _ _ _ Hrun3).
    done.
  - rewrite (new_events_app st st3 (new_events st st1 ++ new_events st1 st2 ++ new3)).
    + by rewrite !stores_app, Hst1, Hst2.
    + rewrite Htr3, Htr2, Htr1. by rewrite <-!(assoc_L (++)).
  - done.
  - lia.
  - lia.
  - intros k Hk. rewrite Hframe3, Hframe2; [by apply Hdown1 | subst last_slice; lia | lia | lia | lia].
  - intros k Hk. rewrite Hframe3; [by apply Hup2 | lia | lia].
  - intros z Hz Hout. rewrite Hframe3, Hframe2, Hframe1; [done | | | | | |];
      subst last_slice; lia.
Qed.

(** ** Exceptions *)









(** ** Progress *)

Lemma paced_bind {A B} (m : M A) (f : A → M B) :
  paced m → (∀ a, paced (f a)) → paced (m ≫= f).
Proof.
  intros Hm Hf st. destruct (Hm st) as (new1 & Htr1 & Ht1).
  unfold mbind, M_bind. destruct (m st) as [[a|e|] st1]; simpl in *.
  - destruct (Hf a st1) as (new2 & Htr2 & Ht2). exists (new1 ++ new2).
    rewrite Htr2, Htr1, <-(assoc_L (++)), stores_app, length_app. split; [done | lia].
  - by exists new1.
  - by exists new1.
Qed.

Lemma paced_quiet {A} (m : M A) :
  (∀ st, trace (m st).2 = trace st ∧ progress_bar (m st).2 = progress_bar st) → paced m.
Proof.
  intros H st. destruct (H st) as [Htr Hpb]. exists []. rewrite Htr, app_nil_r.
  split; [done |]. unfold ticks. rewrite Hpb. simpl. lia.
Qed.

Lemma paced_segment_range_loop fuel z_stop increment stopping_criterion threshold z :
  paced (segment_range_loop fuel z_stop increment stopping_criterion threshold z).
Proof.
  revert z. induction fuel as [|fuel IH]; intros z st.
  { exists []. simpl. rewrite app_nil_r. split; [done | lia]. }
  destruct (slice_at (segmentation st) (z - increment)) as [seg_prev|] eqn:Hprev; last first.
  { rewrite segment_range_loop_unreadable by done. exists []. simpl. rewrite app_nil_r.
    split; [done | lia]. }
  rewrite (segment_range_loop_step _ _ _ _ _ _ _ _ _ _ _ _ _ _ Hprev). simpl.
  destruct (gate_rejects _ _ _); [eexists [_]; simpl; split; [done | unfold ticks; simpl; lia] |].
  destruct (normalize_index _ _) as [i|];
    [| eexists [_]; simpl; split; [done | unfold ticks; simpl; lia]].
  simpl. destruct (stopping_criterion _ _).
  { eexists [_; _]. simpl. rewrite <-(assoc_L (++)). split; [done |]. unfold ticks. simpl. lia. }
  match goal with
  | |- context [segment_range_loop fuel _ _ _ _ ?z' ?st'] =>
      destruct (IH z' st') as (new & Htr & Ht)
  end.
  eexists (_ :: _ :: new). rewrite Htr. simpl. rewrite <-!(assoc_L (++)). split; [done |].
  revert Ht. unfold ticks. simpl. destruct (progress_bar st); simpl; lia.
Qed.

Lemma paced_segment_range z_start z_stop increment stopping_criterion threshold :
  paced (segment_range z_start z_stop increment stopping_criterion threshold).
Proof. intros st. apply paced_segment_range_loop. Qed.

Lemma paced_segment_from_union z_lo z_hi z : paced (segment_from_union z_lo z_hi z).
Proof.
  intros st. unfold segment_from_union, mbind, M_bind, getitem.
  destruct (slice_at _ z_lo); [| exists []; simpl; rewrite app_nil_r; split; [done | lia]].
  destruct (slice_at _ z_hi); [| exists []; simpl; rewrite app_nil_r; split; [done | lia]].
  simpl. unfold setitem. simpl.
  destruct (normalize_index _ _); simpl.
  - eexists [_; _]. rewrite <-(assoc_L (++)). split; [done |]. unfold ticks. simpl.
    destruct (progress_bar st); simpl; lia.
  - eexists [_]. split; [done |]. unfold ticks. simpl. lia.
Qed.

Lemma paced_fill_gap z0 z1 stop_lower stop_upper z_start z_stop :
  paced (fill_gap z0 z1 stop_lower stop_upper z_start z_stop).
Proof.
  unfold fill_gap, bisect_from_bottom, bisect_from_top.
  repeat match goal with
    | |- paced (_ ≫= _) => apply paced_bind; [| intros ?]
    | |- paced (if ?b then _ else _) => destruct b
    | |- paced (segment_range _ _ _ _ _) => apply paced_segment_range
    | |- paced (segment_from_union _ _ _) => apply paced_segment_from_union
    | |- paced (mret _) => by apply paced_quiet
    end.
Qed.

Lemma paced_for_each_gap z0 z1 stop_lower stop_upper gaps :
  paced (for_each_gap (fill_gap z0 z1 stop_lower stop_upper) gaps).
Proof.
  induction gaps as [|[z_start z_stop] gaps IH]; simpl.
  - apply paced_quiet. by intros st.
  - apply paced_bind; [apply paced_fill_gap | by intros _].
Qed.

Lemma paced_propagate segmented_slices stop_lower stop_upper iou_threshold :
  paced (propagate segmented_slices stop_lower stop_upper iou_threshold).
Proof.
  unfold propagate. destruct segmented_slices as [|s rest]; [apply paced_quiet; by intros st |].
  unfold segment_below, segment_above, segment_between.
  repeat match goal with
    | |- paced (_ ≫= _) => apply paced_bind; [| intros ?]
    | |- paced (if ?b then _ else _) => destruct b
    | |- paced (segment_range _ _ _ _ _) => apply paced_segment_range
    | |- paced (for_each_gap _ _) => apply paced_for_each_gap
    | |- paced (mret _) => apply paced_quiet; by intros ?
    | |- paced the_volume => apply paced_quiet; by intros ?
    | |- paced shape0 => apply paced_quiet; by intros ?
    end.
Qed.

(** ** A pair of slices out of order *)

(** X9. A pair of consecutive segmented slices that is not ascending,
    [z_stop ≤ z_start], neither of them a stop, with [0 < z_stop] and
    [z_start + 1] inside the volume: the loop body goes through the branch
    for long gaps.  It segments slice [z_start + 1] from the mask of
    [z_start] and assigns it, then slice [z_stop - 1] from the mask of
    [z_stop], both outside the pair.  For an even difference it then
    segments the midpoint and assigns it, with the union of the masks of
    its two neighbours as prompt; for an odd difference nothing more
    happens.  For a slice that is listed twice the midpoint is the
    segmented slice itself. *)
Theorem fill_gap_reversed_pair z0 z1 stop_lower stop_upper z_start z_stop st :
  0 < z_stop ≤ z_start → z_start + 1 < Z.of_nat (length (segmentation st)) →
  ((z_start =? z0) && stop_lower) = false →
  ((z_stop =? z1) && stop_upper) = false →
  let z_mid := (z_start + z_stop) `div` 2 in
  let segmented prompt z :=
    [Segment prompt z use_mask use_box use_points box_extension;
     Store z (segment_from_mask prompt z use_mask use_box use_points box_extension)] in
  ∃ st2 st' seg seg',
    slice_at (segmentation st) z_start = Some seg ∧
    slice_at (segmentation st) z_stop = Some seg' ∧
    (bisect_from_bottom z_start z_stop;; bisect_from_top z_start z_stop) st
      = (Return (), st2) ∧
    new_events st st2 =
      segmented (IntArr seg) (z_start + 1) ++ segmented (IntArr seg') (z_stop - 1) ∧
    fill_gap z0 z1 stop_lower stop_upper z_start z_stop st = (Return (), st') ∧
    (if (z_stop - z_start) `mod` 2 =? 0 then
       ∃ seg_lo seg_hi prompt,
         slice_at (segmentation st2) (z_mid - 1) = Some seg_lo ∧
         slice_at (segmentation st2) (z_mid + 1) = Some seg_hi ∧
         union_of seg_lo seg_hi prompt ∧
         new_events st2 st' = segmented (BoolArr prompt) z_mid
     else st' = st2) ∧
    stores (new_events st st') =
      [z_start + 1; z_stop - 1] ++
      (if (z_stop - z_start) `mod` 2 =? 0 then [z_mid] else []).
Proof.
  intros [Hlo Hord] Hhi Hlower Hupper z_mid segmented. unfold fill_gap.
  rewrite Hlower, Hupper.
  rewrite (proj2 (Z.eqb_neq (z_stop - z_start) 1)), (proj2 (Z.eqb_neq (z_stop - z_start) 2))
    by lia.
  unfold bisect_from_bottom, bisect_from_top. fold z_mid.
  assert (z_stop ≤ z_mid ≤ z_start) as Hmid.
  { subst z_mid. pose proof (Z.div_mod (z_start + z_stop) 2).
    pose proof (Z.mod_pos_bound (z_start + z_stop) 2). lia. }
  set (crit := if (z_stop - z_start) `mod` 2 =? 0 then Z.geb else Z.gtb).
  destruct (slice_at_is_Some (segmentation st) z_start) as [seg Hseg]; [lia |].
  destruct (slice_at_is_Some (segmentation st) z_stop) as [seg' Hseg']; [lia |].
  edestruct (segment_range_walk segment_from_mask compute_iou use_box use_mask use_points
               box_extension None z_start z_mid 1 crit 1 st seg)
    as (st1 & Hrun1 & Htr1 & Hlen1);
    [by left | lia | done | lia | lia | intros k Hk; lia | |].
  { subst crit. destruct (_ =? 0); [rewrite Z.geb_leb; apply Z.leb_le |
                                    rewrite Z.gtb_ltb; apply Z.ltb_lt]; lia. }
  assert (slice_at (segmentation st1) z_stop = Some seg') as Hseg1.
  { pose proof (advances_new_events _ _ st
      (advances_segment_range segment_from_mask compute_iou use_box use_mask use_points
         box_extension z_start z_mid 1 crit None)) as (_ & Hreplay & _).
    rewrite Hrun1 in Hreplay. simpl in Hreplay.
    rewrite (new_events_app _ _ _ Htr1) in Hreplay. rewrite Hreplay, <-Hseg'.
    apply replay_frame; [lia | repeat constructor; lia |].
    simpl. intros Hin%list_elem_of_singleton. lia. }
  edestruct (segment_range_walk segment_from_mask compute_iou use_box use_mask use_points
               box_extension None z_stop z_mid (-1) Z.leb 1 st1 seg')
    as (st2 & Hrun2 & Htr2 & Hlen2);
    [by right | lia | done | lia | lia | intros k Hk; lia | apply Z.leb_le; lia |].
  assert (trace st2 = trace st ++
            (segmented (IntArr seg) (z_start + 1) ++ segmented (IntArr seg') (z_stop - 1)))
    as Htr12 by (by rewrite Htr2, Htr1, <-(assoc_L (++))).
  destruct (_ `mod` 2 =? 0).
  - destruct (segment_from_union_run segment_from_mask use_box use_mask use_points
                box_extension (z_mid - 1) (z_mid + 1) z_mid st2)
      as (st3 & seg_lo & seg_hi & Hseg_lo & Hseg_hi & Hrun3 & Htr3 & _); [lia | lia | lia |].
    exists st2, st3, seg, seg'.
    split_and!; [done | done | | by apply new_events_app | | |].
    + by rewrite (bind_run _ _ _ _ _ Hrun1).
    + by rewrite (bind_run _ _ _ _ _ Hrun1), (bind_run _ _ _ _ _ Hrun2).
    + exists seg_lo, seg_hi, (logical_or (eq_one seg_lo) (eq_one seg_hi)).
      split_and!; [done | done | apply union_of_logical_or | by apply new_events_app].
    + rewrite (new_events_app st st3
                 ((segmented (IntArr seg) (z_start + 1) ++
                   segmented (IntArr seg') (z_stop - 1)) ++
                  union_trace seg_lo seg_hi z_mid)); [done |].
      by rewrite Htr3, Htr12, <-!(assoc_L (++)).
  - exists st2, st2, seg, seg'.
    split_and!; [done | done | | by apply new_events_app | | done |].
    + by rewrite (bind_run _ _ _ _ _ Hrun1).
    + by rewrite (bind_run _ _ _ _ _ Hrun1), (bind_run _ _ _ _ _ Hrun2).
    + by rewrite (new_events_app _ _ _ Htr12).
Qed.

End WalkFacts.

Local Abbreviation segment_mask_in_volume :=
  (segment_mask_in_volume segment_from_mask compute_iou).

(** ** The entry point on well-formed input *)

Lemma segment_mask_in_volume_flags segmented_slices stop_lower stop_upper iou_threshold
    projection box_extension use_box use_mask use_points st :
  projection ∈ ["mask"; "bounding_box"; "points"] →
  projection_flags projection = (use_box, use_mask, use_points) →
  segment_mask_in_volume segmented_slices stop_lower stop_upper iou_threshold
    projection box_extension st =
  propagate segment_from_mask compute_iou use_box use_mask use_points box_extension
    segmented_slices stop_lower stop_upper iou_threshold st.
Proof.
  intros Hok Hflags.
  rewrite (segment_mask_in_volume_valid segment_from_mask compute_iou) by done.
  by rewrite Hflags.
Qed.

(** X1. Propagation from a single segmented slice [z] holding [seg], as
    [segment_3d_from_slice] calls it.  The call returns; it assigns the [a]
    slices below [z], downwards, then the [b] slices above it, upwards;
    slice [z - k] holds the mask propagated [k] steps down from [seg] and
    slice [z + k] the one propagated [k] steps up; every other slice is as
    it was.  Each step inside the extent had an IoU at or above the
    threshold, and the extent ends on either side at the border of the
    volume, at a stop, or at the first step whose IoU is below the
    threshold. *)
Theorem single_slice_extent z stop_lower stop_upper iou_threshold projection box_extension
    use_box use_mask use_points st seg :
  projection ∈ ["mask"; "bounding_box"; "points"] →
  projection_flags projection = (use_box, use_mask, use_points) →
  0 ≤ z < Z.of_nat (length (segmentation st)) →
  slice_at (segmentation st) z = Some seg →
  let last_slice := Z.of_nat (length (segmentation st)) - 1 in
  let down := propagated segment_from_mask use_box use_mask use_points box_extension (-1) z seg in
  let up := propagated segment_from_mask use_box use_mask use_points box_extension 1 z seg in
  ∃ (a b : nat) st',
    segment_mask_in_volume [z] stop_lower stop_upper iou_threshold projection box_extension st
      = (Return (segmentation st'), st') ∧
    stores (new_events st st') =
      reverse (seqZ (z - Z.of_nat a) (Z.of_nat a)) ++ seqZ (z + 1) (Z.of_nat b) ∧
    (Z.of_nat a ≤ z ∧ z + Z.of_nat b ≤ last_slice) ∧
    (∀ k, (k ≤ a)%nat → slice_at (segmentation st') (z - Z.of_nat k) = Some (down k)) ∧
    (∀ k, (k ≤ b)%nat → slice_at (segmentation st') (z + Z.of_nat k) = Some (up k)) ∧
    (∀ z', 0 ≤ z' ≤ last_slice → ¬ (z - Z.of_nat a ≤ z' ≤ z + Z.of_nat b) →
       slice_at (segmentation st') z' = slice_at (segmentation st) z') ∧
    (∀ k, (k < a)%nat → (iou_threshold <= compute_iou (down k) (down (S k)))%Q) ∧
    (∀ k, (k < b)%nat → (iou_threshold <= compute_iou (up k) (up (S k)))%Q) ∧
    (Z.of_nat a < z →
       stop_lower = true ∨ (compute_iou (down a) (down (S a)) < iou_threshold)%Q) ∧
    (z + Z.of_nat b < last_slice →
       stop_upper = true ∨ (compute_iou (up b) (up (S b)) < iou_threshold)%Q) ∧
    (stop_lower = true → a = O) ∧
    (stop_upper = true → b = O).
Proof.
  intros Hok Hflags Hz Hseg last_slice down up.
  destruct (propagate_extent use_box use_mask use_points box_extension z [] stop_lower
              stop_upper iou_threshold st seg seg)
    as (st' & gaps & Hrun & Hst & Hgaps & Hab & Hdown & Hup & Hframe);
    [repeat constructor | by apply Forall_singleton | done | done |].
  simpl in Hrun, Hst, Hgaps, Hab, Hdown, Hup, Hframe.
  fold last_slice in Hst, Hab, Hdown, Hup, Hframe.
  assert (gaps = []) as ->.
  { destruct gaps as [|g gaps]; [done |]. destruct (Hgaps g) as [(_ & ?) _]; [by left | lia]. }
  set (n_down := Z.to_nat z) in *. set (n_up := Z.to_nat (last_slice - z)) in *.
  pose proof (accepted_gate use_box use_mask use_points box_extension
                (Some iou_threshold) n_down (-1) z seg) as [Hpass_down Hfail_down].
  pose proof (accepted_gate use_box use_mask use_points box_extension
                (Some iou_threshold) n_up 1 z seg) as [Hpass_up Hfail_up].
  change (z + -1) with (z - 1) in Hpass_down, Hfail_down.
  fold down in Hpass_down, Hfail_down, Hdown. fold up in Hpass_up, Hfail_up, Hup.
  match type of Hab with
  | Z.of_nat ?a ≤ _ ∧ _ + Z.of_nat ?b ≤ _ => exists a, b, st'
  end.
  split_and!.
  - by rewrite (segment_mask_in_volume_flags _ _ _ _ _ _ use_box use_mask use_points).
  - rewrite Hst, app_nil_r, walk_indices_down, walk_indices_up. do 3 f_equal. lia.
  - apply Hab.
  - apply Hab.
  - exact Hdown.
  - exact Hup.
  - exact Hframe.
  - intros k Hk. apply Qlt_bool_false.
    destruct ((0 <? z) && negb stop_lower); [by apply Hpass_down | lia].
  - intros k Hk. apply Qlt_bool_false.
    destruct ((z <? last_slice) && negb stop_upper); [by apply Hpass_up | lia].
  - intros Ha. destruct ((0 <? z) && negb stop_lower) eqn:Hcond.
    + right. apply Qlt_bool_true, Hfail_down. subst n_down. lia.
    + left. apply andb_false_iff in Hcond as [Hc%Z.ltb_ge | Hc%negb_false_iff]; [lia | done].
  - intros Hb. destruct ((z <? last_slice) && negb stop_upper) eqn:Hcond.
    + right. apply Qlt_bool_true, Hfail_up. subst n_up. lia.
    + left. apply andb_false_iff in Hcond as [Hc%Z.ltb_ge | Hc%negb_false_iff]; [lia | done].
  - intros ->. by rewrite andb_false_r.
  - intros ->. by rewrite andb_false_r.
Qed.

(** The slices one call assigns, for strictly increasing segmented slices
    of the volume: [a] slices below the lowest, [b] above the highest, and
    every slice in between that is not segmented yet. *)
Lemma segment_mask_in_volume_stores s rest stop_lower stop_upper iou_threshold projection
    box_extension st :
  projection ∈ ["mask"; "bounding_box"; "points"] →
  Sorted Z.lt (s :: rest) →
  Forall (λ z, 0 ≤ z < Z.of_nat (length (segmentation st))) (s :: rest) →
  let z0 := foldr Z.min s rest in
  let z1 := foldr Z.max s rest in
  let last_slice := Z.of_nat (length (segmentation st)) - 1 in
  ∃ (a b : nat) gaps st',
    segment_mask_in_volume (s :: rest) stop_lower stop_upper iou_threshold projection
      box_extension st = (Return (segmentation st'), st') ∧
    stores (new_events st st') =
      walk_indices a (-1) (z0 - 1) ++ walk_indices b 1 (z1 + 1) ++ gaps ∧
    (∀ z, z ∈ gaps ↔ (z ∉ s :: rest) ∧ z0 < z < z1) ∧
    (Z.of_nat a ≤ z0 ∧ z1 + Z.of_nat b ≤ last_slice) ∧
    (stop_lower = true → a = O) ∧
    (stop_upper = true → b = O) ∧
    ((∀ seg seg', (iou_threshold <= compute_iou seg seg')%Q) →
       (stop_lower = false → Z.of_nat a = z0) ∧
       (stop_upper = false → z1 + Z.of_nat b = last_slice)).
Proof.
  intros Hok Hsorted Hvalid z0 z1 last_slice.
  destruct (projection_flags projection) as [[use_box use_mask] use_points] eqn:Hflags.
  pose proof (foldr_min_elem s rest) as Hz0. pose proof (foldr_max_elem s rest) as Hz1.
  fold z0 in Hz0. fold z1 in Hz1.
  pose proof Hvalid as Hv. rewrite Forall_forall in Hv.
  destruct (slice_at_is_Some _ _ (Hv z0 Hz0)) as [seg0 Hseg0].
  destruct (slice_at_is_Some _ _ (Hv z1 Hz1)) as [seg1 Hseg1].
  destruct (propagate_extent use_box use_mask use_points box_extension s rest stop_lower
              stop_upper iou_threshold st seg0 seg1 Hsorted Hvalid Hseg0 Hseg1)
    as (st' & gaps & Hrun & Hst & Hgaps & Hab & _).
  fold z0 z1 last_slice in Hst, Hgaps, Hab.
  match type of Hab with
  | Z.of_nat ?a ≤ _ ∧ _ + Z.of_nat ?b ≤ _ => exists a, b, gaps, st'
  end.
  split_and!; [| done | done | apply Hab | apply Hab | | |].
  - by rewrite (segment_mask_in_volume_flags _ _ _ _ _ _ use_box use_mask use_points).
  - intros ->. by rewrite andb_false_r.
  - intros ->. by rewrite andb_false_r.
  - intros Hpermissive. split; intros ->; rewrite andb_true_r, accepted_full by done.
    + specialize (Hv z0 Hz0). destruct (0 <? z0) eqn:Hpos; [lia |].
      apply Z.ltb_ge in Hpos. lia.
    + specialize (Hv z1 Hz1). destruct (z1 <? last_slice) eqn:Hlt; [lia |].
      apply Z.ltb_ge in Hlt. subst last_slice. lia.
Qed.

(** X2. From a single segmented slice, a lower threshold reaches at least
    as far: every slice assigned with the higher threshold is also
    assigned with the lower one, and holds the same mask. *)
Theorem lower_threshold_reaches_further z stop_lower stop_upper (t1 t2 : Q) projection
    box_extension st :
  0 ≤ z < Z.of_nat (length (segmentation st)) →
  (t1 <= t2)%Q →
  let run t :=
    (segment_mask_in_volume [z] stop_lower stop_upper t projection box_extension st).2 in
  ∀ z', z' ∈ stores (new_events st (run t2)) →
    z' ∈ stores (new_events st (run t1)) ∧
    slice_at (segmentation (run t1)) z' = slice_at (segmentation (run t2)) z'.
Proof.
  intros Hz Hle run z'. subst run. simpl.
  destruct (decide (projection ∈ ["mask"; "bounding_box"; "points"])) as [Hok | Hbad]; last first.
  { rewrite !(segment_mask_in_volume_invalid segment_from_mask compute_iou) by done. simpl.
    rewrite (new_events_app st st []) by (by rewrite app_nil_r). by intros ?%elem_of_nil. }
  destruct (projection_flags projection) as [[use_box use_mask] use_points] eqn:Hflags.
  rewrite !(segment_mask_in_volume_flags _ _ _ _ _ _ use_box use_mask use_points) by done.
  destruct (slice_at_is_Some _ _ Hz) as [seg Hseg].
  destruct (propagate_extent use_box use_mask use_points box_extension z [] stop_lower
              stop_upper t1 st seg seg)
    as (st1 & gaps1 & -> & Hst1 & _ & _ & Hdown1 & Hup1 & _);
    [repeat constructor | by apply Forall_singleton | done | done |].
  destruct (propagate_extent use_box use_mask use_points box_extension z [] stop_lower
              stop_upper t2 st seg seg)
    as (st2 & gaps2 & -> & Hst2 & Hgaps2 & _ & Hdown2 & Hup2 & _);
    [repeat constructor | by apply Forall_singleton | done | done |].
  simpl in *.
  assert (gaps2 = []) as ->.
  { destruct gaps2 as [|g gaps2]; [done |]. destruct (Hgaps2 g) as [(_ & ?) _]; [by left | lia]. }
  set (last_slice := Z.of_nat (length (segmentation st)) - 1) in *.
  pose proof (accepted_mono use_box use_mask use_points box_extension t1 t2
                (Z.to_nat z) (-1) (z - 1) seg Hle) as Hmono_down.
  pose proof (accepted_mono use_box use_mask use_points box_extension t1 t2
                (Z.to_nat (last_slice - z)) 1 (z + 1) seg Hle) as Hmono_up.
  rewrite Hst1, Hst2, app_nil_r, !elem_of_app, !elem_of_walk_indices.
  intros [(j & Hj & ->) | (j & Hj & ->)].
  - split.
    + left. exists j. split; [| done]. destruct ((0 <? z) && negb stop_lower); lia.
    + replace (z - 1 + -1 * j) with (z - Z.of_nat (S (Z.to_nat j))) by lia.
      rewrite Hdown1, Hdown2; [done | |]; destruct ((0 <? z) && negb stop_lower); lia.
  - split.
    + right. left. exists j. split; [| done].
      destruct ((z <? last_slice) && negb stop_upper); lia.
    + replace (z + 1 + 1 * j) with (z + Z.of_nat (S (Z.to_nat j))) by lia.
      rewrite Hup1, Hup2; [done | |]; destruct ((z <? last_slice) && negb stop_upper); lia.
Qed.

(** X3. Between the lowest and the highest segmented slice nothing stays
    unsegmented: for strictly increasing segmented slices of the volume,
    whatever the stops and the threshold are, a slice from the lowest to
    the highest segmented one is assigned if and only if it is not a
    segmented slice. *)
Theorem gaps_are_filled s rest stop_lower stop_upper iou_threshold projection box_extension st :
  projection ∈ ["mask"; "bounding_box"; "points"] →
  Sorted Z.lt (s :: rest) →
  Forall (λ z, 0 ≤ z < Z.of_nat (length (segmentation st))) (s :: rest) →
  let run :=
    segment_mask_in_volume (s :: rest) stop_lower stop_upper iou_threshold projection
      box_extension st in
  ∀ z, foldr Z.min s rest ≤ z ≤ foldr Z.max s rest →
    (z ∈ stores (new_events st run.2) ↔ z ∉ s :: rest).
Proof.
  intros Hok Hsorted Hvalid run z Hz. subst run.
  destruct (segment_mask_in_volume_stores s rest stop_lower stop_upper iou_threshold projection
              box_extension st Hok Hsorted Hvalid)
    as (a & b & gaps & st' & -> & Hst & Hgaps & _).
  simpl. rewrite Hst, !elem_of_app, !elem_of_walk_indices, Hgaps.
  pose proof (foldr_min_elem s rest). pose proof (foldr_max_elem s rest).
  split.
  - intros [(j & Hj & ->) | [(j & Hj & ->) | [Hout _]]]; [lia | lia | done].
  - intros Hout. do 2 right. split; [done |].
    assert (foldr Z.min s rest ≠ z) by (by intros <-).
    assert (z ≠ foldr Z.max s rest) by (by intros ->).
    lia.
Qed.

(** X4. The stops hold for the whole call: with [stop_lower] nothing at
    or below the lowest segmented slice is assigned, with [stop_upper]
    nothing at or above the highest, for strictly increasing segmented
    slices of the volume. *)
Theorem stops_confine s rest stop_lower stop_upper iou_threshold projection box_extension st :
  Sorted Z.lt (s :: rest) →
  Forall (λ z, 0 ≤ z < Z.of_nat (length (segmentation st))) (s :: rest) →
  let run :=
    segment_mask_in_volume (s :: rest) stop_lower stop_upper iou_threshold projection
      box_extension st in
  (stop_lower = true → Forall (λ z, foldr Z.min s rest < z) (stores (new_events st run.2))) ∧
  (stop_upper = true → Forall (λ z, z < foldr Z.max s rest) (stores (new_events st run.2))).
Proof.
  intros Hsorted Hvalid run. subst run.
  destruct (decide (projection ∈ ["mask"; "bounding_box"; "points"])) as [Hok | Hbad]; last first.
  { rewrite !(segment_mask_in_volume_invalid segment_from_mask compute_iou) by done. simpl.
    rewrite (new_events_app st st []) by (by rewrite app_nil_r). by split; constructor. }
  destruct (segment_mask_in_volume_stores s rest stop_lower stop_upper iou_threshold projection
              box_extension st Hok Hsorted Hvalid)
    as (a & b & gaps & st' & -> & Hst & Hgaps & _ & Hlower & Hupper & _).
  simpl. rewrite Hst.
  assert (foldr Z.min s rest ≤ foldr Z.max s rest) as Hle.
  { pose proof (foldr_min_le s rest) as Hmin. rewrite Forall_forall in Hmin.
    apply Hmin, foldr_max_elem. }
  split; intros Hstop; apply Forall_forall; intros z;
    rewrite !elem_of_app, !elem_of_walk_indices, Hgaps.
  - rewrite (Hlower Hstop). intros [(j & Hj & ->) | [(j & Hj & ->) | [_ ?]]]; lia.
  - rewrite (Hupper Hstop). intros [(j & Hj & ->) | [(j & Hj & ->) | [_ ?]]]; lia.
Qed.

(** X5. A threshold that no IoU falls below and no stops: for strictly
    increasing segmented slices of the volume the call returns and has
    assigned every slice of the volume that was not segmented, each
    exactly once, and nothing else. *)
Theorem permissive_gate_covers_volume s rest iou_threshold projection box_extension st :
  projection ∈ ["mask"; "bounding_box"; "points"] →
  Sorted Z.lt (s :: rest) →
  Forall (λ z, 0 ≤ z < Z.of_nat (length (segmentation st))) (s :: rest) →
  (∀ seg seg', (iou_threshold <= compute_iou seg seg')%Q) →
  let run :=
    segment_mask_in_volume (s :: rest) false false iou_threshold projection
      box_extension st in
  run.1 = Return (segmentation run.2) ∧
  NoDup (stores (new_events st run.2)) ∧
  ∀ z, z ∈ stores (new_events st run.2) ↔
       0 ≤ z < Z.of_nat (length (segmentation st)) ∧ (z ∉ s :: rest).
Proof.
  intros Hok Hsorted Hvalid Hpermissive run. subst run.
  destruct (segment_mask_in_volume_stores s rest false false iou_threshold projection
              box_extension st Hok Hsorted Hvalid)
    as (a & b & gaps & st' & Hrun & Hst & Hgaps & Hab & _ & _ & Hfull).
  destruct (Hfull Hpermissive) as [Ha Hb]. specialize (Ha eq_refl). specialize (Hb eq_refl).
  pose proof (foldr_min_elem s rest) as Hz0. pose proof (foldr_max_elem s rest) as Hz1.
  pose proof (foldr_min_le s rest) as Hmin. pose proof (foldr_max_ge s rest) as Hmax.
  rewrite Forall_forall in Hmin, Hmax, Hvalid.
  set (z0 := foldr Z.min s rest) in *. set (z1 := foldr Z.max s rest) in *.
  assert (∀ z, z ∈ stores (new_events st st') ↔
               0 ≤ z < Z.of_nat (length (segmentation st)) ∧ (z ∉ s :: rest)) as Hiff.
  { intros z. rewrite Hst, !elem_of_app, !elem_of_walk_indices, Hgaps.
    pose proof (Hvalid z0 Hz0). pose proof (Hvalid z1 Hz1). split.
    - intros [(j & Hj & ->) | [(j & Hj & ->) | [Hout ?]]]; (split; [lia |]); [| | done].
      + intros Hin%Hmin. lia.
      + intros Hin%Hmax. lia.
    - intros [Hz Hout]. destruct (decide (z < z0)) as [Hlow | Hlow].
      { left. exists (z0 - 1 - z). lia. }
      destruct (decide (z1 < z)) as [Hhigh | Hhigh].
      { right. left. exists (z - z1 - 1). lia. }
      do 2 right. split; [done |].
      assert (z0 ≠ z) by (by intros <-). assert (z ≠ z1) by (by intros ->). lia. }
  rewrite Hrun. simpl. split_and!; [done | | done].
  rewrite Hst. apply NoDup_app. split_and!.
  - by apply NoDup_walk_indices.
  - intros z (j & Hj & ->)%elem_of_walk_indices.
    rewrite elem_of_app, elem_of_walk_indices, Hgaps.
    intros [(j' & Hj' & Heq) | [_ ?]]; specialize (Hmin z1 Hz1); lia.
  - apply NoDup_app. split_and!; [by apply NoDup_walk_indices | |].
    + intros z (j & Hj & ->)%elem_of_walk_indices [_ ?]%Hgaps. lia.
    + pose proof (propagate_run segment_from_mask compute_iou) as Hprop.
      destruct (projection_flags projection) as [[use_box use_mask] use_points] eqn:Hflags.
      destruct (Hprop use_box use_mask use_points box_extension (s :: rest) false false
                  iou_threshold st) as (st'' & new & Hrun' & Htr' & _ & Hnd & _);
        [done | done | by apply Forall_forall |].
      rewrite (segment_mask_in_volume_flags _ _ _ _ _ _ use_box use_mask use_points) in Hrun
        by done.
      rewrite Hrun in Hrun'. injection Hrun' as _ <-.
      rewrite <-(new_events_app _ _ _ Htr'), Hst in Hnd.
      apply NoDup_app in Hnd as (_ & _ & Hnd). by apply NoDup_app in Hnd as (_ & _ & Hnd).
Qed.

(** ** Exceptions and progress of the entry point *)


(** X7. A single segmented slice [z] beyond the last slice of the volume:
    with [stop_lower] set the call does not notice it and returns the
    volume as it is, without a call of the segmenter; without
    [stop_lower] it raises [IndexError], also with the state untouched. *)
Theorem slice_beyond_volume z stop_lower stop_upper iou_threshold projection box_extension st :
  projection ∈ ["mask"; "bounding_box"; "points"] →
  0 < z → Z.of_nat (length (segmentation st)) ≤ z →
  segment_mask_in_volume [z] stop_lower stop_upper iou_threshold projection box_extension st
    = if stop_lower then (Return (segmentation st), st) else (Raise IndexError, st).
Proof.
  intros Hok Hpos Hz.
  destruct (projection_flags projection) as [[use_box use_mask] use_points] eqn:Hflags.
  rewrite (segment_mask_in_volume_flags _ _ _ _ _ _ use_box use_mask use_points) by done.
  unfold propagate, segment_below, segment_above, segment_between, mbind, M_bind, shape0. simpl.
  rewrite (proj2 (Z.ltb_lt 0 z) Hpos), Z.eqb_refl. simpl.
  destruct stop_lower; simpl.
  - rewrite (proj2 (Z.ltb_ge z (Z.of_nat (length (segmentation st)) - 1))) by lia. done.
  - unfold segment_range, enough_fuel.
    rewrite segment_range_loop_unreadable; [done |].
    apply slice_at_None. lia.
Qed.

(** X8. The progress bar never runs ahead of the work: during one call it
    is advanced at most once for each slice that is assigned. *)
Theorem progress_follows_assignments segmented_slices stop_lower stop_upper iou_threshold
    projection box_extension st :
  let run :=
    segment_mask_in_volume segmented_slices stop_lower stop_upper iou_threshold
      projection box_extension st in
  (ticks run.2 ≤ ticks st + length (stores (new_events st run.2)))%nat.
Proof.
  intros run. subst run.
  assert (paced (segment_mask_in_volume segmented_slices stop_lower stop_upper iou_threshold
                   projection box_extension)) as Hpaced.
  { apply paced_bind; [apply paced_quiet; intros st0; unfold assert; by destruct (bool_decide _) |].
    intros _. destruct (projection_flags projection) as [[use_box use_mask] use_points].
    apply paced_propagate. }
  destruct (Hpaced st) as (new & Htr & Ht). by rewrite (new_events_app _ _ _ Htr).
Qed.

(** ** The caller: all objects of one slice *)

(** *** The labels that are propagated *)

Lemma elem_of_unique (a : list Z) (x : Z) : x ∈ unique a ↔ x ∈ a.
Proof. unfold unique. by rewrite merge_sort_Permutation, elem_of_remove_dups. Qed.

Lemma StronglySorted_le_lt (l : list Z) :
  StronglySorted Z.le l → NoDup l → StronglySorted Z.lt l.
Proof.
  induction 1 as [|x l Hl IH Hx]; intros Hnd; [constructor |].
  apply NoDup_cons in Hnd as [Hnotin Hnd]. constructor; [by apply IH |].
  rewrite Forall_forall in Hx |- *. intros y Hy. specialize (Hx y Hy).
  assert (x ≠ y) by (by intros ->). lia.
Qed.

Lemma unique_sorted (a : list Z) : StronglySorted Z.lt (unique a).
Proof.
  apply StronglySorted_le_lt.
  - unfold unique. apply StronglySorted_merge_sort; [intros ???; apply Z.le_trans | apply _].
  - unfold unique. rewrite merge_sort_Permutation. apply NoDup_remove_dups.
Qed.

(** [np.unique(a)[1:]]: the labels of [a] but the smallest one. *)
Lemma elem_of_seg_ids (a : list Z) (v : Z) :
  v ∈ tail (unique a) ↔ v ∈ a ∧ ∃ w, w ∈ a ∧ w < v.
Proof.
  pose proof (unique_sorted a) as Hs. pose proof (elem_of_unique a) as Hin.
  destruct (unique a) as [|m t]; simpl.
  - split; [by intros ?%elem_of_nil |]. intros [Hv _]. by apply Hin, elem_of_nil in Hv.
  - apply StronglySorted_inv in Hs as [_ Hm]. rewrite Forall_forall in Hm. split.
    + intros Hv. split; [apply Hin; by right |].
      exists m. split; [apply Hin; by left | by apply Hm].
    + intros [Hv (w & Hw & Hlt)]. apply Hin, elem_of_cons in Hv as [-> | Hv]; [| done].
      apply Hin, elem_of_cons in Hw as [-> | Hw]; [lia |]. specialize (Hm w Hw). lia.
Qed.

Lemma seg_ids_sorted (a : list Z) : StronglySorted Z.lt (tail (unique a)).
Proof.
  pose proof (unique_sorted a) as Hs. destruct (unique a) as [|m t]; [done |].
  by apply StronglySorted_inv in Hs as [? _].
Qed.

(** *** Shapes and pixels *)

Lemma pixel_at_inside n_slices n_pixels vol j p v :
  shaped n_slices n_pixels vol → pixel_at vol j p = Some v →
  (j < n_slices)%nat ∧ (p < n_pixels)%nat.
Proof.
  intros [Hlen Hshape] Hv. unfold pixel_at in Hv.
  destruct (vol !! j) as [s|] eqn:Hs; [| done]. simpl in Hv.
  rewrite Forall_lookup in Hshape. rewrite <-Hlen, <-(Hshape _ _ Hs).
  split; by eapply lookup_lt_Some.
Qed.

Lemma pixel_at_shaped n_slices n_pixels vol j p :
  shaped n_slices n_pixels vol → (j < n_slices)%nat → (p < n_pixels)%nat →
  is_Some (pixel_at vol j p).
Proof.
  intros [Hlen Hshape] Hj Hp. unfold pixel_at.
  destruct (lookup_lt_is_Some_2 vol j) as [s Hs]; [lia |]. rewrite Hs. simpl.
  rewrite Forall_lookup in Hshape. apply lookup_lt_is_Some_2. by rewrite (Hshape _ _ Hs).
Qed.

Lemma paint_shaped n_slices n_pixels vol this_seg seg_id :
  shaped n_slices n_pixels vol → shaped n_slices n_pixels this_seg →
  shaped n_slices n_pixels (paint vol this_seg seg_id).
Proof.
  intros [Hl1 Hs1] [Hl2 Hs2]. split.
  - unfold paint. rewrite length_zip_with. unfold mask in *. lia.
  - apply Forall_lookup. intros j s Hj. unfold paint in Hj.
    apply lookup_zip_with_Some in Hj as (x & y & -> & Hx & Hy).
    rewrite Forall_lookup in Hs1, Hs2.
    rewrite length_zip_with, (Hs1 _ _ Hx), (Hs2 _ _ Hy). lia.
Qed.

Lemma pixel_at_paint vol this_seg seg_id j p s t :
  pixel_at vol j p = Some s → pixel_at this_seg j p = Some t →
  pixel_at (paint vol this_seg seg_id) j p = Some (if 0 <? t then seg_id else s).
Proof.
  unfold pixel_at, paint, mask in *. intros Hs Ht. rewrite lookup_zip_with.
  destruct (vol !! j) as [x|]; [| done]. destruct (this_seg !! j) as [y|]; [| done].
  cbn [mbind option_bind] in *. by rewrite lookup_zip_with, Hs, Ht.
Qed.

Lemma pixel_at_zeros n_slices n_pixels j p v :
  pixel_at (replicate n_slices (replicate n_pixels 0)) j p = Some v → v = 0.
Proof.
  unfold pixel_at. intros Hv.
  destruct (replicate n_slices _ !! j) as [s|] eqn:Hs; [| done].
  apply lookup_replicate in Hs as [-> _]. simpl in Hv. by apply lookup_replicate in Hv as [-> _].
Qed.

Lemma zeros_shaped n_slices n_pixels :
  shaped n_slices n_pixels (replicate n_slices (replicate n_pixels 0)).
Proof.
  split; [apply length_replicate |]. apply Forall_replicate, length_replicate.
Qed.

Lemma length_propagated use_box use_mask use_points box_extension increment z seg k n_pixels :
  well_shaped n_pixels segment_from_mask → length seg = n_pixels →
  length (propagated segment_from_mask use_box use_mask use_points box_extension
            increment z seg k) = n_pixels.
Proof.
  intros Hws Hseg. induction k as [|k IH]; [done |]. simpl. by apply Hws.
Qed.

(** *** One object *)

(** A run from a single segmented slice, without stops, on a volume of
    well-shaped slices: it returns a volume of the same shape in which the
    segmented slice is as it was. *)
Lemma single_slice_run z iou_threshold projection box_extension st seg n_pixels :
  projection ∈ ["mask"; "bounding_box"; "points"] →
  0 ≤ z < Z.of_nat (length (segmentation st)) →
  slice_at (segmentation st) z = Some seg →
  well_shaped n_pixels segment_from_mask →
  Forall (λ s, length s = n_pixels) (segmentation st) →
  ∃ vol,
    (segment_mask_in_volume [z] false false iou_threshold projection box_extension st).1
      = Return vol ∧
    shaped (length (segmentation st)) n_pixels vol ∧
    vol !! Z.to_nat z = Some seg.
Proof.
  intros Hok Hz Hseg Hws Hshape.
  destruct (projection_flags projection) as [[use_box use_mask] use_points] eqn:Hflags.
  destruct (propagate_extent use_box use_mask use_points box_extension z [] false false
              iou_threshold st seg seg)
    as (st' & gaps & Hrun & _ & _ & Hab & Hdown & Hup & Hframe);
    [repeat constructor | by apply Forall_singleton | done | done |].
  simpl in Hab, Hdown, Hup, Hframe.
  pose proof (advances_length _ _ st
    (advances_propagate segment_from_mask compute_iou use_box use_mask use_points
       box_extension [z] false false iou_threshold)) as Hlen.
  rewrite Hrun in Hlen. simpl in Hlen.
  assert (length seg = n_pixels) as Hlseg.
  { rewrite slice_at_inrange in Hseg by done. rewrite Forall_lookup in Hshape.
    by eapply Hshape. }
  match type of Hab with
  | Z.of_nat ?a ≤ _ ∧ _ + Z.of_nat ?b ≤ _ =>
      remember a as a0 eqn:Ha0; remember b as b0 eqn:Hb0
  end.
  clear Ha0 Hb0.
  exists (segmentation st'). split_and!.
  - rewrite (segment_mask_in_volume_flags _ _ _ _ _ _ use_box use_mask use_points) by done.
    by rewrite Hrun.
  - split; [done |]. apply Forall_lookup. intros j s Hj.
    assert (j < length (segmentation st'))%nat as Hjlt by (by eapply lookup_lt_Some).
    assert (slice_at (segmentation st') (Z.of_nat j) = Some s) as Hs.
    { rewrite slice_at_inrange by lia. by rewrite Nat2Z.id. }
    destruct (decide (z - Z.of_nat a0 ≤ Z.of_nat j ≤ z + Z.of_nat b0)) as [Hin | Hout].
    + destruct (decide (Z.of_nat j ≤ z)).
      * specialize (Hdown (Z.to_nat (z - Z.of_nat j)) ltac:(lia)).
        replace (z - Z.of_nat (Z.to_nat (z - Z.of_nat j))) with (Z.of_nat j) in Hdown by lia.
        rewrite Hs in Hdown. injection Hdown as ->. by apply length_propagated.
      * specialize (Hup (Z.to_nat (Z.of_nat j - z)) ltac:(lia)).
        replace (z + Z.of_nat (Z.to_nat (Z.of_nat j - z))) with (Z.of_nat j) in Hup by lia.
        rewrite Hs in Hup. injection Hup as ->. by apply length_propagated.
    + rewrite Hframe in Hs; [| lia | done].
      rewrite slice_at_inrange, Nat2Z.id in Hs by lia.
      rewrite Forall_lookup in Hshape. by eapply Hshape.
  - specialize (Hdown O ltac:(lia)). simpl in Hdown. rewrite Z.sub_0_r in Hdown.
    by rewrite slice_at_inrange in Hdown by lia.
Qed.

Section CallerFacts.

Variable instance_segmentation : Z → mask.

Local Abbreviation propagate_object := (propagate_object segment_from_mask compute_iou).
Local Abbreviation segment_object := (segment_object segment_from_mask compute_iou).
Local Abbreviation covers := (covers segment_from_mask compute_iou).
Local Abbreviation segment_3d_from_slice :=
  (segment_3d_from_slice segment_from_mask compute_iou instance_segmentation).

Lemma masked_fill_indicator (seg_z : mask) (seg_id : Z) :
  masked_fill (replicate (length seg_z) 0) ((λ v, v =? seg_id) <$> seg_z) 1
  = Some ((λ v, if v =? seg_id then 1 else 0) <$> seg_z).
Proof.
  unfold masked_fill. rewrite length_fmap, length_replicate, decide_True by done. f_equal.
  induction seg_z as [|v seg_z IH]; simpl; [done |]. by f_equal.
Qed.

(** The volume of one object: of the shape of [raw], and in slice [z] the
    pixels of the object and nothing else. *)
Lemma propagate_object_run n_slices z seg_z projection box_extension iou_threshold seg_id :
  projection ∈ ["mask"; "bounding_box"; "points"] →
  0 ≤ z < Z.of_nat n_slices →
  well_shaped (length seg_z) segment_from_mask →
  ∃ this_seg,
    propagate_object n_slices (length seg_z) z (Z.to_nat z) seg_z projection box_extension
      iou_threshold seg_id = Return this_seg ∧
    shaped n_slices (length seg_z) this_seg ∧
    this_seg !! Z.to_nat z = Some ((λ v, if v =? seg_id then 1 else 0) <$> seg_z).
Proof.
  intros Hok Hz Hws. unfold propagate_object, object_seed.
  rewrite masked_fill_indicator. cbn [mbind option_bind].
  match goal with |- context [State ?s [] None] => set (seed := s) end.
  set (ind := (λ v, if v =? seg_id then 1 else 0) <$> seg_z).
  assert (length seed = n_slices) as Hlen.
  { unfold seed, zeros. by rewrite length_insert, length_replicate. }
  destruct (single_slice_run z iou_threshold projection box_extension (State seed [] None)
              ind (length seg_z)) as (vol & Hrun & Hshape & Hseed).
  - done.
  - simpl. lia.
  - simpl. rewrite slice_at_inrange by lia. apply list_lookup_insert_eq.
    unfold zeros. rewrite length_replicate. lia.
  - done.
  - simpl. apply Forall_insert; [apply Forall_replicate, length_replicate |].
    unfold ind. by rewrite length_fmap.
  - exists vol. simpl in Hshape. by rewrite Hlen in Hshape.
Qed.

(** *** The loop over the objects *)

Lemma for_each_object_paint n_slices n_pixels z i seg_z projection box_extension
    iou_threshold (ids : list Z) (vol0 : list mask) :
  StronglySorted Z.lt ids →
  (∀ id, id ∈ ids → ∃ this_seg,
     propagate_object n_slices n_pixels z i seg_z projection box_extension iou_threshold id
       = Return this_seg ∧ shaped n_slices n_pixels this_seg) →
  shaped n_slices n_pixels vol0 →
  let covers := covers n_slices n_pixels z i seg_z projection box_extension iou_threshold in
  ∃ vol,
    for_each_object
      (segment_object n_slices n_pixels z i seg_z projection box_extension iou_threshold)
      ids vol0 = Return vol ∧
    shaped n_slices n_pixels vol ∧
    ∀ j p v, pixel_at vol j p = Some v →
      (pixel_at vol0 j p = Some v ∧ ∀ id, id ∈ ids → ¬ covers id j p) ∨
      (v ∈ ids ∧ covers v j p ∧ ∀ id, id ∈ ids → covers id j p → id ≤ v).
Proof.
  intros Hsorted Hruns Hshape cov. revert vol0 Hsorted Hruns Hshape.
  induction ids as [|id ids IH]; intros vol0 Hsorted Hruns Hshape; cbn [for_each_object].
  - exists vol0. split_and!; [done | done |]. intros j p v Hv. left. split; [done |].
    intros id Hid. by apply elem_of_nil in Hid.
  - apply StronglySorted_inv in Hsorted as [Hsorted Hlt]. rewrite Forall_forall in Hlt.
    destruct (Hruns id) as (this_seg & Hrun & Hts); [by left |].
    unfold segment_object at 1. rewrite Hrun.
    destruct (IH (paint vol0 this_seg id)) as (vol & Hfold & Hvol & Hpix);
      [done | intros; apply Hruns; by right | by apply paint_shaped |].
    exists vol. split_and!; [done | done |]. intros j p v Hv.
    destruct (pixel_at_inside _ _ _ _ _ _ Hvol Hv) as [Hj Hp].
    destruct (pixel_at_shaped _ _ vol0 j p Hshape Hj Hp) as [s Hs].
    destruct (pixel_at_shaped _ _ this_seg j p Hts Hj Hp) as [t Ht].
    pose proof (pixel_at_paint vol0 this_seg id j p s t Hs Ht) as Hpaint.
    destruct (Hpix j p v Hv) as [[Hv1 Hnone] | (Hin & Hcov & Hmax)].
    + rewrite Hpaint in Hv1. injection Hv1 as Hv1. destruct (0 <? t) eqn:Hpos.
      * right. subst v. apply Z.ltb_lt in Hpos.
        split_and!; [by left | by exists this_seg, t |].
        intros id' [-> | Hid']%elem_of_cons Hc; [lia | by destruct (Hnone id' Hid')].
      * left. subst v. split; [done |].
        intros id' [-> | Hid']%elem_of_cons; [| by apply Hnone].
        intros (this_seg' & t' & Hrun' & Ht' & Hpos').
        rewrite Hrun in Hrun'. injection Hrun' as <-. rewrite Ht in Ht'. injection Ht' as <-.
        apply Z.ltb_ge in Hpos. lia.
    + right. split_and!; [by right | done |].
      intros id' [-> | Hid']%elem_of_cons Hc; [specialize (Hlt v Hin); lia | by apply Hmax].
Qed.

(** The whole call on a legal slice with a known projection. *)
Lemma segment_3d_from_slice_run n_slices z projection box_extension iou_threshold :
  projection ∈ ["mask"; "bounding_box"; "points"] →
  0 ≤ z < Z.of_nat n_slices →
  let seg_z := instance_segmentation z in
  let n_pixels := length seg_z in
  well_shaped n_pixels segment_from_mask →
  let seg_ids := tail (unique seg_z) in
  let covers := covers n_slices n_pixels z (Z.to_nat z) seg_z projection box_extension
                  iou_threshold in
  ∃ vol,
    segment_3d_from_slice n_slices n_pixels (Some z) projection box_extension iou_threshold
      = Return vol ∧
    shaped n_slices n_pixels vol ∧
    ∀ j p v, pixel_at vol j p = Some v →
      (v = 0 ∧ ∀ id, id ∈ seg_ids → ¬ covers id j p) ∨
      (v ∈ seg_ids ∧ covers v j p ∧ ∀ id, id ∈ seg_ids → covers id j p → id ≤ v).
Proof.
  intros Hok Hz seg_z n_pixels Hws seg_ids cov.
  unfold segment_3d_from_slice. cbn [default]. rewrite normalize_index_inrange by done.
  fold seg_z seg_ids.
  destruct (for_each_object_paint n_slices n_pixels z (Z.to_nat z) seg_z projection
              box_extension iou_threshold seg_ids (zeros n_slices n_pixels))
    as (vol & Hrun & Hshape & Hpix).
  - apply seg_ids_sorted.
  - intros id _.
    destruct (propagate_object_run n_slices z seg_z projection box_extension iou_threshold id)
      as (this_seg & ? & ? & _); [done | done | done |]. by exists this_seg.
  - apply zeros_shaped.
  - exists vol. split_and!; [done | done |]. intros j p v Hv.
    destruct (Hpix j p v Hv) as [[Hv0 Hnone] | ?]; [left | by right].
    split; [| done]. by apply pixel_at_zeros in Hv0.
Qed.


(** In the slice the objects come from, an object covers its own pixels
    and no others. *)
Lemma covers_seed n_slices z seg_z projection box_extension iou_threshold seg_id p :
  projection ∈ ["mask"; "bounding_box"; "points"] →
  0 ≤ z < Z.of_nat n_slices →
  well_shaped (length seg_z) segment_from_mask →
  covers n_slices (length seg_z) z (Z.to_nat z) seg_z projection box_extension iou_threshold
    seg_id (Z.to_nat z) p ↔ seg_z !! p = Some seg_id.
Proof.
  intros Hok Hz Hws.
  destruct (propagate_object_run n_slices z seg_z projection box_extension iou_threshold
              seg_id Hok Hz Hws) as (this_seg & Hrun & _ & Hseed).
  split.
  - intros (this_seg' & t & Hrun' & Ht & Hpos). rewrite Hrun in Hrun'. injection Hrun' as <-.
    unfold pixel_at, mask in *. rewrite Hseed in Ht. cbn [mbind option_bind] in Ht.
    rewrite list_lookup_fmap in Ht. destruct (seg_z !! p) as [v|]; [| done].
    simpl in Ht. injection Ht as <-.
    destruct (v =? seg_id) eqn:Heq; [apply Z.eqb_eq in Heq; by subst | lia].
  - intros Hp. exists this_seg, 1. split_and!; [done | | lia].
    unfold pixel_at, mask in *. rewrite Hseed. cbn [mbind option_bind].
    rewrite list_lookup_fmap, Hp. simpl. by rewrite Z.eqb_refl.
Qed.

Lemma segment_3d_from_slice_at n_slices n_pixels z projection box_extension iou_threshold :
  segment_3d_from_slice n_slices n_pixels (Some z) projection box_extension iou_threshold =
  match normalize_index n_slices z with
  | None => Raise IndexError
  | Some i =>
      for_each_object
        (segment_object n_slices n_pixels z i (instance_segmentation z) projection
           box_extension iou_threshold)
        (tail (unique (instance_segmentation z))) (zeros n_slices n_pixels)
  end.
Proof. done. Qed.

(** X10. How a call of [segment_3d_from_slice] for a slice [0 ≤ z] ends,
    when the instance segmentation of the slice has the shape of a slice:
    with [IndexError] when [z] is beyond the volume; otherwise with a volume
    of zeros when the slice holds no label but its smallest one, whatever
    the projection is; otherwise with [AssertionError] when the projection
    is unknown; and otherwise, for a segmenter that keeps the shape, with
    a volume of the shape of [raw]. *)
Theorem segment_3d_from_slice_outcome n_slices n_pixels z projection box_extension
    iou_threshold :
  0 ≤ z →
  length (instance_segmentation z) = n_pixels →
  let seg_ids := tail (unique (instance_segmentation z)) in
  let result :=
    segment_3d_from_slice n_slices n_pixels (Some z) projection box_extension iou_threshold in
  (Z.of_nat n_slices ≤ z → result = Raise IndexError) ∧
  (z < Z.of_nat n_slices → seg_ids = [] → result = Return (zeros n_slices n_pixels)) ∧
  (z < Z.of_nat n_slices → seg_ids ≠ [] →
     projection ∉ ["mask"; "bounding_box"; "points"] → result = Raise AssertionError) ∧
  (z < Z.of_nat n_slices → projection ∈ ["mask"; "bounding_box"; "points"] →
     well_shaped n_pixels segment_from_mask →
     ∃ vol, result = Return vol ∧ shaped n_slices n_pixels vol).
Proof.
  intros Hz Hlen seg_ids result. subst result. rewrite segment_3d_from_slice_at.
  fold seg_ids. split_and!.
  - intros Hout. by rewrite normalize_index_None.
  - intros Hin ->. by rewrite normalize_index_inrange by lia.
  - intros Hin Hids Hbad. rewrite normalize_index_inrange by lia.
    destruct seg_ids as [|seg_id seg_ids']; [done |]. cbn [for_each_object].
    unfold segment_object, propagate_object, object_seed.
    rewrite <-Hlen, masked_fill_indicator. cbn [mbind option_bind].
    by rewrite (segment_mask_in_volume_invalid segment_from_mask compute_iou).
  - intros Hin Hok Hws. subst n_pixels.
    destruct (segment_3d_from_slice_run n_slices z projection box_extension iou_threshold)
      as (vol & Hrun & Hshape & _); [done | lia | done |].
    exists vol. split; [| done]. by rewrite <-Hrun, segment_3d_from_slice_at.
Qed.

(** X11. The result of [segment_3d_from_slice], pixel by pixel, for a known
    projection, a slice [z] of the volume and a segmenter that keeps the
    shape.  A pixel that no propagated object covers is 0.  A pixel that
    is covered holds the largest label among the objects that cover it:
    where the volumes of two objects overlap, the larger label wins.  No
    pixel holds anything but 0 or a label of the slice other than its
    smallest one. *)
Theorem largest_label_wins n_slices z projection box_extension iou_threshold :
  projection ∈ ["mask"; "bounding_box"; "points"] →
  0 ≤ z < Z.of_nat n_slices →
  let seg_z := instance_segmentation z in
  let n_pixels := length seg_z in
  well_shaped n_pixels segment_from_mask →
  let seg_ids := tail (unique seg_z) in
  let covers := covers n_slices n_pixels z (Z.to_nat z) seg_z projection box_extension
                  iou_threshold in
  ∃ vol,
    segment_3d_from_slice n_slices n_pixels (Some z) projection box_extension iou_threshold
      = Return vol ∧
    (∀ v, v ∈ seg_ids ↔ v ∈ seg_z ∧ ∃ w, w ∈ seg_z ∧ w < v) ∧
    ∀ j p, (j < n_slices)%nat → (p < n_pixels)%nat →
      (pixel_at vol j p = Some 0 ∧ ∀ id, id ∈ seg_ids → ¬ covers id j p) ∨
      (∃ v, pixel_at vol j p = Some v ∧ v ∈ seg_ids ∧ covers v j p ∧
            ∀ id, id ∈ seg_ids → covers id j p → id ≤ v).
Proof.
  intros Hok Hz seg_z n_pixels Hws seg_ids cov.
  destruct (segment_3d_from_slice_run n_slices z projection box_extension iou_threshold
              Hok Hz Hws) as (vol & Hrun & Hshape & Hpix).
  exists vol. split_and!; [done | intros v; apply elem_of_seg_ids |].
  intros j p Hj Hp. destruct (pixel_at_shaped _ _ vol j p Hshape Hj Hp) as [v Hv].
  destruct (Hpix j p v Hv) as [[-> Hnone] | (Hin & Hcov & Hmax)]; [by left |].
  right. by exists v.
Qed.

(** X12. In slice [z] itself the result of [segment_3d_from_slice] is the
    instance segmentation of that slice in which the smallest label is
    replaced by 0: a pixel keeps its label when the slice holds a smaller
    one, and is 0 otherwise.  The smallest label is dropped whether or not
    it is the background. *)
Theorem seed_slice_keeps_labels n_slices z projection box_extension iou_threshold :
  projection ∈ ["mask"; "bounding_box"; "points"] →
  0 ≤ z < Z.of_nat n_slices →
  let seg_z := instance_segmentation z in
  well_shaped (length seg_z) segment_from_mask →
  ∃ vol,
    segment_3d_from_slice n_slices (length seg_z) (Some z) projection box_extension
      iou_threshold = Return vol ∧
    vol !! Z.to_nat z =
      Some ((λ v, if bool_decide (Exists (λ w, w < v) seg_z) then v else 0) <$> seg_z).
Proof.
  intros Hok Hz seg_z Hws.
  destruct (segment_3d_from_slice_run n_slices z projection box_extension iou_threshold
              Hok Hz Hws) as (vol & Hrun & Hshape & Hpix).
  fold seg_z in Hrun, Hshape, Hpix.
  exists vol. split; [done |].
  pose proof Hshape as [Hlen Hslices].
  destruct (lookup_lt_is_Some_2 vol (Z.to_nat z)) as [s Hs]; [lia |].
  rewrite Forall_lookup in Hslices. pose proof (Hslices _ _ Hs) as Hls.
  unfold mask in *. rewrite Hs. f_equal. apply list_eq. intros p. rewrite list_lookup_fmap.
  destruct (seg_z !! p) as [v|] eqn:Hp; simpl.
  - assert (p < length seg_z)%nat as Hplt by (by eapply lookup_lt_Some).
    destruct (pixel_at_shaped _ _ vol (Z.to_nat z) p Hshape) as [x Hx]; [lia | done |].
    pose proof Hx as Hx'. unfold pixel_at, mask in Hx'. rewrite Hs in Hx'.
    cbn [mbind option_bind] in Hx'. rewrite Hx'. f_equal.
    destruct (Hpix _ _ _ Hx) as [[-> Hnone] | (Hin & Hcov & _)].
    + case_bool_decide as Hsmaller; [| done]. exfalso.
      apply Exists_exists in Hsmaller as (w & Hw & Hlt).
      apply (Hnone v).
      * apply elem_of_seg_ids. split; [by eapply list_elem_of_lookup_2 | by exists w].
      * by apply covers_seed.
    + apply covers_seed in Hcov; [| done | done | done].
      rewrite Hp in Hcov. injection Hcov as ->.
      apply elem_of_seg_ids in Hin as [_ (w & Hw & Hlt)].
      rewrite bool_decide_eq_true_2; [done |]. apply Exists_exists. by exists w.
  - apply lookup_ge_None. apply lookup_ge_None in Hp. lia.
Qed.

End CallerFacts.

End WholeRuns.

(** * Cached prompts *)

Section PromptFacts.

Context {P L B : Type}.
Variable point_files : string → option (dict (P * L)).
Variable box_files : string → option (dict B).

(** What [load_prompt_type] returns as cache needs no file any more, and
    answers the same image as before. *)
Lemma load_prompt_type_again {V} (files : string → option (dict V)) image_name
    (cached_prompts cached_prompts' : cache V) save_prompts opened opened' prompts :
  load_prompt_type image_name files cached_prompts save_prompts opened
    = (Loaded (cached_prompts', prompts), opened') →
  (∀ log, load_prompt_type image_name files cached_prompts' save_prompts log
            = (Loaded (cached_prompts', prompts), log)) ∧
  (∀ other_image log,
     (load_prompt_type other_image files cached_prompts' save_prompts log).2 = log).
Proof.
  unfold load_prompt_type. intros Hload.
  destruct cached_prompts as [|path|d], save_prompts; simplify_eq; try done.
  - destruct (files path) as [d|]; [| done].
    destruct (d image_name) as [v|] eqn:Hv; simplify_eq.
    split; [intros log; by rewrite Hv |]. intros other log. by destruct (d other).
  - destruct (d image_name) as [v|] eqn:Hv; simplify_eq.
    split; [intros log; by rewrite Hv |]. intros other log. by destruct (d other).
Qed.

(** The prompts of one kind are returned exactly when its cache is there
    and is not being filled; otherwise the cache and the log are as they
    were. *)
Lemma load_prompt_type_cached {V} (files : string → option (dict V)) image_name
    (cached_prompts cached_prompts' : cache V) save_prompts opened opened' prompts :
  load_prompt_type image_name files cached_prompts save_prompts opened
    = (Loaded (cached_prompts', prompts), opened') →
  (is_Some prompts ↔ cached_prompts ≠ NoCache ∧ save_prompts = false) ∧
  (prompts = None → cached_prompts' = cached_prompts ∧ opened' = opened).
Proof.
  unfold load_prompt_type. intros Hload.
  destruct cached_prompts as [|path|d], save_prompts; simplify_eq;
    try (split; [split; [by intros [? ?] | by intros [? ?]] | done]).
  - destruct (files path) as [d|]; [| done].
    destruct (d image_name) as [v|]; simplify_eq.
    split; [split; [done | by eexists] | done].
  - destruct (d image_name) as [v|]; simplify_eq.
    split; [split; [done | by eexists] | done].
Qed.

(** X13. The pickle files of the prompts are loaded once: after a call of
    [_load_prompts] that returns, a call with the caches it returned gives
    the same prompts and the same caches for the same image, and opens no
    file, for this image or for another one. *)
Theorem prompts_are_loaded_once image_name cached_point_prompts save_point_prompts
    cached_box_prompts save_box_prompts opened prompts cached_point_prompts'
    cached_box_prompts' opened' :
  _load_prompts point_files box_files image_name cached_point_prompts save_point_prompts
    cached_box_prompts save_box_prompts opened
    = (Loaded (prompts, cached_point_prompts', cached_box_prompts'), opened') →
  _load_prompts point_files box_files image_name cached_point_prompts' save_point_prompts
    cached_box_prompts' save_box_prompts opened'
    = (Loaded (prompts, cached_point_prompts', cached_box_prompts'), opened') ∧
  ∀ other_image,
    (_load_prompts point_files box_files other_image cached_point_prompts' save_point_prompts
       cached_box_prompts' save_box_prompts opened').2 = opened'.
Proof.
  unfold _load_prompts. intros Hload.
  destruct (load_prompt_type image_name point_files cached_point_prompts save_point_prompts opened)
    as [[[cp point_prompts]|e] opened1] eqn:Hpoints; [| done].
  destruct (load_prompt_type image_name box_files cached_box_prompts save_box_prompts opened1)
    as [[[cb box_prompts]|e] opened2] eqn:Hboxes; [| done].
  apply load_prompt_type_again in Hpoints as [Hpoints Hpoints_log].
  apply load_prompt_type_again in Hboxes as [Hboxes Hboxes_log].
  assert (cp = cached_point_prompts' ∧ cb = cached_box_prompts' ∧ opened2 = opened')
    as (-> & -> & ->).
  { destruct point_prompts as [[? ?]|], box_prompts; by simplify_eq. }
  split.
  - by rewrite Hpoints, Hboxes.
  - intros other. specialize (Hpoints_log other opened').
    destruct (load_prompt_type other point_files _ _ _) as [[[cp1 v1]|e] log1];
      simpl in Hpoints_log; subst log1; [| done].
    specialize (Hboxes_log other opened').
    destruct (load_prompt_type other box_files _ _ _) as [[[cb1 v2]|e] log2];
      simpl in Hboxes_log; subst log2; [| done].
    by destruct v1 as [[? ?]|], v2.
Qed.

(** X14. Which prompts a call of [_load_prompts] that returns gives: none
    at all exactly when neither kind is cached, a kind being cached when
    its cache is not [None] and is not being filled; the caches and the log
    are then as they were.  Otherwise the prompts of a kind are the empty
    list exactly when that kind is not cached: with only one kind cached
    the call returns empty prompts for the other. *)
Theorem prompt_parts_follow_caches image_name cached_point_prompts save_point_prompts
    cached_box_prompts save_box_prompts opened prompts cached_point_prompts'
    cached_box_prompts' opened' :
  _load_prompts point_files box_files image_name cached_point_prompts save_point_prompts
    cached_box_prompts save_box_prompts opened
    = (Loaded (prompts, cached_point_prompts', cached_box_prompts'), opened') →
  let points_cached := cached_point_prompts ≠ NoCache ∧ save_point_prompts = false in
  let boxes_cached := cached_box_prompts ≠ NoCache ∧ save_box_prompts = false in
  match prompts with
  | None =>
      ¬ points_cached ∧ ¬ boxes_cached ∧
      cached_point_prompts' = cached_point_prompts ∧
      cached_box_prompts' = cached_box_prompts ∧ opened' = opened
  | Some (input_point, input_label, input_box) =>
      (points_cached ∨ boxes_cached) ∧
      (input_point = NoPrompt ↔ ¬ points_cached) ∧
      (input_label = NoPrompt ↔ ¬ points_cached) ∧
      (input_box = NoPrompt ↔ ¬ boxes_cached)
  end.
Proof.
  intros Hload points_cached boxes_cached. unfold _load_prompts in Hload.
  destruct (load_prompt_type image_name point_files cached_point_prompts save_point_prompts opened)
    as [[[cp point_prompts]|e] opened1] eqn:Hpoints; [| done].
  destruct (load_prompt_type image_name box_files cached_box_prompts save_box_prompts opened1)
    as [[[cb box_prompts]|e] opened2] eqn:Hboxes; [| done].
  apply load_prompt_type_cached in Hpoints as [Hpoints Hpoints_same].
  apply load_prompt_type_cached in Hboxes as [Hboxes Hboxes_same].
  fold points_cached in Hpoints. fold boxes_cached in Hboxes.
  destruct point_prompts as [[input_point input_label]|], box_prompts as [input_box|];
    simplify_eq.
  - assert (points_cached) by (apply Hpoints; by eexists).
    assert (boxes_cached) by (apply Hboxes; by eexists).
    split_and!; [by left | done | done | done].
  - assert (points_cached) by (apply Hpoints; by eexists).
    assert (¬ boxes_cached) by (by intros [? ?]%Hboxes).
    split_and!; [by left | done | done | done].
  - assert (¬ points_cached) by (by intros [? ?]%Hpoints).
    assert (boxes_cached) by (apply Hboxes; by eexists).
    split_and!; [by right | done | done | done].
  - assert (¬ points_cached) by (by intros [? ?]%Hpoints).
    assert (¬ boxes_cached) by (by intros [? ?]%Hboxes).
    destruct (Hpoints_same eq_refl) as [-> ->]. destruct (Hboxes_same eq_refl) as [-> ->].
    done.
Qed.

End PromptFacts.

(** * Concrete whole runs

    The theorems on whole runs and on the caller applied to the stub
    segmenter, which copies its prompt up to slice 7 and detects nothing
    above it. *)

Lemma stub_iou_nonneg (seg seg' : mask) : (0 <= stub_iou seg seg')%Q.
Proof. unfold stub_iou, Qle, count_true. simpl. lia. Qed.

Lemma stub_segmenter_well_shaped (n_pixels : nat) : well_shaped n_pixels stub_segmenter.
Proof.
  intros [a|a] z ? ? ? ? Hsize; simpl in *; [destruct (7 <? z) |]; by rewrite ?length_fmap.
Qed.

(** The pair (6, 2) in a volume of nine slices whose slices 3 and 5 hold
    [0; 1; 0] and [0; 0; 1]: the empty masks of slices 6 and 2 are
    propagated to slices 7 and 1, and the midpoint 4 is segmented from the
    union of slices 3 and 5, set in the last two pixels. *)
Lemma fill_gap_reversed_pair_witness :
  ∃ st2 st',
    (bisect_from_bottom stub_segmenter stub_iou true true false 0 6 2;;
     bisect_from_top stub_segmenter stub_iou true true false 0 6 2)
      (two_objects_volume 9 3 5) = (Return (), st2) ∧
    new_events (two_objects_volume 9 3 5) st2 =
      [Segment (IntArr [0; 0; 0]) 7 true true false 0; Store 7 [0; 0; 0];
       Segment (IntArr [0; 0; 0]) 1 true true false 0; Store 1 [0; 0; 0]] ∧
    fill_gap stub_segmenter stub_iou true true false 0 2 6 false false 6 2
      (two_objects_volume 9 3 5) = (Return (), st') ∧
    new_events st2 st' =
      [Segment (BoolArr [false; true; true]) 4 true true false 0; Store 4 [0; 1; 1]] ∧
    stores (new_events (two_objects_volume 9 3 5) st') = [7; 1; 4].
Proof.
  destruct (fill_gap_reversed_pair stub_segmenter stub_iou true true false 0 2 6 false false
              6 2 (two_objects_volume 9 3 5) ltac:(lia) ltac:(simpl; lia) eq_refl eq_refl)
    as (st2 & st' & seg & seg' & Hseg & Hseg' & Hwalks & Hevents & Hrun & Hmid & Hstores).
  vm_compute in Hseg, Hseg'. injection Hseg as <-. injection Hseg' as <-.
  change ((2 - 6) `mod` 2 =? 0) with true in Hmid.
  destruct Hmid as (seg_lo & seg_hi & prompt & Hlo & Hhi & Hunion & Hmidpoint).
  assert (st2 = ((bisect_from_bottom stub_segmenter stub_iou true true false 0 6 2;;
                  bisect_from_top stub_segmenter stub_iou true true false 0 6 2)
                   (two_objects_volume 9 3 5)).2) as Hst2 by (by rewrite Hwalks).
  rewrite Hst2 in Hlo, Hhi. vm_compute in Hlo, Hhi.
  injection Hlo as <-. injection Hhi as <-.
  apply union_of_three in Hunion. vm_compute in Hunion. subst prompt.
  exists st2, st'.
  split_and!; [exact Hwalks | exact Hevents | exact Hrun | exact Hmidpoint | exact Hstores].
Defined.

(** From slice 5 of ten slices, in mode "mask" with threshold 4/5: all the
    slices below, and the slices above up to the first that the stub
    leaves empty. *)
Lemma single_slice_extent_witness :
  ∃ (a b : nat) st',
    segment_mask_in_volume stub_segmenter stub_iou [5] false false (4 # 5) "mask" 0
      (seeded_volume 10 [5]) = (Return (segmentation st'), st') ∧
    stores (new_events (seeded_volume 10 [5]) st') =
      reverse (seqZ (5 - Z.of_nat a) (Z.of_nat a)) ++ seqZ (5 + 1) (Z.of_nat b).
Proof.
  destruct (single_slice_extent stub_segmenter stub_iou 5 false false (4 # 5) "mask" 0
              true true false (seeded_volume 10 [5]) [0; 1; 1])
    as (a & b & st' & Hrun & Hstores & _);
    [by left | reflexivity | simpl; lia | vm_compute; reflexivity |].
  exists a, b, st'. split; [exact Hrun | exact Hstores].
Defined.

(** Thresholds 1/2 and 4/5 from slice 5 of ten slices. *)
Lemma lower_threshold_reaches_further_witness :
  (1 # 2 <= 4 # 5)%Q ∧
  ∀ z',
    z' ∈ stores (new_events (seeded_volume 10 [5])
                   (segment_mask_in_volume stub_segmenter stub_iou [5] false false (4 # 5)
                      "mask" 0 (seeded_volume 10 [5])).2) →
    z' ∈ stores (new_events (seeded_volume 10 [5])
                   (segment_mask_in_volume stub_segmenter stub_iou [5] false false (1 # 2)
                      "mask" 0 (seeded_volume 10 [5])).2) ∧
    slice_at (segmentation
                (segment_mask_in_volume stub_segmenter stub_iou [5] false false (1 # 2)
                   "mask" 0 (seeded_volume 10 [5])).2) z' =
    slice_at (segmentation
                (segment_mask_in_volume stub_segmenter stub_iou [5] false false (4 # 5)
                   "mask" 0 (seeded_volume 10 [5])).2) z'.
Proof.
  split; [by vm_compute |].
  apply (lower_threshold_reaches_further stub_segmenter stub_iou 5 false false (1 # 2) (4 # 5)
           "mask" 0 (seeded_volume 10 [5])); [simpl; lia | by vm_compute].
Defined.

(** The segmented slices 2 and 6 of nine slices. *)
Lemma gaps_are_filled_witness :
  Sorted Z.lt [2; 6] ∧
  ∀ z, foldr Z.min 2 [6] ≤ z ≤ foldr Z.max 2 [6] →
    (z ∈ stores (new_events (seeded_volume 9 [2; 6])
                   (segment_mask_in_volume stub_segmenter stub_iou [2; 6] false false (4 # 5)
                      "mask" 0 (seeded_volume 9 [2; 6])).2) ↔ z ∉ [2; 6]).
Proof.
  split; [repeat constructor |].
  apply (gaps_are_filled stub_segmenter stub_iou 2 [6] false false (4 # 5) "mask" 0
           (seeded_volume 9 [2; 6]));
    [by left | repeat constructor | repeat constructor; simpl; lia].
Defined.

(** The segmented slices 2 and 6 of nine slices, both of them stops. *)
Lemma stops_confine_witness :
  (true = true →
   Forall (λ z, foldr Z.min 2 [6] < z)
     (stores (new_events (seeded_volume 9 [2; 6])
                (segment_mask_in_volume stub_segmenter stub_iou [2; 6] true true (4 # 5)
                   "mask" 0 (seeded_volume 9 [2; 6])).2))) ∧
  (true = true →
   Forall (λ z, z < foldr Z.max 2 [6])
     (stores (new_events (seeded_volume 9 [2; 6])
                (segment_mask_in_volume stub_segmenter stub_iou [2; 6] true true (4 # 5)
                   "mask" 0 (seeded_volume 9 [2; 6])).2))).
Proof.
  apply (stops_confine stub_segmenter stub_iou 2 [6] true true (4 # 5) "mask" 0
           (seeded_volume 9 [2; 6])); [repeat constructor | repeat constructor; simpl; lia].
Defined.

(** Threshold 0, which no IoU of the stub falls below. *)
Lemma permissive_gate_covers_volume_witness :
  let run :=
    segment_mask_in_volume stub_segmenter stub_iou [2; 6] false false 0 "mask" 0
      (seeded_volume 9 [2; 6]) in
  run.1 = Return (segmentation run.2) ∧
  NoDup (stores (new_events (seeded_volume 9 [2; 6]) run.2)) ∧
  ∀ z, z ∈ stores (new_events (seeded_volume 9 [2; 6]) run.2) ↔
       0 ≤ z < Z.of_nat (length (segmentation (seeded_volume 9 [2; 6]))) ∧ (z ∉ [2; 6]).
Proof.
  apply (permissive_gate_covers_volume stub_segmenter stub_iou 2 [6] 0 "mask" 0
           (seeded_volume 9 [2; 6]));
    [by left | repeat constructor | repeat constructor; simpl; lia | apply stub_iou_nonneg].
Defined.

(** Slice 12 of a volume of ten slices, with and without [stop_lower]. *)
Lemma slice_beyond_volume_witness :
  segment_mask_in_volume stub_segmenter stub_iou [12] true false (4 # 5) "mask" 0
    (seeded_volume 10 [])
    = (Return (segmentation (seeded_volume 10 [])), seeded_volume 10 []) ∧
  segment_mask_in_volume stub_segmenter stub_iou [12] false false (4 # 5) "mask" 0
    (seeded_volume 10 [])
    = (Raise IndexError, seeded_volume 10 []).
Proof.
  split.
  - apply (slice_beyond_volume stub_segmenter stub_iou 12 true false (4 # 5) "mask" 0
             (seeded_volume 10 [])); [by left | lia | simpl; lia].
  - apply (slice_beyond_volume stub_segmenter stub_iou 12 false false (4 # 5) "mask" 0
             (seeded_volume 10 [])); [by left | lia | simpl; lia].
Defined.

(** Ten slices of three pixels, the central slice 5, in mode "mask" and in
    an unknown mode. *)
Lemma segment_3d_from_slice_outcome_witness :
  (∃ vol,
     segment_3d_from_slice stub_segmenter stub_iou stub_instances 10 3 (Some 5) "mask" 0
       (4 # 5) = Return vol ∧ shaped 10 3 vol) ∧
  segment_3d_from_slice stub_segmenter stub_iou stub_instances 10 3 (Some 5) "box" 0 (4 # 5)
    = Raise AssertionError.
Proof.
  split.
  - destruct (segment_3d_from_slice_outcome stub_segmenter stub_iou stub_instances 10 3 5
                "mask" 0 (4 # 5)) as (_ & _ & _ & Hrun); [lia | reflexivity |].
    apply Hrun; [simpl; lia | by left | apply stub_segmenter_well_shaped].
  - destruct (segment_3d_from_slice_outcome stub_segmenter stub_iou stub_instances 10 3 5
                "box" 0 (4 # 5)) as (_ & _ & Hraise & _); [lia | reflexivity |].
    apply Hraise; [simpl; lia | by vm_compute | ].
    intros Hin. repeat (apply elem_of_cons in Hin as [Hin | Hin]; [discriminate Hin |]).
    by apply elem_of_nil in Hin.
Defined.

(** The labels 0, 1 and 2 in slice 5 of ten slices. *)
Lemma largest_label_wins_witness :
  ∃ vol,
    segment_3d_from_slice stub_segmenter stub_iou stub_instances 10 3 (Some 5) "mask" 0
      (4 # 5) = Return vol ∧
    ∀ j p, (j < 10)%nat → (p < 3)%nat →
      (pixel_at vol j p = Some 0 ∧
       ∀ id, id ∈ tail (unique (stub_instances 5)) →
         ¬ covers stub_segmenter stub_iou 10 3 5 5 (stub_instances 5) "mask" 0 (4 # 5) id j p) ∨
      (∃ v, pixel_at vol j p = Some v ∧ v ∈ tail (unique (stub_instances 5)) ∧
            covers stub_segmenter stub_iou 10 3 5 5 (stub_instances 5) "mask" 0 (4 # 5) v j p ∧
            ∀ id, id ∈ tail (unique (stub_instances 5)) →
              covers stub_segmenter stub_iou 10 3 5 5 (stub_instances 5) "mask" 0 (4 # 5) id j p →
              id ≤ v).
Proof.
  destruct (largest_label_wins stub_segmenter stub_iou stub_instances 10 5 "mask" 0 (4 # 5))
    as (vol & Hrun & _ & Hpix);
    [by left | simpl; lia | apply stub_segmenter_well_shaped |].
  exists vol. split; [exact Hrun | exact Hpix].
Defined.

(** The instance segmentation [3; 1; 2] without background: label 1 is
    dropped. *)
Lemma seed_slice_keeps_labels_witness :
  ∃ vol,
    segment_3d_from_slice stub_segmenter stub_iou (λ _, [3; 1; 2]) 4 3 (Some 2) "mask" 0
      (4 # 5) = Return vol ∧
    vol !! 2%nat = Some [3; 0; 2].
Proof.
  apply (seed_slice_keeps_labels stub_segmenter stub_iou (λ _, [3; 1; 2]) 4 2 "mask" 0 (4 # 5));
    [by left | simpl; lia | apply stub_segmenter_well_shaped].
Defined.

(** * Concrete prompt caches *)

(** Both kinds of prompts in pickle files that are not loaded yet: the
    second call finds the dictionaries. *)
Lemma prompts_are_loaded_once_witness :
  _load_prompts stub_point_files stub_box_files "a.tif"
    (CacheDict stub_point_dict) false (CacheDict stub_box_dict) false
    ["points-p1-n0.pkl"; "boxes.pkl"]
    = (Loaded (Some (Prompt 1, Prompt 2, Prompt 3),
               CacheDict stub_point_dict, CacheDict stub_box_dict),
       ["points-p1-n0.pkl"; "boxes.pkl"]) ∧
  ∀ other_image,
    (_load_prompts stub_point_files stub_box_files other_image
       (CacheDict stub_point_dict) false (CacheDict stub_box_dict) false
       ["points-p1-n0.pkl"; "boxes.pkl"]).2 = ["points-p1-n0.pkl"; "boxes.pkl"].
Proof.
  apply (prompts_are_loaded_once stub_point_files stub_box_files "a.tif"
           (CacheFile "points-p1-n0.pkl") false (CacheFile "boxes.pkl") false []).
  reflexivity.
Defined.

(** Point prompts in a pickle file, box prompts being collected in an
    empty dictionary: the box prompts of the call are empty. *)
Lemma prompt_parts_follow_caches_witness :
  let points_cached := @CacheFile (Z * Z) "points-p1-n0.pkl" ≠ NoCache ∧ false = false in
  let boxes_cached := @CacheDict Z (λ _, None) ≠ NoCache ∧ true = false in
  (points_cached ∨ boxes_cached) ∧
  (Prompt 1 = NoPrompt ↔ ¬ points_cached) ∧
  (Prompt 2 = NoPrompt ↔ ¬ points_cached) ∧
  (@NoPrompt Z = NoPrompt ↔ ¬ boxes_cached).
Proof.
  exact (prompt_parts_follow_caches stub_point_files stub_box_files "a.tif"
           (CacheFile "points-p1-n0.pkl") false (CacheDict (λ _, None)) true []
           (Some (Prompt 1, Prompt 2, NoPrompt)) (CacheDict stub_point_dict)
           (CacheDict (λ _, None)) ["points-p1-n0.pkl"] eq_refl).
Defined.
